(** * loganweather: the weather data access layer

    A shallow embedding of [src/lib/nws.ts] (unit conversions, the upstream
    aggregator) and [src/lib/weather-pipeline.ts] (retry wrapper, per-bucket
    snapshot cache), together with the properties the specification states
    about them.

    JavaScript numbers are IEEE 754 binary64 values: they are modelled by
    [spec_float] with the operations of [SpecFloat] at precision 53 and
    maximal exponent 1024.  Millisecond clock readings ([Date.now()]) are
    integers and are modelled by [Z]. *)

From Stdlib Require Import ZArith String Ascii List Bool Lia.
From Stdlib Require Import Floats.SpecFloat.
From stdpp Require Import gmap strings list fin_maps pretty.

Local Open Scope string_scope.
Local Open Scope list_scope.
Local Open Scope Z_scope.

(* ===================================================================== *)
(** * JavaScript numbers *)
(* ===================================================================== *)

Module JsNum.

Definition Number : Type := spec_float.

Definition prec : Z := 53.
Definition emax : Z := 1024.

Definition mul (x y : Number) : Number := SFmul prec emax x y.
Definition add (x y : Number) : Number := SFadd prec emax x y.
Definition div (x y : Number) : Number := SFdiv prec emax x y.

(** The number denoted by the integer literal [z]. *)
Definition ofZ (z : Z) : Number := binary_normalize prec emax z 0 false.

(** The number denoted by the decimal literal [n / 10^d]: the binary64
    value nearest to the quotient, which a correctly rounded division of
    the two (exactly representable) integers computes. *)
Definition ofDecimal (n : Z) (d : nat) : Number := div (ofZ n) (ofZ (10 ^ Z.of_nat d)).

(** [Number.isNaN] *)
Definition isNaN (x : Number) : bool :=
  match x with S754_nan => true | _ => false end.

(** The integer a number is equal to, when there is one; both zeros are
    the integer 0. *)
Definition toInteger (x : Number) : option Z :=
  match x with
  | S754_zero _ => Some 0
  | S754_finite s m e =>
      if 0 <=? e then Some (cond_Zopp s (Z.pos m * 2 ^ e))
      else if Z.pos m mod 2 ^ (- e) =? 0
           then Some (cond_Zopp s (Z.pos m / 2 ^ (- e)))
           else None
  | _ => None
  end.

(** [Math.round]: the integer nearest to [x], ties towards +infinity;
    NaN, the infinities and the zeros are returned as they are, and a
    result of zero keeps the sign of [x]. *)
Definition Math_round (x : Number) : Number :=
  match x with
  | S754_finite s m e =>
      if 0 <=? e then x
      else
        let k := - e in
        let n := (2 * cond_Zopp s (Z.pos m) + 2 ^ k) / 2 ^ (k + 1) in
        if n =? 0 then S754_zero s else ofZ n
  | _ => x
  end.

(** The [%] operator ([Number::remainder]): the result has the sign of the
    dividend and is exact. *)
Definition rem (n d : Number) : Number :=
  match n, d with
  | S754_nan, _ | _, S754_nan => S754_nan
  | S754_infinity _, _ => S754_nan
  | _, S754_zero _ => S754_nan
  | _, S754_infinity _ => n
  | S754_zero _, _ => n
  | S754_finite sn mn en, S754_finite _ md ed =>
      let e := Z.min en ed in
      let r := Z.rem (Z.pos mn * 2 ^ (en - e)) (Z.pos md * 2 ^ (ed - e)) in
      if r =? 0 then S754_zero sn
      else binary_normalize prec emax (cond_Zopp sn r) e false
  end.

(** [10 ** digits] for the small non-negative exponents the source uses. *)
Definition pow10 (digits : nat) : Number := ofZ (10 ^ Z.of_nat digits).

(** [x < 0] *)
Definition ltZero (x : Number) : bool := SFltb x (S754_zero false).

(** Reading an array at a number: the property key of an integer index
    in range selects the element (the key of [-0] is ["0"]); every other
    number names no element. *)
Definition arrayGet {A : Type} (l : list A) (i : Number) : option A :=
  match toInteger i with
  | Some z => if 0 <=? z then nth_error l (Z.to_nat z) else None
  | None => None
  end.

(** The decimal digits of a non-negative integer. *)
Definition digits (n : Z) : string := pretty (Z.to_N n).

(** The integer [n] for which [n / 10^f] is closest to the non-negative
    value [m * 2^e], the larger one when two are equally close. *)
Definition scaledNearest (f : nat) (m : positive) (e : Z) : Z :=
  let p := 10 ^ Z.of_nat f in
  if 0 <=? e then Z.pos m * 2 ^ e * p
  else (2 * Z.pos m * p + 2 ^ (- e)) / 2 ^ (- e + 1).

Fixpoint zeros (k : nat) : string :=
  match k with O => "" | S k' => String "0" (zeros k') end.

(** Steps 8 to 10 of [Number.prototype.toFixed] on the integer [n]:
    pad to [f + 1] digits and put the point before the last [f]. *)
Definition placePoint (f : nat) (n : Z) : string :=
  let m := digits n in
  if (f =? 0)%nat then m
  else
    let k := String.length m in
    let m' := if (k <=? f)%nat then (zeros (f + 1 - k) ++ m)%string else m in
    let k' := String.length m' in
    (substring 0 (k' - f) m' ++ "." ++ substring (k' - f) f m')%string.

Section ToFixed.
(** [Number::toString], the shortest round-trip rendering of a number;
    [toFixed] resorts to it for values that are not finite or are at
    least 10^21, and template literals use it for every number. *)
Variable Number_toString : Number -> string.

(** [Number.prototype.toFixed(f)] *)
Definition toFixed (x : Number) (f : nat) : string :=
  match x with
  | S754_nan | S754_infinity _ => Number_toString x
  | S754_zero _ => placePoint f 0
  | S754_finite s m e =>
      let sgn := if s then "-" else "" in
      if 10 ^ 21 <=? (if 0 <=? e then Z.pos m * 2 ^ e else Z.pos m / 2 ^ (- e))
      then (sgn ++ Number_toString (S754_finite false m e))%string
      else (sgn ++ placePoint f (scaledNearest f m e))%string
  end.
End ToFixed.

(** Whether [toFixed] renders [x] itself: [x] is finite and below 10^21. *)
Definition fixedRange (x : Number) : bool :=
  match x with
  | S754_zero _ => true
  | S754_finite _ m e =>
      negb (10 ^ 21 <=? (if 0 <=? e then Z.pos m * 2 ^ e else Z.pos m / 2 ^ (- e)))
  | _ => false
  end.

(** The value a number in that range rounds to at [f] decimals, in units
    of 10^-f; both zeros round to 0. *)
Definition roundedAt (f : nat) (x : Number) : option Z :=
  match x with
  | S754_zero _ => Some 0
  | S754_finite s m e => Some (cond_Zopp s (scaledNearest f m e))
  | _ => None
  end.

(** One cell of the table that checks [binary_normalize] on the remainders
    modulo 16: the mantissa [2^K * j] at exponent [-K] is the integer [j]. *)
Definition remCell (K j : nat) : bool :=
  match toInteger (binary_normalize prec emax (2 ^ Z.of_nat K * Z.of_nat j)
                     (- Z.of_nat K) false) with
  | Some z => z =? Z.of_nat j
  | None => false
  end.

End JsNum.

(** Arithmetic on closed numbers is run by [vm_compute], never by [simpl]. *)
Arguments JsNum.mul : simpl never.
Arguments JsNum.add : simpl never.
Arguments JsNum.div : simpl never.
Arguments JsNum.ofZ : simpl never.
Arguments JsNum.ofDecimal : simpl never.
Arguments JsNum.pow10 : simpl never.
Arguments JsNum.Math_round : simpl never.
Arguments JsNum.rem : simpl never.

(* ===================================================================== *)
(** * Values thrown and promises settled *)
(* ===================================================================== *)

(** What a [throw] or a rejected promise carries: an [Error] object with its
    message, or [null] (the initial [lastError] of the retry loop). *)
Inductive Exn : Type :=
| ExnNull
| ExnError (message : string).

#[global] Instance Exn_eq_dec : EqDecision Exn.
Proof. solve_decision. Defined.

(** A value that may be [null] or, at run time, [undefined]. *)
Inductive JsValue (A : Type) : Type :=
| JsNull
| JsUndefined
| Js (a : A).
Arguments JsNull {A}.
Arguments JsUndefined {A}.
Arguments Js {A} a.

(** The outcome of an awaited promise. *)
Definition Outcome (A : Type) : Type := (Exn + A)%type.

Definition bindOutcome {A B : Type} (o : Outcome A) (k : A -> Outcome B) : Outcome B :=
  match o with
  | inl e => inl e
  | inr a => k a
  end.

Notation "'await' x <- o 'in' k" := (bindOutcome o (fun x => k))
  (at level 10, x name, o at level 200, k at level 200).

(** A promise together with the instant at which it settles, counted on
    one scale for the promises started together and for the promises they
    hand on (the reply to a request, and the body of that reply when it
    has been read): [Promise.all] rejects with the earliest rejection. *)
Record Settled (A : Type) : Type := MkSettled {
  settledAt : nat;
  outcome : Outcome A;
}.
Arguments MkSettled {A} settledAt outcome.
Arguments settledAt {A} s.
Arguments outcome {A} s.

Definition rejection {A : Type} (p : Settled A) : option (nat * Exn) :=
  match outcome p with
  | inl e => Some (settledAt p, e)
  | inr _ => None
  end.

(** The earlier of two rejections; the first argument wins a tie. *)
Definition earlier (a b : option (nat * Exn)) : option (nat * Exn) :=
  match a, b with
  | Some (ta, ea), Some (tb, eb) => if (ta <=? tb)%nat then a else b
  | Some _, None => a
  | None, _ => b
  end.

(** [Promise.all([a, b, c])] *)
Definition Promise_all3 {A B C : Type}
    (a : Settled A) (b : Settled B) (c : Settled C) : Outcome (A * B * C) :=
  match outcome a, outcome b, outcome c with
  | inr x, inr y, inr z => inr (x, y, z)
  | _, _, _ =>
      match earlier (rejection a) (earlier (rejection b) (rejection c)) with
      | Some (_, e) => inl e
      | None => inl ExnNull (* not reached: one of the three is rejected *)
      end
  end.

(* ===================================================================== *)
(** * src/lib/nws.ts *)
(* ===================================================================== *)

Module Nws.
Import JsNum.

Definition NWS_BASE_URL : string := "https://api.weather.gov".
(** [NYC_COORDS = { lat: 40.7128, lon: -74.006 }] *)
Definition NYC_COORDS_lat : Number := ofDecimal 407128 4.
Definition NYC_COORDS_lon : Number := ofDecimal (-74006) 3.

Record NwsForecastPeriod : Type := {
  name : string;
  startTime : string;
  endTime : string;
  isDaytime : bool;
  temperature : Number;
  temperatureUnit : string;
  windSpeed : string;
  windDirection : string;
  shortForecast : string;
  detailedForecast : string;
  icon : string;
}.

Record NwsForecastResponse : Type := {
  forecast_periods : list NwsForecastPeriod;
  forecast_updated : string;
}.

(** An hourly period: a forecast period with two optional readings, each
    [{ value: number | null }] when present. *)
Record NwsHourlyPeriod : Type := {
  period : NwsForecastPeriod;
  probabilityOfPrecipitation : option (option Number);
  relativeHumidity : option (option Number);
}.

Record NwsHourlyResponse : Type := {
  hourly_periods : list NwsHourlyPeriod;
  hourly_updated : string;
}.

Record NwsStation : Type := {
  stationIdentifier : string;
  station_name : string;
}.

Record NwsStationsResponse : Type := {
  features : list NwsStation;
}.

(** The [properties] of an observation; each reading is
    [{ value: number | null }]. *)
Record NwsObservationResponse : Type := {
  obs_timestamp : string;
  obs_textDescription : string;
  obs_temperature : option Number;
  obs_dewpoint : option Number;
  obs_windSpeed : option Number;
  obs_windDirection : option Number;
  obs_windGust : option Number;
  obs_relativeHumidity : option Number;
  obs_barometricPressure : option Number;
  obs_visibility : option Number;
  obs_heatIndex : option Number;
  obs_windChill : option Number;
}.

Record RelativeLocationProperties : Type := {
  city : option string;
  state : option string;
}.

Record NwsPointsResponse : Type := {
  forecast : string;
  forecastHourly : string;
  observationStations : string;
  (** [relativeLocation?: { properties?: { city?, state? } }] *)
  relativeLocation : option (option RelativeLocationProperties);
}.

(** ** Unit conversions *)

(** [round(value, digits = 0)] *)
Definition round (value : option Number) (digits : nat) : option Number :=
  match value with
  | None => None
  | Some v =>
      if isNaN v then None
      else
        let factor := pow10 digits in
        Some (div (Math_round (mul v factor)) factor)
  end.

Definition cToF (value : option Number) : option Number :=
  match value with
  | None => None
  | Some v => round (Some (add (mul v (div (ofZ 9) (ofZ 5))) (ofZ 32))) 0
  end.

Definition mpsToMph (value : option Number) : option Number :=
  match value with
  | None => None
  | Some v => round (Some (mul v (ofDecimal 223694 5))) 0
  end.

Definition metersToMiles (value : option Number) : option Number :=
  match value with
  | None => None
  | Some v => round (Some (div v (ofDecimal 160934 2))) 1
  end.

Definition pascalToInHg (value : option Number) : option Number :=
  match value with
  | None => None
  | Some v => round (Some (mul v (ofDecimal 2953 7))) 2
  end.

Definition directions : list string :=
  [ "N"; "NNE"; "NE"; "ENE"; "E"; "ESE"; "SE"; "SSE";
    "S"; "SSW"; "SW"; "WSW"; "W"; "WNW"; "NW"; "NNW" ]%string.

Definition degreesToCardinal (value : option Number) : JsValue string :=
  match value with
  | None => JsNull
  | Some v =>
      if isNaN v then JsNull
      else
        let index := rem (Math_round (div v (ofDecimal 225 1))) (ofZ 16) in
        match arrayGet directions index with
        | Some d => Js d
        | None => JsUndefined
        end
  end.

(** ** Fetching *)

(** What [fetch(url)] resolves to: the status line and the promise
    [response.json()], read at the type the call site expects.  That
    promise settles on its own, once the body has been read and parsed:
    later than the reply it belongs to. *)
Record HttpResponse (T : Type) : Type := {
  ok : bool;
  status : nat;
  json : Settled T;
}.
Arguments ok {T} h.
Arguments status {T} h.
Arguments json {T} h.

(** [fetchJson<T>(url)]; [fetch] rejects on a transport failure.  A
    transport failure and a status outside 200 to 299 reject when the
    reply is in; otherwise the promise returned is [response.json()]
    and settles as that one does. *)
Definition fetchJson {T : Type}
    (fetch : string -> Settled (HttpResponse T)) (url : string) : Settled T :=
  let reply := fetch url in
  match outcome reply with
  | inl error => MkSettled (settledAt reply) (inl error)
  | inr response =>
      if negb (ok response)
      then MkSettled (settledAt reply)
             (inl (ExnError ("NWS request failed: " ++ pretty (status response)
                               ++ " " ++ url)%string))
      else json response
  end.

(** The weather service as one aggregation sees it: the reply to each of
    the five kinds of request, by URL. *)
Record Upstream : Type := {
  fetch_points : string -> Settled (HttpResponse NwsPointsResponse);
  fetch_forecast : string -> Settled (HttpResponse NwsForecastResponse);
  fetch_hourly : string -> Settled (HttpResponse NwsHourlyResponse);
  fetch_stations : string -> Settled (HttpResponse NwsStationsResponse);
  fetch_observation : string -> Settled (HttpResponse NwsObservationResponse);
}.

(** ** The payload *)

Record Location : Type := {
  loc_name : string;
  loc_lat : Number;
  loc_lon : Number;
}.

Record Current : Type := {
  temperatureF : option Number;
  feelsLikeF : option Number;
  condition : string;
  humidity : option Number;
  windSpeedMph : option Number;
  windGustMph : option Number;
  cur_windDirection : JsValue string;
  dewPointF : option Number;
  pressureInHg : option Number;
  visibilityMiles : option Number;
  observedAt : option string;
}.

Record DailyEntry : Type := {
  date : string;
  day_name : string;
  highF : option Number;
  lowF : option Number;
  summary : string;
  day_icon : string;
}.

Record HourlyEntry : Type := {
  time : string;
  hour_temperatureF : Number;
  hour_summary : string;
  hour_icon : string;
  precipChance : option Number;
  hour_humidity : option Number;
}.

Record WeatherPayload : Type := {
  location : Location;
  current : Current;
  daily : list DailyEntry;
  hourly : list HourlyEntry;
  updatedAt_forecast : string;
  updatedAt_hourly : string;
}.

(** ** The insertion-ordered [Map] of the daily fold *)

Definition DailyMap : Type := list (string * DailyEntry).

Fixpoint Map_get (m : DailyMap) (k : string) : option DailyEntry :=
  match m with
  | [] => None
  | (k', v) :: m' => if String.eqb k' k then Some v else Map_get m' k
  end.

Definition Map_has (m : DailyMap) (k : string) : bool :=
  match Map_get m k with Some _ => true | None => false end.

(** [set] keeps the position of a key already present and appends a new
    one. *)
Fixpoint Map_set (m : DailyMap) (k : string) (v : DailyEntry) : DailyMap :=
  match m with
  | [] => [(k, v)]
  | (k', v') :: m' =>
      if String.eqb k' k then (k', v) :: m' else (k', v') :: Map_set m' k v
  end.

Definition Map_values (m : DailyMap) : list DailyEntry := map snd m.

Definition Map_keys (m : DailyMap) : list string := map fst m.

(** A string is truthy when it is not empty. *)
Definition truthy (s : string) : bool := negb (String.eqb s "").

(** [a || b] on strings *)
Definition orElse (a b : string) : string := if truthy a then a else b.

(** [xs.filter(Boolean).join(", ")] on optional strings *)
Fixpoint joinTruthy (xs : list (option string)) : string :=
  match xs with
  | [] => ""
  | Some x :: rest =>
      if truthy x
      then (let r := joinTruthy rest in
            if truthy r then x ++ ", " ++ r else x)%string
      else joinTruthy rest
  | None :: rest => joinTruthy rest
  end.

(** [o?.value ?? null] for an optional [{ value: number | null }] *)
Definition valueOrNull (o : option (option Number)) : option Number :=
  match o with
  | Some (Some v) => Some v
  | _ => None
  end.

(** [a ?? b] *)
Definition nullish {A : Type} (a b : option A) : option A :=
  match a with Some _ => a | None => b end.

Section Aggregator.
(** [Number::toString], used by the template literal of the points URL. *)
Variable Number_toString : Number -> string.
(** [formatDateKey]: the [Intl.DateTimeFormat] rendering (year, two-digit
    month and day) in the zone America/New_York of the instant
    [new Date(iso)]; where the text does not parse as a date, [format]
    throws a [RangeError]. *)
Variable formatDateKey : string -> Outcome string.

(** The entry a period opens its day with. *)
Definition freshEntry (p : NwsForecastPeriod) : DailyEntry :=
  {| date := startTime p; day_name := name p;
     highF := None; lowF := None;
     summary := shortForecast p; day_icon := icon p |}.

(** What a period writes into the entry of its day. *)
Definition applyPeriod (entry : DailyEntry) (p : NwsForecastPeriod) : DailyEntry :=
  if isDaytime p
  then {| date := date entry; day_name := day_name entry;
          highF := Some (temperature p); lowF := lowF entry;
          summary := shortForecast p; day_icon := icon p |}
  else {| date := date entry; day_name := day_name entry;
          highF := highF entry; lowF := Some (temperature p);
          summary := orElse (summary entry) (shortForecast p);
          day_icon := day_icon entry |}.

(** The body of the [forEach] callback below its first line, where the
    date key is known; the entry is an object of the map, so writing its
    fields updates the map. *)
Definition placePeriod (dailyMap : DailyMap) (dateKey : string)
    (p : NwsForecastPeriod) : DailyMap :=
  let dailyMap :=
    if negb (Map_has dailyMap dateKey)
    then Map_set dailyMap dateKey (freshEntry p)
    else dailyMap in
  match Map_get dailyMap dateKey with
  | None => dailyMap
  | Some entry => Map_set dailyMap dateKey (applyPeriod entry p)
  end.

(** The [forEach] callback: its first line throws where the start time
    of the period is no date. *)
Definition foldPeriod (dailyMap : DailyMap) (p : NwsForecastPeriod)
    : Outcome DailyMap :=
  await dateKey <- formatDateKey (startTime p) in
  inr (placePeriod dailyMap dateKey p).

(** [periods.forEach(..)]: what the callback throws ends the loop and is
    thrown by [forEach]. *)
Fixpoint forEachPeriod (periods : list NwsForecastPeriod) (dailyMap : DailyMap)
    : Outcome DailyMap :=
  match periods with
  | [] => inr dailyMap
  | p :: rest =>
      await dailyMap <- foldPeriod dailyMap p in
      forEachPeriod rest dailyMap
  end.

Definition foldDaily (periods : list NwsForecastPeriod) : Outcome DailyMap :=
  forEachPeriod periods [].

Definition toHourlyEntry (p : NwsHourlyPeriod) : HourlyEntry :=
  {| time := startTime (period p);
     hour_temperatureF := temperature (period p);
     hour_summary := shortForecast (period p);
     hour_icon := icon (period p);
     precipChance := round (valueOrNull (probabilityOfPrecipitation p)) 0;
     hour_humidity := round (valueOrNull (relativeHumidity p)) 0 |}.

(** The object [getWeatherByCoords] returns, once every reply is in and
    the daily map is filled: [observation] is [null] when no station was
    asked. *)
Definition buildPayload (lat lon : Number) (overrideName : option string)
    (points : NwsPointsResponse) (forecast : NwsForecastResponse)
    (hourly : NwsHourlyResponse)
    (observation : option NwsObservationResponse)
    (dailyMap : DailyMap) : WeatherPayload :=
  let derived :=
    joinTruthy
      [ match relativeLocation points with
        | Some (Some props) => city props | _ => None end;
        match relativeLocation points with
        | Some (Some props) => state props | _ => None end ] in
  let locationName :=
    match overrideName with
    | Some n => orElse n derived
    | None => derived
    end in
  let hourlyPeriods := firstn 48 (hourly_periods hourly) in
  let daily := firstn 7 (Map_values dailyMap) in
  let obs {A} (f : NwsObservationResponse -> option A) : option A :=
    match observation with Some o => f o | None => None end in
  let currentTempF := cToF (obs obs_temperature) in
  let feelsLike :=
    nullish (obs obs_heatIndex)
      (nullish (obs obs_windChill) (obs obs_temperature)) in
  {| location :=
       {| loc_name := orElse locationName "Unknown";
          loc_lat := lat; loc_lon := lon |};
     current :=
       {| temperatureF :=
            nullish currentTempF
              (option_map (fun h => temperature (period h)) (head hourlyPeriods));
          feelsLikeF := cToF feelsLike;
          condition :=
            match observation with
            | Some o => obs_textDescription o
            | None =>
                match head hourlyPeriods with
                | Some h => shortForecast (period h)
                | None => "Current conditions"
                end
            end;
          humidity := round (obs obs_relativeHumidity) 0;
          windSpeedMph := mpsToMph (obs obs_windSpeed);
          windGustMph := mpsToMph (obs obs_windGust);
          cur_windDirection := degreesToCardinal (obs obs_windDirection);
          dewPointF := cToF (obs obs_dewpoint);
          pressureInHg := pascalToInHg (obs obs_barometricPressure);
          visibilityMiles := metersToMiles (obs obs_visibility);
          observedAt := obs (fun o => Some (obs_timestamp o)) |};
     daily := daily;
     hourly := map toHourlyEntry hourlyPeriods;
     updatedAt_forecast := forecast_updated forecast;
     updatedAt_hourly := hourly_updated hourly |}.

Definition pointsUrl (lat lon : Number) : string :=
  (NWS_BASE_URL ++ "/points/" ++ Number_toString lat ++ ","
     ++ Number_toString lon)%string.

Definition observationUrl (stationId : string) : string :=
  (NWS_BASE_URL ++ "/stations/" ++ stationId ++ "/observations/latest")%string.

(** [stations.features?.[0]?.properties?.stationIdentifier] *)
Definition firstStationId (stations : NwsStationsResponse) : option string :=
  option_map stationIdentifier (head (features stations)).

Definition getWeatherByCoords (net : Upstream)
    (lat lon : Number) (overrideName : option string) : Outcome WeatherPayload :=
  await points <- outcome (fetchJson (fetch_points net) (pointsUrl lat lon)) in
  let forecastUrl := forecast points in
  let hourlyUrl := forecastHourly points in
  let stationsUrl := observationStations points in
  await all <-
    Promise_all3 (fetchJson (fetch_forecast net) forecastUrl)
                 (fetchJson (fetch_hourly net) hourlyUrl)
                 (fetchJson (fetch_stations net) stationsUrl) in
  let '(forecast, hourly, stations) := all in
  let stationId := firstStationId stations in
  await observation <-
    match stationId with
    | Some id =>
        if truthy id
        then await o <-
               outcome (fetchJson (fetch_observation net) (observationUrl id)) in
             inr (Some o)
        else inr None
    | None => inr None
    end in
  await dailyMap <- foldDaily (forecast_periods forecast) in
  inr (buildPayload lat lon overrideName points forecast hourly observation
         dailyMap).

Definition getNewYorkWeather (net : Upstream) : Outcome WeatherPayload :=
  getWeatherByCoords net NYC_COORDS_lat NYC_COORDS_lon (Some "New York, NY").

End Aggregator.

End Nws.

Arguments Nws.round : simpl never.
Arguments Nws.cToF : simpl never.
Arguments Nws.mpsToMph : simpl never.
Arguments Nws.metersToMiles : simpl never.
Arguments Nws.pascalToInHg : simpl never.
Arguments Nws.degreesToCardinal : simpl never.

(* ===================================================================== *)
(** * src/lib/weather-pipeline.ts *)
(* ===================================================================== *)

Module Pipeline.
Import JsNum Nws.

Definition CACHE_TTL_MS : Z := 5 * 60 * 1000.
Definition STALE_TTL_MS : Z := 30 * 60 * 1000.

Record CacheEntry : Type := {
  data : WeatherPayload;
  fetchedAt : Z;
}.

(** A promise is referred to by its position in the table of the promises
    created so far. *)
Abbreviation PromiseRef := nat.

Record CacheBucket : Type := {
  cache : option CacheEntry;
  lastGood : option CacheEntry;
  inFlight : option PromiseRef;
}.

(** ** The retry wrapper *)

(** What the wrapper does to the outside, in order. *)
Inductive Effect : Type :=
| Sleep (ms : Z)
| Aggregate (k : nat).   (** the [k]-th call of the aggregator *)

(** How often the aggregator was called. *)
Fixpoint aggregateCalls (effects : list Effect) : nat :=
  match effects with
  | [] => 0
  | Aggregate _ :: rest => S (aggregateCalls rest)
  | Sleep _ :: rest => aggregateCalls rest
  end.

Section Retry.
(** The outcome of the [k]-th call of the aggregator (counted from 0). *)
Variable aggregate : nat -> Outcome WeatherPayload.

(** The [for] loop over the remaining [attempts]; [k] aggregator calls
    were made so far. *)
Fixpoint retryLoop (attempts : list Z) (k : nat) (lastError : Exn)
    : list Effect * Outcome WeatherPayload :=
  match attempts with
  | [] => ([], inl lastError)
  | delay :: rest =>
      let slept := if 0 <? delay then [Sleep delay] else [] in
      match aggregate k with
      | inr payload => (slept ++ [Aggregate k], inr payload)
      | inl error =>
          let '(effects, result) := retryLoop rest (S k) error in
          (slept ++ Aggregate k :: effects, result)
      end
  end.
End Retry.

Section FetchWithRetry.
Variable Number_toString : Number -> string.
Variable formatDateKey : string -> Outcome string.
(** The weather service as the [k]-th attempt finds it. *)
Variable nets : nat -> Upstream.

(** The [try] block: [lat] and [lon] are [undefined] when not passed. *)
Definition attempt (lat lon : option Number) (k : nat) : Outcome WeatherPayload :=
  match lat, lon with
  | Some la, Some lo =>
      getWeatherByCoords Number_toString formatDateKey (nets k) la lo None
  | _, _ => getNewYorkWeather Number_toString formatDateKey (nets k)
  end.

Definition fetchWithRetry (lat lon : option Number)
    : list Effect * Outcome WeatherPayload :=
  retryLoop (attempt lat lon) [0; 300; 800] 0 ExnNull.
End FetchWithRetry.

(** ** Responses *)

Inductive Source : Type := live | cached | stale.

Record WeatherMeta : Type := {
  source : Source;
  meta_fetchedAt : string;
  ageMs : Z;
}.

Record Snapshot : Type := {
  snap_data : WeatherPayload;
  snap_meta : WeatherMeta;
}.

Definition applyOverrideName (d : WeatherPayload) (overrideName : option string)
    : WeatherPayload :=
  match overrideName with
  | Some n =>
      if truthy n
      then {| location := {| loc_name := n;
                             loc_lat := loc_lat (location d);
                             loc_lon := loc_lon (location d) |};
              current := current d;
              daily := daily d;
              hourly := hourly d;
              updatedAt_forecast := updatedAt_forecast d;
              updatedAt_hourly := updatedAt_hourly d |}
      else d
  | None => d
  end.

(** The fetcher handed to [getSnapshotForBucket]: the closure
    [() => fetchWithRetry(lat, lon)], known by the arguments it holds. *)
Definition Fetcher : Type := (option Number * option Number)%type.

(** The chained promise [fetcher().then(..).finally(..)] kept in
    [inFlight]. *)
Record FetchPromise : Type := {
  p_bucket : string;           (** the bucket its callbacks write to *)
  p_fetcher : Fetcher;
  (** how [fetcher()] settled, once it has (on success the [then]
      callback has then stored the payload) *)
  p_outcome : option (Outcome WeatherPayload);
  (** whether the [finally] callback has run, which settles the chain *)
  p_settled : bool;
}.

Inductive RequestStatus : Type :=
| Awaiting (p : PromiseRef)
| Returned (result : Outcome Snapshot).

(** A call of [getSnapshotForBucket]: its arguments, the [now] it read on
    entry, and how far it got. *)
Record Request : Type := {
  req_bucket : string;
  req_overrideName : option string;
  req_now : Z;
  req_status : RequestStatus;
}.

Record State : Type := {
  cacheBuckets : gmap string CacheBucket;
  promises : list FetchPromise;
  requests : list Request;
}.

Definition initial : State :=
  {| cacheBuckets := ∅; promises := []; requests := [] |}.

(** The successive readings of [Date.now()] within one uninterrupted run
    of code. *)
Definition Clock : Type := nat -> Z.

(** The runs of code between two suspension points. *)
Inductive Event : Type :=
(** [getSnapshotForBucket(bucketKey, fetcher, overrideName)] is called
    and runs until it returns or awaits *)
| Call (bucketKey : string) (fetcher : Fetcher) (overrideName : option string)
       (clock : Clock)
(** [fetcher()] of promise [p] resolves: the [then] callback runs *)
| Fulfil (p : PromiseRef) (payload : WeatherPayload) (clock : Clock)
(** [fetcher()] of promise [p] rejects: the [then] callback is skipped *)
| Reject (p : PromiseRef) (error : Exn)
(** the [finally] callback of promise [p] runs *)
| Finally (p : PromiseRef)
(** request [r] continues after its [await] *)
| Resume (r : nat) (clock : Clock).

Definition getBucket (key : string) (buckets : gmap string CacheBucket)
    : CacheBucket * gmap string CacheBucket :=
  match buckets !! key with
  | Some existing => (existing, buckets)
  | None =>
      let bucket := {| cache := None; lastGood := None; inFlight := None |} in
      (bucket, <[key := bucket]> buckets)
  end.

Section Cache.
(** [new Date(ms).toISOString()] *)
Variable toISOString : Z -> string.

Definition buildMeta (src : Source) (fetched : Z) (now : Z) : WeatherMeta :=
  {| source := src; meta_fetchedAt := toISOString fetched; ageMs := now - fetched |}.

Definition freshHit (bucket : CacheBucket) (now : Z) : option CacheEntry :=
  match cache bucket with
  | Some c => if now - fetchedAt c <? CACHE_TTL_MS then Some c else None
  | None => None
  end.

(** [getSnapshotForBucket] from its entry to its first [return] or
    [await]. *)
Definition enter (s : State) (bucketKey : string) (fetcher : Fetcher)
    (overrideName : option string) (clock : Clock) : State :=
  let '(bucket, buckets) := getBucket bucketKey (cacheBuckets s) in
  let now := clock 0%nat in
  let request st :=
    {| req_bucket := bucketKey; req_overrideName := overrideName;
       req_now := now; req_status := st |} in
  match freshHit bucket now with
  | Some c =>
      {| cacheBuckets := buckets;
         promises := promises s;
         requests := requests s ++
           [request (Returned (inr
              {| snap_data := applyOverrideName (data c) overrideName;
                 snap_meta := buildMeta cached (fetchedAt c) (clock 1%nat) |}))] |}
  | None =>
      match inFlight bucket with
      | None =>
          let p := length (promises s) in
          {| cacheBuckets :=
               <[bucketKey := {| cache := cache bucket;
                                 lastGood := lastGood bucket;
                                 inFlight := Some p |}]> buckets;
             promises := promises s ++
               [{| p_bucket := bucketKey; p_fetcher := fetcher;
                   p_outcome := None; p_settled := false |}];
             requests := requests s ++ [request (Awaiting p)] |}
      | Some p =>
          {| cacheBuckets := buckets;
             promises := promises s;
             requests := requests s ++ [request (Awaiting p)] |}
      end
  end.

Definition setOutcome (pr : FetchPromise) (o : Outcome WeatherPayload) : FetchPromise :=
  {| p_bucket := p_bucket pr; p_fetcher := p_fetcher pr;
     p_outcome := Some o; p_settled := p_settled pr |}.

Definition setSettled (pr : FetchPromise) : FetchPromise :=
  {| p_bucket := p_bucket pr; p_fetcher := p_fetcher pr;
     p_outcome := p_outcome pr; p_settled := true |}.

(** The [then] callback of promise [p]. *)
Definition onFulfilled (s : State) (p : PromiseRef) (payload : WeatherPayload)
    (clock : Clock) : option State :=
  pr ← promises s !! p;
  match p_outcome pr with
  | Some _ => None
  | None =>
      bucket ← cacheBuckets s !! p_bucket pr;
      let fetched := clock 0%nat in
      Some {| cacheBuckets :=
                <[p_bucket pr :=
                    {| cache := Some {| data := payload; fetchedAt := fetched |};
                       lastGood := Some {| data := payload; fetchedAt := fetched |};
                       inFlight := inFlight bucket |}]> (cacheBuckets s);
              promises := <[p := setOutcome pr (inr payload)]> (promises s);
              requests := requests s |}
  end.

(** [fetcher()] of promise [p] rejects; no callback of the chain runs
    yet. *)
Definition onRejected (s : State) (p : PromiseRef) (error : Exn) : option State :=
  pr ← promises s !! p;
  match p_outcome pr with
  | Some _ => None
  | None =>
      Some {| cacheBuckets := cacheBuckets s;
              promises := <[p := setOutcome pr (inl error)]> (promises s);
              requests := requests s |}
  end.

(** The [finally] callback of promise [p]. *)
Definition onFinally (s : State) (p : PromiseRef) : option State :=
  pr ← promises s !! p;
  match p_outcome pr, p_settled pr with
  | Some _, false =>
      bucket ← cacheBuckets s !! p_bucket pr;
      Some {| cacheBuckets :=
                <[p_bucket pr :=
                    {| cache := cache bucket; lastGood := lastGood bucket;
                       inFlight := None |}]> (cacheBuckets s);
              promises := <[p := setSettled pr]> (promises s);
              requests := requests s |}
  | _, _ => None
  end.

(** What [getSnapshotForBucket] returns or throws after its [await]. *)
Definition afterAwait (bucket : CacheBucket) (req : Request)
    (o : Outcome WeatherPayload) (clock : Clock) : Outcome Snapshot :=
  match o with
  | inr payload =>
      let '(fetched, now) :=
        match cache bucket with
        | Some c => (fetchedAt c, clock 0%nat)
        | None => (clock 0%nat, clock 1%nat)
        end in
      inr {| snap_data := applyOverrideName payload (req_overrideName req);
             snap_meta := buildMeta live fetched now |}
  | inl error =>
      match nullish (lastGood bucket) (cache bucket) with
      | Some fallback =>
          if req_now req - fetchedAt fallback <? STALE_TTL_MS
          then inr {| snap_data :=
                        applyOverrideName (data fallback) (req_overrideName req);
                      snap_meta :=
                        buildMeta stale (fetchedAt fallback) (clock 0%nat) |}
          else inl error
      | None => inl error
      end
  end.

Definition resume (s : State) (r : nat) (clock : Clock) : option State :=
  req ← requests s !! r;
  match req_status req with
  | Returned _ => None
  | Awaiting p =>
      pr ← promises s !! p;
      if p_settled pr then
        o ← p_outcome pr;
        bucket ← cacheBuckets s !! req_bucket req;
        Some {| cacheBuckets := cacheBuckets s;
                promises := promises s;
                requests :=
                  <[r := {| req_bucket := req_bucket req;
                            req_overrideName := req_overrideName req;
                            req_now := req_now req;
                            req_status := Returned (afterAwait bucket req o clock) |}]>
                    (requests s) |}
      else None
  end.

Definition step (s : State) (ev : Event) : option State :=
  match ev with
  | Call bucketKey fetcher overrideName clock =>
      Some (enter s bucketKey fetcher overrideName clock)
  | Fulfil p payload clock => onFulfilled s p payload clock
  | Reject p error => onRejected s p error
  | Finally p => onFinally s p
  | Resume r clock => resume s r clock
  end.

Fixpoint run (s : State) (trace : list Event) : option State :=
  match trace with
  | [] => Some s
  | ev :: rest => s' ← step s ev; run s' rest
  end.

(** The states the cache can be in. *)
Inductive reachable : State -> Prop :=
| reachable_initial : reachable initial
| reachable_step s ev s' :
    reachable s -> step s ev = Some s' -> reachable s'.

(** The calls of the fetcher made so far on behalf of a bucket. *)
Definition invocations (s : State) (key : string) : nat :=
  length (filter (fun pr => p_bucket pr = key) (promises s)).

End Cache.

(** ** Consistency of the bucket table, the promises and the requests *)

Record consistent (s : State) : Prop := {
  (** the two slots of a bucket hold the same entry *)
  slots_agree : ∀ key b,
    cacheBuckets s !! key = Some b → cache b = lastGood b;
  (** the marker of a bucket names a promise of that bucket whose
      [finally] callback has not run *)
  marker_live : ∀ key b p,
    cacheBuckets s !! key = Some b → inFlight b = Some p →
    ∃ pr, promises s !! p = Some pr ∧ p_bucket pr = key ∧ p_settled pr = false;
  (** a promise whose [finally] callback has not run is the marker of
      its bucket *)
  live_marked : ∀ p pr,
    promises s !! p = Some pr → p_settled pr = false →
    ∃ b, cacheBuckets s !! p_bucket pr = Some b ∧ inFlight b = Some p;
  (** the chain settles with the outcome of the fetcher *)
  settled_outcome : ∀ p pr,
    promises s !! p = Some pr → p_settled pr = true → is_Some (p_outcome pr);
  (** the bucket of a request exists *)
  request_bucket : ∀ r req,
    requests s !! r = Some req → is_Some (cacheBuckets s !! req_bucket req);
  (** a request awaits a promise of its own bucket *)
  request_promise : ∀ r req p,
    requests s !! r = Some req → req_status req = Awaiting p →
    ∃ pr, promises s !! p = Some pr ∧ p_bucket pr = req_bucket req;
}.

(** ** The exported entry points *)

Section EntryPoints.
Variable Number_toString : Number -> string.

Definition coordsBucketKey (lat lon : Number) : string :=
  ("coords:" ++ (toFixed Number_toString lat 3 ++ ","
                   ++ toFixed Number_toString lon 3))%string.

(** [getWeatherSnapshotByCoords(lat, lon, overrideName)], as the call
    of [getSnapshotForBucket] it makes. *)
Definition getWeatherSnapshotByCoords (lat lon : Number)
    (overrideName : option string) (clock : Clock) : Event :=
  Call (coordsBucketKey lat lon) (Some lat, Some lon) overrideName clock.

(** [getWeatherSnapshot()] *)
Definition getWeatherSnapshot (clock : Clock) : Event :=
  Call "default" (None, None) None clock.
End EntryPoints.

End Pipeline.

(* ===================================================================== *)
(** * The subscriber store *)
(* ===================================================================== *)

(** The subscriber store: a JSON file holding the list of subscribers,
    read and rewritten as a whole by every operation.  The calls of [fs]
    are taken to succeed; the file, the random tokens drawn and the clock
    readings taken so far make up the state the operations pass on. *)
Module Subscribers.
Import JsNum Nws.

Definition DEFAULT_TIMEZONE : string := "America/New_York".

(** ["F" | "C"] *)
Inductive Unit : Type := UnitF | UnitC.

Definition DEFAULT_UNIT : Unit := UnitF.

(** [Subscriber["location"]].  A coordinate is a number when it comes
    from a request and may be [null] when it comes from the file. *)
Record SubscriberLocation : Type := {
  sub_name : string;
  sub_lat : option Number;
  sub_lon : option Number;
}.

Record Subscriber : Type := {
  email : string;
  sub_location : option SubscriberLocation;
  sub_unit : Unit;
  timezone : string;
  token : string;
  subscribedAt : string;
  lastSentOn : option string;
}.

(** An element of the array in the file, read at the type [Subscriber]:
    a field is [None] when the element lacks it or holds [null] there. *)
Record StoredSubscriber : Type := {
  stored_email : string;
  stored_location : option SubscriberLocation;
  stored_unit : option Unit;
  stored_timezone : option string;
  stored_token : option string;
  stored_subscribedAt : option string;
  stored_lastSentOn : option string;
}.

(** What [JSON.parse] makes of the file: something that is not an array,
    an array whose first element is a string, read as an array of
    addresses (the first format of the file), or an array, possibly
    empty, of subscriber objects. *)
Inductive Parsed : Type :=
| NotArray
| EmailArray (first : string) (others : list string)
| EntryArray (entries : list StoredSubscriber).

Inductive FileState : Type :=
| Missing                      (** [fs.access] fails *)
| Corrupt (error : Exn)        (** [JSON.parse] throws [error] *)
| Holds (raw : Parsed).

Record Store : Type := {
  file : FileState;
  drawn : nat;       (** how many tokens were generated so far *)
  readings : nat;    (** how often [new Date()] was read so far *)
}.

(** [JSON.parse(JSON.stringify(x))] for a number: a finite number comes
    back as it is, except that minus zero comes back as zero; NaN and
    the infinities are written as [null]. *)
Definition jsonNumber (x : option Number) : option Number :=
  match x with
  | Some (S754_finite s m e) => Some (S754_finite s m e)
  | Some (S754_zero _) => Some (S754_zero false)
  | _ => None
  end.

Definition jsonLocation (l : SubscriberLocation) : SubscriberLocation :=
  {| sub_name := sub_name l;
     sub_lat := jsonNumber (sub_lat l);
     sub_lon := jsonNumber (sub_lon l) |}.

(** The element [JSON.stringify] writes for a subscriber, as it is read
    back. *)
Definition jsonSubscriber (s : Subscriber) : StoredSubscriber :=
  {| stored_email := email s;
     stored_location := jsonLocation <$> sub_location s;
     stored_unit := Some (sub_unit s);
     stored_timezone := Some (timezone s);
     stored_token := Some (token s);
     stored_subscribedAt := Some (subscribedAt s);
     stored_lastSentOn := lastSentOn s |}.

(** [fs.writeFile(FILE_PATH, JSON.stringify(subscribers, null, 2))] *)
Definition written (subscribers : list Subscriber) : FileState :=
  Holds (EntryArray (jsonSubscriber <$> subscribers)).

(** What [addSubscriber] returns. *)
Record SubscribeResult : Type := {
  res_ok : bool;
  res_message : string;
}.

(** The [options] of [addSubscriber]. *)
Record SubscribeOptions : Type := {
  opt_location : option SubscriberLocation;
  opt_unit : option Unit;
  opt_timezone : option string;
}.

Section Store.
(** [String.prototype.trim] and [String.prototype.toLowerCase] *)
Variable String_trim : string -> string.
Variable String_toLowerCase : string -> string.
(** [isEmail]: whether the regular expression
    [/^[^\s@]+@[^\s@]+\.[^\s@]+$/] matches. *)
Variable isEmail : string -> bool.
(** The result of the [k]-th call of
    [crypto.randomBytes(16).toString("hex")]. *)
Variable randomHex : nat -> string.
(** The result of the [k]-th evaluation of [new Date().toISOString()]. *)
Variable isoNow : nat -> string.

Definition normalizeEmail (email : string) : string :=
  String_toLowerCase (String_trim email).

Definition ensureFile (w : Store) : Store :=
  match file w with
  | Missing => {| file := Holds (EntryArray []); drawn := drawn w; readings := readings w |}
  | _ => w
  end.

(** The first branch of [migrate] that maps: one subscriber per address,
    each with a fresh token and the time of its migration. *)
Fixpoint migrateEmails (emails : list string) (k j : nat)
    : list Subscriber * (nat * nat) :=
  match emails with
  | [] => ([], (k, j))
  | e :: rest =>
      let subscriber :=
        {| email := normalizeEmail e; sub_location := None;
           sub_unit := DEFAULT_UNIT; timezone := DEFAULT_TIMEZONE;
           token := randomHex k; subscribedAt := isoNow j;
           lastSentOn := None |} in
      let '(others, counts) := migrateEmails rest (S k) (S j) in
      (subscriber :: others, counts)
  end.

(** [entry.token || generateToken()] *)
Definition tokenOr (t : option string) (k : nat) : string * nat :=
  match t with
  | Some t => if truthy t then (t, k) else (randomHex k, S k)
  | None => (randomHex k, S k)
  end.

(** [entry.subscribedAt ?? new Date().toISOString()] *)
Definition subscribedAtOr (a : option string) (j : nat) : string * nat :=
  match a with
  | Some a => (a, j)
  | None => (isoNow j, S j)
  end.

(** The second branch of [migrate] that maps. *)
Fixpoint migrateEntries (entries : list StoredSubscriber) (k j : nat)
    : list Subscriber * (nat * nat) :=
  match entries with
  | [] => ([], (k, j))
  | entry :: rest =>
      let '(tok, k') := tokenOr (stored_token entry) k in
      let '(at_, j') := subscribedAtOr (stored_subscribedAt entry) j in
      let subscriber :=
        {| email := normalizeEmail (stored_email entry);
           sub_location := stored_location entry;
           sub_unit := default DEFAULT_UNIT (stored_unit entry);
           timezone := default DEFAULT_TIMEZONE (stored_timezone entry);
           token := tok; subscribedAt := at_;
           lastSentOn := stored_lastSentOn entry |} in
      let '(others, counts) := migrateEntries rest k' j' in
      (subscriber :: others, counts)
  end.

(** [migrate(raw)]: the data, the flag [changed], and the counts of the
    tokens and clock readings used. *)
Definition migrate (raw : Parsed) (k j : nat)
    : list Subscriber * bool * (nat * nat) :=
  match raw with
  | NotArray => ([], true, (k, j))
  | EntryArray [] => ([], false, (k, j))
  | EmailArray first others =>
      let '(data, counts) := migrateEmails (first :: others) k j in
      (data, true, counts)
  | EntryArray entries =>
      let '(data, counts) := migrateEntries entries k j in (data, true, counts)
  end.

Definition readAll (w : Store) : Outcome (list Subscriber) * Store :=
  let w := ensureFile w in
  match file w with
  | Missing => (inr [], w)   (* not reached: [ensureFile] has made the file *)
  | Corrupt error => (inl error, w)
  | Holds raw =>
      let '(data, changed, (k, j)) := migrate raw (drawn w) (readings w) in
      (inr data,
       {| file := if changed then written data else file w;
          drawn := k; readings := j |})
  end.

Definition writeAll (subscribers : list Subscriber) (w : Store) : Store :=
  {| file := written subscribers; drawn := drawn w; readings := readings w |}.

(** [options?.location ?? existing.location] and the like *)
Definition optionOf {A : Type} (options : option SubscribeOptions)
    (field : SubscribeOptions -> option A) : option A :=
  match options with Some o => field o | None => None end.

Definition addSubscriber (email_ : string) (options : option SubscribeOptions)
    (w : Store) : Outcome SubscribeResult * Store :=
  let normalized := normalizeEmail email_ in
  if negb (isEmail normalized)
  then (inr {| res_ok := false; res_message := "Invalid email" |}, w)
  else
    match readAll w with
    | (inl error, w) => (inl error, w)
    | (inr subscribers, w) =>
        match list_find (λ entry, email entry = normalized) subscribers with
        | Some (i, existing) =>
            let existing :=
              {| email := email existing;
                 sub_location :=
                   match optionOf options opt_location with
                   | Some l => Some l
                   | None => sub_location existing
                   end;
                 sub_unit := default (sub_unit existing) (optionOf options opt_unit);
                 timezone := default (timezone existing) (optionOf options opt_timezone);
                 token := token existing;
                 subscribedAt := subscribedAt existing;
                 lastSentOn := lastSentOn existing |} in
            (inr {| res_ok := true; res_message := "Already subscribed" |},
             writeAll (<[i := existing]> subscribers) w)
        | None =>
            let subscriber :=
              {| email := normalized;
                 sub_location := optionOf options opt_location;
                 sub_unit := default DEFAULT_UNIT (optionOf options opt_unit);
                 timezone := default DEFAULT_TIMEZONE (optionOf options opt_timezone);
                 token := randomHex (drawn w);
                 subscribedAt := isoNow (readings w);
                 lastSentOn := None |} in
            (inr {| res_ok := true; res_message := "Subscribed" |},
             writeAll (subscribers ++ [subscriber])
               {| file := file w; drawn := S (drawn w); readings := S (readings w) |})
        end
    end.

Definition listSubscribers (w : Store) : Outcome (list Subscriber) * Store :=
  readAll w.

Definition updateSubscriber (subscriber : Subscriber) (w : Store)
    : Outcome bool * Store :=
  match readAll w with
  | (inl error, w) => (inl error, w)
  | (inr subscribers, w) =>
      match list_find (λ entry, email entry = email subscriber) subscribers with
      | None => (inr false, w)
      | Some (index, _) => (inr true, writeAll (<[index := subscriber]> subscribers) w)
      end
  end.

Definition saveSubscribers (subscribers : list Subscriber) (w : Store) : Store :=
  writeAll subscribers w.

Definition removeSubscriberByToken (token_ : string) (w : Store)
    : Outcome bool * Store :=
  match readAll w with
  | (inl error, w) => (inl error, w)
  | (inr subscribers, w) =>
      let filtered := filter (λ entry, token entry ≠ token_) subscribers in
      if (length filtered =? length subscribers)%nat
      then (inr false, w)
      else (inr true, writeAll filtered w)
  end.

End Store.

End Subscribers.

(* ===================================================================== *)
(** * The route handlers that call the cache and the store *)
(* ===================================================================== *)

Module Routes.
Import JsNum Nws Pipeline Subscribers.

(** [Number.isFinite] *)
Definition Number_isFinite (x : Number) : bool :=
  match x with
  | S754_zero _ | S754_finite _ _ _ => true
  | _ => false
  end.

(** ** The weather handler *)

Section WeatherRoute.
Variable Number_toString : Number -> string.
(** [Number.parseFloat] *)
Variable Number_parseFloat : string -> Number.

(** [param ? Number.parseFloat(param) : null] *)
Definition parseParam (param : option string) : option Number :=
  match param with
  | Some p => if truthy p then Some (Number_parseFloat p) else None
  | None => None
  end.

(** The call of the cache the handler makes for the query parameters
    [lat], [lon] and [name], each [null] when absent. *)
Definition weatherCall (latParam lonParam name : option string) (clock : Clock)
    : Event :=
  match parseParam latParam, parseParam lonParam with
  | Some lat, Some lon =>
      if Number_isFinite lat && Number_isFinite lon
      then getWeatherSnapshotByCoords Number_toString lat lon name clock
      else getWeatherSnapshot clock
  | _, _ => getWeatherSnapshot clock
  end.
End WeatherRoute.

Inductive WeatherReply : Type :=
| WeatherJson (snapshot : Snapshot)                 (** status 200 *)
| WeatherError (status : nat) (error : string).

(** What the handler answers once its call has returned or thrown. *)
Definition weatherReply (result : Outcome Snapshot) : WeatherReply :=
  match result with
  | inr snapshot => WeatherJson snapshot
  | inl _ => WeatherError 502 "Unable to fetch weather data"
  end.

(** ** The unsubscribe handler *)

Inductive UnsubscribeReply : Type :=
| Unsubscribed                                      (** [{ ok: true }], status 200 *)
| UnsubscribeError (status : nat) (error : string).

Section UnsubscribeRoute.
Variable String_trim : string -> string.
Variable String_toLowerCase : string -> string.
Variable randomHex : nat -> string.
Variable isoNow : nat -> string.

(** [GET], for the query parameter [token], [null] when absent. *)
Definition unsubscribe (tokenParam : option string) (w : Store)
    : UnsubscribeReply * Store :=
  match tokenParam with
  | None => (UnsubscribeError 400 "Missing token", w)
  | Some token_ =>
      if negb (truthy token_) then (UnsubscribeError 400 "Missing token", w)
      else
        match removeSubscriberByToken String_trim String_toLowerCase
                randomHex isoNow token_ w with
        | (inr removed, w) =>
            if negb removed then (UnsubscribeError 404 "Invalid token", w)
            else (Unsubscribed, w)
        | (inl _, w) => (UnsubscribeError 500 "Unable to unsubscribe", w)
        end
  end.
End UnsubscribeRoute.

(** ** The digest handler *)

Inductive DigestReply : Type :=
| DigestSent (sent : nat)                           (** [{ ok: true, sent }] *)
| DigestError (status : nat) (error : string).

Section DigestRoute.
Variable String_trim : string -> string.
Variable String_toLowerCase : string -> string.
Variable randomHex : nat -> string.
Variable isoNow : nat -> string.
(** [getLocalHour] and [getLocalDate]: the hour (0 to 23) and the date
    ([en-CA]: year, month, day) that [Intl.DateTimeFormat] gives an
    instant in a time zone. *)
Variable getLocalHour : Z -> string -> Z.
Variable getLocalDate : Z -> string -> string.
(** How the delivery to the [i]-th subscriber due settles: the snapshot
    is fetched, the message rendered and [sendEmail] awaited. *)
Variable deliver : nat -> Subscriber -> Outcome ().

Definition isDueNow (subscriber : Subscriber) (now : Z) : bool :=
  let localHour := getLocalHour now (timezone subscriber) in
  let localDate := getLocalDate now (timezone subscriber) in
  (localHour =? 7) && negb (bool_decide (lastSentOn subscriber = Some localDate)).

(** The addresses of the deliveries that were fulfilled. *)
Definition fulfilled (results : list (Outcome string)) : list string :=
  omap (λ result, match result with inr value => Some value | inl _ => None end)
       results.

Definition markSent (sent : list string) (now : Z) (subscriber : Subscriber)
    : Subscriber :=
  if bool_decide (email subscriber ∈ sent)
  then {| email := email subscriber;
          sub_location := sub_location subscriber;
          sub_unit := sub_unit subscriber;
          timezone := timezone subscriber;
          token := token subscriber;
          subscribedAt := subscribedAt subscriber;
          lastSentOn := Some (getLocalDate now (timezone subscriber)) |}
  else subscriber.

(** [POST], for the query parameter [force] and the instant [now] read
    by [new Date()]. *)
Definition digest (forceParam : option string) (now : Z) (w : Store)
    : DigestReply * Store :=
  match listSubscribers String_trim String_toLowerCase randomHex isoNow w with
  | (inl _, w) => (DigestError 500 "Failed to send", w)
  | (inr subscribers, w) =>
      if (length subscribers =? 0)%nat then (DigestSent 0, w)
      else
        let force := bool_decide (forceParam = Some "1") in
        let dueSubscribers :=
          if force then subscribers
          else filter (λ subscriber, isDueNow subscriber now = true) subscribers in
        if (length dueSubscribers =? 0)%nat then (DigestSent 0, w)
        else
          let results :=
            imap (λ i subscriber,
                    await _ <- deliver i subscriber in inr (email subscriber))
                 dueSubscribers in
          let sentSet := remove_dups (fulfilled results) in
          let w :=
            if (0 <? length sentSet)%nat
            then saveSubscribers (markSent sentSet now <$> subscribers) w
            else w in
          (DigestSent (length sentSet), w)
  end.
End DigestRoute.

End Routes.

(* ===================================================================== *)
(** * Notions used by the properties below *)
(* ===================================================================== *)

Module Notions.
Import JsNum Nws Pipeline.

(** The date key of a start time that has one. *)
Definition keyOf (formatDateKey : string -> Outcome string) (iso : string)
    : string :=
  match formatDateKey iso with
  | inr dateKey => dateKey
  | inl _ => ""
  end.

(** The period at place [a] opens its day: no period before it is of
    that day. *)
Definition opens {K : Type} (day : NwsForecastPeriod -> K)
    (periods : list NwsForecastPeriod) (a : nat) (p : NwsForecastPeriod) : Prop :=
  periods !! a = Some p ∧
  ∀ a' p', periods !! a' = Some p' → (a' < a)%nat → day p' ≠ day p.

(** The daily map after periods whose date keys [key] gives have been
    placed in it, one after the other. *)
Definition placeAll (key : string -> string) (periods : list NwsForecastPeriod)
    (dailyMap : DailyMap) : DailyMap :=
  fold_left (fun m p => placePeriod m (key (startTime p)) p) periods dailyMap.

(** The digits [placePoint] sets the point in: the digits of the number,
    with zeros put before them until one digit is left before the
    point. *)
Definition padded (f : nat) (n : Z) : string :=
  if (String.length (digits n) <=? f)%nat
  then (zeros (f + 1 - String.length (digits n)) ++ digits n)%string
  else digits n.

(** Where the entries of the buckets come from: the payload of an entry
    is the payload a fetch of that bucket resolved with, and a bucket one
    of whose fetches has resolved holds an entry. *)
Record provenance (s : State) : Prop := {
  entry_fetched : ∀ key b e,
    cacheBuckets s !! key = Some b → cache b = Some e →
    ∃ p pr, promises s !! p = Some pr ∧ p_bucket pr = key ∧
            p_outcome pr = Some (inr (data e));
  fetched_entry : ∀ p pr payload,
    promises s !! p = Some pr → p_outcome pr = Some (inr payload) →
    ∃ b e, cacheBuckets s !! p_bucket pr = Some b ∧ cache b = Some e;
}.

End Notions.

(* ===================================================================== *)
(** * Concrete inputs *)
(* ===================================================================== *)

(** The inputs at which the properties below are run. *)
Module Samples.
Import JsNum Nws Pipeline.

(** Stand-ins for the three renderings the model takes as given.  The
    sample service answers every URL alike and the sample coordinates are
    rendered by [toFixed] itself, so no run below depends on the first;
    the second is right for instants written with the New York offset
    and for texts that are no date at all. *)
Definition sampleToString (x : Number) : string := toFixed (fun _ => "NaN") x 4.

Definition sampleDateKey (iso : string) : Outcome string :=
  if (String.eqb (substring 4 1 iso) "-" && String.eqb (substring 7 1 iso) "-"
      && String.eqb (substring 10 1 iso) "T")%bool
  then inr (substring 5 2 iso ++ "/" ++ substring 8 2 iso ++ "/"
              ++ substring 0 4 iso)%string
  else inl (ExnError "Invalid time value").

Definition sampleISO (ms : Z) : string := pretty ms.

Definition dayPeriod : NwsForecastPeriod :=
  {| name := "Monday"; startTime := "2024-05-06T06:00:00-04:00";
     endTime := "2024-05-06T18:00:00-04:00"; isDaytime := true;
     temperature := ofZ 80; temperatureUnit := "F"; windSpeed := "5 mph";
     windDirection := "SW"; shortForecast := "Sunny";
     detailedForecast := "Sunny, with a high near 80."; icon := "day.png" |}.

Definition nightPeriod : NwsForecastPeriod :=
  {| name := "Monday Night"; startTime := "2024-05-06T18:00:00-04:00";
     endTime := "2024-05-07T06:00:00-04:00"; isDaytime := false;
     temperature := ofZ 60; temperatureUnit := "F"; windSpeed := "3 mph";
     windDirection := "W"; shortForecast := "Clear";
     detailedForecast := "Clear, with a low around 60."; icon := "night.png" |}.

Definition samplePoints : NwsPointsResponse :=
  {| forecast := "https://api.weather.gov/gridpoints/OKX/33,35/forecast";
     forecastHourly := "https://api.weather.gov/gridpoints/OKX/33,35/forecast/hourly";
     observationStations := "https://api.weather.gov/gridpoints/OKX/33,35/stations";
     relativeLocation := Some (Some {| city := Some "Hoboken"; state := Some "NJ" |}) |}.

Definition sampleForecast : NwsForecastResponse :=
  {| forecast_periods := [dayPeriod; nightPeriod];
     forecast_updated := "2024-05-06T05:00:00+00:00" |}.

Definition sampleHourly : NwsHourlyResponse :=
  {| hourly_periods :=
       [{| period := dayPeriod; probabilityOfPrecipitation := Some (Some (ofZ 10));
           relativeHumidity := None |}];
     hourly_updated := "2024-05-06T05:30:00+00:00" |}.

Definition noStations : NwsStationsResponse := {| features := [] |}.

Definition oneStation : NwsStationsResponse :=
  {| features := [{| stationIdentifier := "KNYC"; station_name := "Central Park" |}] |}.

(** A service that answers every URL with status 200 and the given body,
    read one instant after the reply. *)
Definition answers {T : Type} (body : T) (url : string) : Settled (HttpResponse T) :=
  MkSettled 0 (inr {| ok := true; status := 200; json := MkSettled 1 (inr body) |}).

(** A service that answers every URL with status 500, at the given
    instant. *)
Definition refusesAt {T : Type} (t : nat) (url : string) : Settled (HttpResponse T) :=
  MkSettled t (inr {| ok := false; status := 500;
                      json := MkSettled (S t)
                                (inl (ExnError "Unexpected end of JSON input")) |}).

Definition refuses {T : Type} (url : string) : Settled (HttpResponse T) :=
  refusesAt 0 url.

(** A service that answers every URL at once with status 200 and a body
    that turns out, at the given instant, not to be JSON. *)
Definition garbles {T : Type} (t : nat) (url : string) : Settled (HttpResponse T) :=
  MkSettled 0 (inr {| ok := true; status := 200;
                      json := MkSettled t
                                (inl (ExnError "Unexpected token < in JSON at position 0")) |}).

(** A service that cannot be reached. *)
Definition unreachable {T : Type} (url : string) : Settled (HttpResponse T) :=
  MkSettled 0 (inl (ExnError "fetch failed")).

(** Everything answers; no station is listed. *)
Definition netNoStation : Upstream :=
  {| fetch_points := answers samplePoints;
     fetch_forecast := answers sampleForecast;
     fetch_hourly := answers sampleHourly;
     fetch_stations := answers noStations;
     fetch_observation := refuses |}.

(** Everything answers but the latest observation of the one station. *)
Definition netObservationDown : Upstream :=
  {| fetch_points := answers samplePoints;
     fetch_forecast := answers sampleForecast;
     fetch_hourly := answers sampleHourly;
     fetch_stations := answers oneStation;
     fetch_observation := refuses |}.

Definition netDown : Upstream :=
  {| fetch_points := unreachable;
     fetch_forecast := unreachable;
     fetch_hourly := unreachable;
     fetch_stations := unreachable;
     fetch_observation := unreachable |}.

(** The service is down for the first two attempts and up for the third. *)
Definition netsUpAtThird (k : nat) : Upstream :=
  if (k <? 2)%nat then netDown else netNoStation.

(** The daily forecast answers with a body that is not JSON, found out
    at instant 3; the hourly forecast answers with status 500 at
    instant 1. *)
Definition netGarbled : Upstream :=
  {| fetch_points := answers samplePoints;
     fetch_forecast := garbles 3;
     fetch_hourly := refusesAt 1;
     fetch_stations := answers noStations;
     fetch_observation := refuses |}.

(** A period whose start time is no date. *)
Definition undatedPeriod : NwsForecastPeriod :=
  {| name := "Tuesday"; startTime := "soon";
     endTime := "2024-05-07T18:00:00-04:00"; isDaytime := true;
     temperature := ofZ 75; temperatureUnit := "F"; windSpeed := "8 mph";
     windDirection := "S"; shortForecast := "Cloudy";
     detailedForecast := "Cloudy, with a high near 75."; icon := "cloud.png" |}.

Definition undatedForecast : NwsForecastResponse :=
  {| forecast_periods := [dayPeriod; undatedPeriod];
     forecast_updated := "2024-05-06T05:00:00+00:00" |}.

(** Everything answers and no station is listed; the second period of
    the daily forecast has a start time that is no date. *)
Definition netUndated : Upstream :=
  {| fetch_points := answers samplePoints;
     fetch_forecast := answers undatedForecast;
     fetch_hourly := answers sampleHourly;
     fetch_stations := answers noStations;
     fetch_observation := refuses |}.

(** What the daily fold makes of [sampleForecast]. *)
Definition sampleDaily : DailyMap :=
  [ ("05/06/2024",
     {| date := "2024-05-06T06:00:00-04:00"; day_name := "Monday";
        highF := Some (ofZ 80); lowF := Some (ofZ 60);
        summary := "Sunny"; day_icon := "day.png" |}) ].

Definition samplePayload : WeatherPayload :=
  buildPayload NYC_COORDS_lat NYC_COORDS_lon (Some "New York, NY")
    samplePoints sampleForecast sampleHourly None sampleDaily.

(** A forecast of two days, and what the daily fold makes of it. *)
Definition nextDayPeriod : NwsForecastPeriod :=
  {| name := "Tuesday"; startTime := "2024-05-07T06:00:00-04:00";
     endTime := "2024-05-07T18:00:00-04:00"; isDaytime := true;
     temperature := ofZ 75; temperatureUnit := "F"; windSpeed := "8 mph";
     windDirection := "S"; shortForecast := "Cloudy";
     detailedForecast := "Cloudy, with a high near 75."; icon := "cloud.png" |}.

Definition twoDayForecast : NwsForecastResponse :=
  {| forecast_periods := [dayPeriod; nightPeriod; nextDayPeriod];
     forecast_updated := "2024-05-06T05:00:00+00:00" |}.

Definition twoDays : DailyMap :=
  [ ("05/06/2024",
     {| date := "2024-05-06T06:00:00-04:00"; day_name := "Monday";
        highF := Some (ofZ 80); lowF := Some (ofZ 60);
        summary := "Sunny"; day_icon := "day.png" |});
    ("05/07/2024",
     {| date := "2024-05-07T06:00:00-04:00"; day_name := "Tuesday";
        highF := Some (ofZ 75); lowF := None;
        summary := "Cloudy"; day_icon := "cloud.png" |}) ].

(** The entry and the bucket the first fetch below leaves behind. *)
Definition fetchedEntry : CacheEntry :=
  {| data := samplePayload; fetchedAt := 2000 |}.

Definition fetchedBucket : CacheBucket :=
  {| cache := Some fetchedEntry; lastGood := Some fetchedEntry; inFlight := None |}.

(** A clock that reads [t] throughout one run of code. *)
Definition reads (t : Z) : Clock := fun _ => t.

(** A first request fetches and is answered. *)
Definition fetchedTrace : list Event :=
  [ Call "default" (None, None) None (reads 1000);
    Fulfil 0 samplePayload (reads 2000);
    Finally 0;
    Resume 0 (reads 2001) ].

(** Ten minutes later a second request fetches again, and that fetch
    fails. *)
Definition failedRefetchTrace : list Event :=
  fetchedTrace ++
  [ Call "default" (None, None) None (reads 602000);
    Reject 1 (ExnError "fetch failed");
    Finally 1 ].

Definition stateOf (trace : list Event) : State :=
  default initial (run sampleISO initial trace).

Import Subscribers Routes.

(** A first request made and waiting for its fetch. *)
Definition calledTrace : list Event :=
  [ Call "default" (None, None) None (reads 1000) ].

(** Its fetch has resolved and run its callbacks; the request has not
    continued yet. *)
Definition settledTrace : list Event :=
  calledTrace ++ [ Fulfil 0 samplePayload (reads 2000); Finally 0 ].

(** Meanwhile another place is asked for; then the fetch of the first
    request resolves and runs its callbacks. *)
Definition meanwhileTrace : list Event :=
  [ Call "coords:40.713,-74.006" (Some NYC_COORDS_lat, Some NYC_COORDS_lon) None
      (reads 1500);
    Fulfil 0 samplePayload (reads 2000);
    Finally 0 ].

(** The fetch the first request started, before it settles. *)
Definition startedPromise : FetchPromise :=
  {| p_bucket := "default"; p_fetcher := (None, None);
     p_outcome := None; p_settled := false |}.

Definition waitingRequest : Request :=
  {| req_bucket := "default"; req_overrideName := None; req_now := 1000;
     req_status := Awaiting 0 |}.

Definition settledPromise : FetchPromise :=
  {| p_bucket := "default"; p_fetcher := (None, None);
     p_outcome := Some (inr samplePayload); p_settled := true |}.

(** The first request of [fetchedTrace], once answered. *)
Definition answeredRequest : Request :=
  {| req_bucket := "default"; req_overrideName := None; req_now := 1000;
     req_status := Returned (inr
       {| snap_data := samplePayload;
          snap_meta := {| source := live; meta_fetchedAt := sampleISO 2000;
                          ageMs := 2001 - 2000 |} |}) |}.

(** Stand-ins for what the subscriber store takes as given.  The sample
    addresses are in lower case with nothing around them, so trimming and
    lowering leave them as they are, and the regular expression of
    [isEmail] accepts those of them that hold an at sign. *)
Definition sampleTrim (s : string) : string := s.

Definition sampleLower (s : string) : string := s.

Definition sampleIsEmail (s : string) : bool :=
  match index 0 "@" s with Some _ => true | None => false end.

Definition sampleHex (k : nat) : string :=
  ("5f3a9c0e7b1d4f6a8c2e0b9d7f1a3c5" ++ pretty k)%string.

Definition sampleNow (k : nat) : string :=
  ("2024-05-06T11:00:0" ++ pretty k ++ ".000Z")%string.

(** A file in the first format, two addresses. *)
Definition legacyStore : Store :=
  {| file := Holds (EmailArray "ada@example.org" ["bob@example.org"]);
     drawn := 0; readings := 0 |}.

Definition ada : Subscriber :=
  {| email := "ada@example.org"; sub_location := None; sub_unit := UnitF;
     timezone := "America/New_York"; token := sampleHex 0;
     subscribedAt := sampleNow 0; lastSentOn := None |}.

Definition bob : Subscriber :=
  {| email := "bob@example.org"; sub_location := None; sub_unit := UnitF;
     timezone := "America/New_York"; token := sampleHex 1;
     subscribedAt := sampleNow 1; lastSentOn := None |}.

Definition carol : Subscriber :=
  {| email := "carol@example.org"; sub_location := None; sub_unit := UnitF;
     timezone := "America/New_York"; token := sampleHex 2;
     subscribedAt := sampleNow 2; lastSentOn := None |}.

(** The store once that file was read, and once a third address was
    added. *)
Definition migratedStore : Store :=
  {| file := written [ada; bob]; drawn := 2; readings := 2 |}.

Definition carolStore : Store :=
  {| file := written [ada; bob; carol]; drawn := 3; readings := 3 |}.

(** Stand-ins for the digest: it is seven o'clock on 6 May everywhere,
    and only the first delivery goes through. *)
Definition sampleHour (now : Z) (timeZone : string) : Z := 7.

Definition sampleDate (now : Z) (timeZone : string) : string := "2024-05-06".

Definition deliverFirst (i : nat) (subscriber : Subscriber) : Outcome () :=
  if (i =? 0)%nat then inr ()
  else inl (ExnError "Email send failed: rate limit exceeded").

(** A stand-in for [Number.parseFloat], right for the three numerals
    below and for texts that begin with no numeral. *)
Definition sampleParseFloat (s : string) : Number :=
  if String.eqb s "40.7128" then ofDecimal 407128 4
  else if String.eqb s "40.7131" then ofDecimal 407131 4
  else if String.eqb s "-74.006" then ofDecimal (-74006) 3
  else S754_nan.

End Samples.

(* ===================================================================== *)
(** * Properties of the snapshot cache *)
(* ===================================================================== *)

Section CacheFacts.
Import JsNum Nws Pipeline.
Variable toISOString : Z -> string.

Abbreviation step := (Pipeline.step toISOString).
Abbreviation enter := (Pipeline.enter toISOString).
Abbreviation reachable := (Pipeline.reachable toISOString).

Lemma getBucket_spec key (m : gmap string CacheBucket) :
  (∃ b, m !! key = Some b ∧ getBucket key m = (b, m)) ∨
  (m !! key = None ∧
   getBucket key m =
     ({| cache := None; lastGood := None; inFlight := None |},
      <[key := {| cache := None; lastGood := None; inFlight := None |}]> m)).
Proof.
  unfold getBucket. destruct (m !! key) as [b|] eqn:E; [left; eauto | right; auto].
Qed.

Lemma freshHit_Some b now c :
  freshHit b now = Some c ↔ cache b = Some c ∧ now - fetchedAt c < CACHE_TTL_MS.
Proof.
  unfold freshHit.
  destruct (cache b) as [c'|]; [|split; [discriminate | intros [? _]; discriminate]].
  destruct (Z.ltb_spec (now - fetchedAt c') CACHE_TTL_MS); split.
  - intros [= <-]. auto.
  - intros [[= <-] _]. reflexivity.
  - discriminate.
  - intros [[= <-] ?]. lia.
Qed.

Lemma consistent_initial : consistent initial.
Proof.
  split; simpl; intros *; rewrite ?lookup_empty, ?lookup_nil; discriminate.
Qed.

(** The three shapes a call of [getSnapshotForBucket] can take. *)
Lemma enter_cases s key f o clock :
  (∃ b c, cacheBuckets s !! key = Some b ∧ freshHit b (clock 0%nat) = Some c ∧
     enter s key f o clock =
       {| cacheBuckets := cacheBuckets s; promises := promises s;
          requests := requests s ++
            [{| req_bucket := key; req_overrideName := o; req_now := clock 0%nat;
                req_status := Returned (inr
                  {| snap_data := applyOverrideName (data c) o;
                     snap_meta := buildMeta toISOString cached (fetchedAt c) (clock 1%nat) |}) |}] |}) ∨
  (∃ b p, cacheBuckets s !! key = Some b ∧ freshHit b (clock 0%nat) = None ∧
     inFlight b = Some p ∧
     enter s key f o clock =
       {| cacheBuckets := cacheBuckets s; promises := promises s;
          requests := requests s ++
            [{| req_bucket := key; req_overrideName := o; req_now := clock 0%nat;
                req_status := Awaiting p |}] |}) ∨
  (∃ b, (cacheBuckets s !! key = Some b ∨
         cacheBuckets s !! key = None ∧
         b = {| cache := None; lastGood := None; inFlight := None |}) ∧
     freshHit b (clock 0%nat) = None ∧ inFlight b = None ∧
     enter s key f o clock =
       {| cacheBuckets :=
            <[key := {| cache := cache b; lastGood := lastGood b;
                        inFlight := Some (length (promises s)) |}]> (cacheBuckets s);
          promises := promises s ++
            [{| p_bucket := key; p_fetcher := f; p_outcome := None;
                p_settled := false |}];
          requests := requests s ++
            [{| req_bucket := key; req_overrideName := o; req_now := clock 0%nat;
                req_status := Awaiting (length (promises s)) |}] |}).
Proof.
  unfold Pipeline.enter.
  destruct (getBucket_spec key (cacheBuckets s)) as [(b & Hb & ->) | (Hb & ->)].
  - destruct (freshHit b (clock 0%nat)) as [c|] eqn:Hf.
    + left. eauto 6.
    + destruct (inFlight b) as [p|] eqn:Hi.
      * right; left. eauto 8.
      * right; right. exists b. eauto 8.
  - right; right. eexists. split; [right; eauto|]. cbn.
    repeat split. by rewrite insert_insert_eq.
Qed.

Lemma consistent_enter s key f o clock :
  consistent s → consistent (enter s key f o clock).
Proof.
  intros [Hag Hml Hlm Hso Hrb Hrp].
  destruct (enter_cases s key f o clock)
    as [(b & c & Hb & Hf & ->) | [(b & p & Hb & Hf & Hi & ->) | (b & Hb & Hf & Hi & ->)]].
  - (* served from the cache *)
    split; simpl; auto.
    + intros r req [Hr | (_ & Hr)]%lookup_app_Some; [eauto|].
      apply list_lookup_singleton_Some in Hr as [_ <-]. simpl. eauto.
    + intros r req q [Hr | (_ & Hr)]%lookup_app_Some; [eauto|].
      apply list_lookup_singleton_Some in Hr as [_ <-]. discriminate.
  - (* joins the fetch in flight *)
    split; simpl; auto.
    + intros r req [Hr | (_ & Hr)]%lookup_app_Some; [eauto|].
      apply list_lookup_singleton_Some in Hr as [_ <-]. simpl. eauto.
    + intros r req q [Hr | (_ & Hr)]%lookup_app_Some; [eauto|].
      apply list_lookup_singleton_Some in Hr as [_ <-]. simpl. intros [= <-].
      destruct (Hml _ _ _ Hb Hi) as (pr & ? & ? & _). eauto.
  - (* starts a fetch *)
    assert (Hfree : ∀ q pr, promises s !! q = Some pr → p_settled pr = false →
                            p_bucket pr ≠ key).
    { intros q pr Hq Hu E. destruct (Hlm _ _ Hq Hu) as (b' & Hb' & Hi').
      rewrite E in Hb'. destruct Hb as [Hb | [Hb _]]; congruence. }
    assert (Hsame : cache b = lastGood b).
    { destruct Hb as [Hb | [_ ->]]; [eauto | reflexivity]. }
    split; simpl.
    + intros k b' Hk. destruct (decide (key = k)) as [<- | Hne].
      * rewrite lookup_insert_eq in Hk. by injection Hk as <-.
      * rewrite lookup_insert_ne in Hk by done. eauto.
    + intros k b' q Hk Hq. destruct (decide (key = k)) as [<- | Hne].
      * rewrite lookup_insert_eq in Hk. injection Hk as <-. simpl in Hq.
        injection Hq as <-. eexists.
        split; [rewrite lookup_app_r by lia; by rewrite Nat.sub_diag | done].
      * rewrite lookup_insert_ne in Hk by done.
        destruct (Hml _ _ _ Hk Hq) as (pr & Hp & ? & ?).
        exists pr. split; [|done]. by apply lookup_app_l_Some.
    + intros q pr [Hq | (Hlen & Hq)]%lookup_app_Some Hu.
      * rewrite lookup_insert_ne by (intros E; eapply Hfree; eauto). eauto.
      * apply list_lookup_singleton_Some in Hq as [Hz <-]. simpl.
        rewrite lookup_insert_eq. eexists. split; [reflexivity|]. simpl.
        f_equal. lia.
    + intros q pr [Hq | (_ & Hq)]%lookup_app_Some; [eauto|].
      apply list_lookup_singleton_Some in Hq as [_ <-]. discriminate.
    + intros r req [Hr | (_ & Hr)]%lookup_app_Some.
      * destruct (decide (key = req_bucket req)) as [<- | Hne].
        -- rewrite lookup_insert_eq. eauto.
        -- rewrite lookup_insert_ne by done. eauto.
      * apply list_lookup_singleton_Some in Hr as [_ <-]. simpl.
        rewrite lookup_insert_eq. eauto.
    + intros r req q [Hr | (_ & Hr)]%lookup_app_Some Hst.
      * destruct (Hrp _ _ _ Hr Hst) as (pr & ? & ?). exists pr.
        split; [by apply lookup_app_l_Some | done].
      * apply list_lookup_singleton_Some in Hr as [_ <-]. simpl in *.
        injection Hst as <-. eexists.
        split; [rewrite lookup_app_r by lia; by rewrite Nat.sub_diag | done].
Qed.

Lemma onFulfilled_Some s p payload clock s' :
  onFulfilled s p payload clock = Some s' ↔
  ∃ pr b, promises s !! p = Some pr ∧ p_outcome pr = None ∧
          cacheBuckets s !! p_bucket pr = Some b ∧
          s' = {| cacheBuckets :=
                    <[p_bucket pr :=
                        {| cache := Some {| data := payload; fetchedAt := clock 0%nat |};
                           lastGood := Some {| data := payload; fetchedAt := clock 0%nat |};
                           inFlight := inFlight b |}]> (cacheBuckets s);
                  promises := <[p := setOutcome pr (inr payload)]> (promises s);
                  requests := requests s |}.
Proof.
  unfold onFulfilled. split.
  - destruct (promises s !! p) as [pr|]; [simpl | discriminate].
    destruct (p_outcome pr) eqn:Ho; [discriminate|].
    destruct (cacheBuckets s !! p_bucket pr) as [b|] eqn:Hb; [simpl | discriminate].
    intros [= <-]. by exists pr, b.
  - intros (pr & b & -> & Ho & Hb & ->). simpl. rewrite Ho, Hb. reflexivity.
Qed.

Lemma onRejected_Some s p error s' :
  onRejected s p error = Some s' ↔
  ∃ pr, promises s !! p = Some pr ∧ p_outcome pr = None ∧
        s' = {| cacheBuckets := cacheBuckets s;
                promises := <[p := setOutcome pr (inl error)]> (promises s);
                requests := requests s |}.
Proof.
  unfold onRejected. split.
  - destruct (promises s !! p) as [pr|]; [simpl | discriminate].
    destruct (p_outcome pr) eqn:Ho; [discriminate|].
    intros [= <-]. eauto.
  - intros (pr & -> & Ho & ->). simpl. rewrite Ho. reflexivity.
Qed.

Lemma onFinally_Some s p s' :
  onFinally s p = Some s' ↔
  ∃ pr b, promises s !! p = Some pr ∧ is_Some (p_outcome pr) ∧ p_settled pr = false ∧
          cacheBuckets s !! p_bucket pr = Some b ∧
          s' = {| cacheBuckets :=
                    <[p_bucket pr :=
                        {| cache := cache b; lastGood := lastGood b;
                           inFlight := None |}]> (cacheBuckets s);
                  promises := <[p := setSettled pr]> (promises s);
                  requests := requests s |}.
Proof.
  unfold onFinally. split.
  - destruct (promises s !! p) as [pr|]; [simpl | discriminate].
    destruct (p_outcome pr) eqn:Ho; [|discriminate].
    destruct (p_settled pr) eqn:Hs; [discriminate|].
    destruct (cacheBuckets s !! p_bucket pr) as [b|] eqn:Hb; [simpl | discriminate].
    intros [= <-]. exists pr, b. by rewrite Ho.
  - intros (pr & b & -> & [o Ho] & Hs & Hb & ->). simpl. rewrite Ho, Hs, Hb.
    reflexivity.
Qed.

Lemma resume_Some s r clock s' :
  resume toISOString s r clock = Some s' ↔
  ∃ req p pr o b, requests s !! r = Some req ∧ req_status req = Awaiting p ∧
          promises s !! p = Some pr ∧ p_settled pr = true ∧ p_outcome pr = Some o ∧
          cacheBuckets s !! req_bucket req = Some b ∧
          s' = {| cacheBuckets := cacheBuckets s;
                  promises := promises s;
                  requests :=
                    <[r := {| req_bucket := req_bucket req;
                              req_overrideName := req_overrideName req;
                              req_now := req_now req;
                              req_status :=
                                Returned (afterAwait toISOString b req o clock) |}]>
                      (requests s) |}.
Proof.
  unfold resume. split.
  - destruct (requests s !! r) as [req|]; [simpl | discriminate].
    destruct (req_status req) as [p|] eqn:Hst; [|discriminate].
    destruct (promises s !! p) as [pr|] eqn:Hp; [simpl | discriminate].
    destruct (p_settled pr) eqn:Hs; [|discriminate].
    destruct (p_outcome pr) as [o|] eqn:Ho; [simpl | discriminate].
    destruct (cacheBuckets s !! req_bucket req) as [b|] eqn:Hb; [simpl | discriminate].
    intros [= <-]. exists req, p, pr, o, b. repeat split; auto.
  - intros (req & p & pr & o & b & -> & Hst & Hp & Hs & Ho & Hb & ->). simpl.
    rewrite Hst, Hp. simpl. rewrite Hs, Ho. simpl. rewrite Hb. reflexivity.
Qed.

(** Two look-ups of one place find the same thing. *)
Ltac same_lookup :=
  match goal with
  | H1 : ?a = Some ?x, H2 : ?a = Some ?y |- _ =>
      rewrite H1 in H2; injection H2 as ?; subst
  end.

(** Looking up a table of promises after one of them was replaced. *)
Lemma lookup_replaced (l : list FetchPromise) p pr' q prq' :
  <[p := pr']> l !! q = Some prq' →
  (q = p ∧ prq' = pr' ∧ is_Some (l !! p)) ∨ (q ≠ p ∧ l !! q = Some prq').
Proof.
  intros [(-> & -> & Hlt) | (Hne & Hq)]%list_lookup_insert_Some.
  - left. repeat split. by apply lookup_lt_is_Some.
  - right. split; [congruence | done].
Qed.

Lemma replaced_lookup (l : list FetchPromise) p pr' q prq :
  l !! q = Some prq →
  <[p := pr']> l !! q = Some (if decide (q = p) then pr' else prq).
Proof.
  intros Hq. destruct (decide (q = p)) as [-> | Hne].
  - apply list_lookup_insert_eq. by eapply lookup_lt_Some.
  - by rewrite list_lookup_insert_ne.
Qed.

(** Recording how the fetcher settled keeps the state consistent. *)
Lemma consistent_outcome s p pr o :
  consistent s → promises s !! p = Some pr →
  consistent {| cacheBuckets := cacheBuckets s;
                promises := <[p := setOutcome pr o]> (promises s);
                requests := requests s |}.
Proof.
  intros [Hag Hml Hlm Hso Hrb Hrp] Hp. split; simpl; auto.
  - intros k b q Hk Hq. destruct (Hml _ _ _ Hk Hq) as (prq & Hprq & Hb & Hu).
    eexists. split; [by apply replaced_lookup|].
    case_decide; subst; simpl; [|done]. by same_lookup.
  - intros q prq' [(-> & -> & _) | (Hne & Hq)]%lookup_replaced; simpl; eauto.
  - intros q prq' [(-> & -> & _) | (Hne & Hq)]%lookup_replaced; simpl; eauto.
  - intros r req q Hr Hst. destruct (Hrp _ _ _ Hr Hst) as (prq & Hprq & Hb).
    eexists. split; [by apply replaced_lookup|].
    case_decide; subst; simpl; [|done]. by same_lookup.
Qed.

(** Storing a payload in both slots of a bucket keeps the state
    consistent. *)
Lemma consistent_store s k b e :
  consistent s → cacheBuckets s !! k = Some b →
  consistent {| cacheBuckets :=
                  <[k := {| cache := Some e; lastGood := Some e;
                            inFlight := inFlight b |}]> (cacheBuckets s);
                promises := promises s;
                requests := requests s |}.
Proof.
  intros [Hag Hml Hlm Hso Hrb Hrp] Hb. split; simpl; auto.
  - intros k' b' [(<- & <-) | (Hne & Hk)]%lookup_insert_Some; simpl; eauto.
  - intros k' b' q [(<- & <-) | (Hne & Hk)]%lookup_insert_Some; simpl; eauto.
  - intros q prq Hq Hu. destruct (Hlm _ _ Hq Hu) as (b' & Hb' & Hi).
    destruct (decide (k = p_bucket prq)) as [-> | Hne].
    + rewrite lookup_insert_eq. eexists. split; [done|]. simpl. congruence.
    + rewrite lookup_insert_ne by done. eauto.
  - intros r req Hr. rewrite lookup_insert_is_Some. destruct (Hrb _ _ Hr).
    destruct (decide (k = req_bucket req)); eauto.
Qed.

Lemma consistent_onFulfilled s p payload clock s' :
  consistent s → onFulfilled s p payload clock = Some s' → consistent s'.
Proof.
  intros Hs (pr & b & Hp & Ho & Hb & ->)%onFulfilled_Some.
  apply (consistent_store
           {| cacheBuckets := cacheBuckets s;
              promises := <[p := setOutcome pr (inr payload)]> (promises s);
              requests := requests s |}); [|done].
  by apply consistent_outcome.
Qed.

Lemma consistent_onRejected s p error s' :
  consistent s → onRejected s p error = Some s' → consistent s'.
Proof.
  intros Hs (pr & Hp & Ho & ->)%onRejected_Some. by apply consistent_outcome.
Qed.

Lemma consistent_onFinally s p s' :
  consistent s → onFinally s p = Some s' → consistent s'.
Proof.
  intros [Hag Hml Hlm Hso Hrb Hrp] (pr & b & Hp & Ho & Hu & Hb & ->)%onFinally_Some.
  assert (Hmark : inFlight b = Some p).
  { destruct (Hlm _ _ Hp Hu) as (b' & Hb' & Hi). congruence. }
  split; simpl.
  - intros k' b' [(<- & <-) | (Hne & Hk)]%lookup_insert_Some; simpl; eauto.
  - intros k' b' q [(<- & <-) | (Hne & Hk)]%lookup_insert_Some; simpl; [done|].
    intros Hq. destruct (Hml _ _ _ Hk Hq) as (prq & Hprq & Hbk & Huq).
    exists prq. split; [|done]. rewrite list_lookup_insert_ne; [done|].
    intros <-. simplify_eq.
  - intros q prq' [(-> & -> & _) | (Hne & Hq)]%lookup_replaced; simpl; [done|].
    intros Huq. destruct (Hlm _ _ Hq Huq) as (b' & Hb' & Hi).
    rewrite lookup_insert_ne; [eauto|]. intros E. rewrite <- E in Hb'. simplify_eq.
  - intros q prq' [(-> & -> & _) | (Hne & Hq)]%lookup_replaced; simpl; eauto.
  - intros r req Hr. rewrite lookup_insert_is_Some. destruct (Hrb _ _ Hr).
    destruct (decide (p_bucket pr = req_bucket req)); eauto.
  - intros r req q Hr Hst. destruct (Hrp _ _ _ Hr Hst) as (prq & Hprq & Hbq).
    eexists. split; [by apply replaced_lookup|].
    case_decide; subst; simpl; [|done]. by same_lookup.
Qed.

Lemma consistent_resume s r clock s' :
  consistent s → resume toISOString s r clock = Some s' → consistent s'.
Proof.
  intros [Hag Hml Hlm Hso Hrb Hrp]
    (req & p & pr & o & b & Hr & Hst & Hp & Hs & Ho & Hb & ->)%resume_Some.
  split; simpl; auto.
  - intros r' req' [(-> & <- & _) | (Hne & Hr')]%list_lookup_insert_Some; simpl; eauto.
  - intros r' req' q [(-> & <- & _) | (Hne & Hr')]%list_lookup_insert_Some; simpl;
      [discriminate | eauto].
Qed.

Lemma consistent_step s ev s' :
  consistent s → step s ev = Some s' → consistent s'.
Proof.
  intros Hs. destruct ev; simpl.
  - intros [= <-]. by apply consistent_enter.
  - by apply consistent_onFulfilled.
  - by apply consistent_onRejected.
  - by apply consistent_onFinally.
  - by apply consistent_resume.
Qed.

Lemma reachable_consistent s : reachable s → consistent s.
Proof.
  induction 1 as [| s ev s' _ IH Hstep];
    [apply consistent_initial | by eapply consistent_step].
Qed.

Lemma run_reachable s trace s' :
  reachable s → run toISOString s trace = Some s' → reachable s'.
Proof.
  revert s. induction trace as [| ev rest IH]; simpl; intros s Hs.
  - by intros [= <-].
  - destruct (step s ev) as [s1|] eqn:Hstep; [simpl | discriminate].
    apply IH. by eapply reachable_step.
Qed.

(** C10: in every reachable state the [cache] slot and the [lastGood]
    slot of every bucket are equal (both [null], or both the same entry),
    so the fallback [lastGood ?? cache] of the failure path is [lastGood]
    itself. *)
Theorem cache_and_lastGood_agree s key b :
  reachable s → cacheBuckets s !! key = Some b →
  cache b = lastGood b ∧ nullish (lastGood b) (cache b) = lastGood b.
Proof.
  intros Hs Hb. apply reachable_consistent in Hs.
  pose proof (slots_agree s Hs key b Hb) as E. split; [done|].
  rewrite E. by destruct (lastGood b).
Qed.

(** C4: when the bucket holds an entry whose age, [now] minus its
    [fetchedAt], is below the fresh window of five minutes, the call
    returns at once the cached payload (with the display name override,
    if any) tagged [cache] with the entry's [fetchedAt]; the fetcher is
    not called and neither the buckets nor the promises change. *)
Theorem fresh_entry_served_without_fetch s key fetcher overrideName clock b c :
  cacheBuckets s !! key = Some b → cache b = Some c →
  clock 0%nat - fetchedAt c < CACHE_TTL_MS →
  CACHE_TTL_MS = 300000 ∧
  applyOverrideName (data c) None = data c ∧
  step s (Call key fetcher overrideName clock) =
    Some {| cacheBuckets := cacheBuckets s;
            promises := promises s;
            requests := requests s ++
              [{| req_bucket := key; req_overrideName := overrideName;
                  req_now := clock 0%nat;
                  req_status := Returned (inr
                    {| snap_data := applyOverrideName (data c) overrideName;
                       snap_meta :=
                         {| source := cached;
                            meta_fetchedAt := toISOString (fetchedAt c);
                            ageMs := clock 1%nat - fetchedAt c |} |}) |}] |}.
Proof.
  intros Hb Hc Hage. split; [reflexivity|]. split; [reflexivity|]. simpl. f_equal.
  assert (Hf : freshHit b (clock 0%nat) = Some c) by by apply freshHit_Some.
  destruct (enter_cases s key fetcher overrideName clock)
    as [(b' & c' & Hb' & Hf' & ->) | [(b' & p & Hb' & Hf' & _) | (b' & Hb' & Hf' & _)]].
  - by repeat same_lookup.
  - same_lookup. congruence.
  - destruct Hb' as [Hb' | [Hb' _]]; [same_lookup|]; congruence.
Qed.

(** C3: a request whose awaited fetch failed with [error] continues as
    follows.  With [fallback] the bucket's [lastGood] entry, or its [cache]
    entry when [lastGood] is [null]: if the age of [fallback], counted from
    the [now] the request read on entry, is below the stale window of thirty
    minutes, the request returns the payload of [fallback] tagged [stale]
    with the [fetchedAt] of [fallback]; if there is no such entry, or its
    age is not below the window, the request throws [error] itself. *)
Theorem failed_fetch_serves_stale_or_throws s r clock req p pr error :
  reachable s →
  requests s !! r = Some req → req_status req = Awaiting p →
  promises s !! p = Some pr → p_settled pr = true →
  p_outcome pr = Some (inl error) →
  ∃ b result,
    cacheBuckets s !! req_bucket req = Some b ∧
    step s (Resume r clock) =
      Some {| cacheBuckets := cacheBuckets s;
              promises := promises s;
              requests :=
                <[r := {| req_bucket := req_bucket req;
                          req_overrideName := req_overrideName req;
                          req_now := req_now req;
                          req_status := Returned result |}]> (requests s) |} ∧
    STALE_TTL_MS = 1800000 ∧
    (∀ fallback,
       nullish (lastGood b) (cache b) = Some fallback →
       req_now req - fetchedAt fallback < STALE_TTL_MS →
       result = inr {| snap_data :=
                         applyOverrideName (data fallback) (req_overrideName req);
                       snap_meta :=
                         {| source := stale;
                            meta_fetchedAt := toISOString (fetchedAt fallback);
                            ageMs := clock 0%nat - fetchedAt fallback |} |}) ∧
    (∀ fallback,
       nullish (lastGood b) (cache b) = Some fallback →
       STALE_TTL_MS ≤ req_now req - fetchedAt fallback →
       result = inl error) ∧
    (nullish (lastGood b) (cache b) = None → result = inl error).
Proof.
  intros Hs Hr Hst Hp Hset Ho. apply reachable_consistent in Hs.
  destruct (request_bucket s Hs r req Hr) as [b Hb].
  exists b, (afterAwait toISOString b req (inl error) clock).
  split; [done|]. split.
  - apply resume_Some. exists req, p, pr, (inl error), b. repeat split; auto.
  - split; [reflexivity|]. unfold afterAwait.
    destruct (nullish (lastGood b) (cache b)) as [e|].
    + split; [|split]; [| |discriminate]; intros ? [= <-] Hage;
        destruct (Z.ltb_spec (req_now req - fetchedAt e) STALE_TTL_MS);
        done || lia.
    + split; [|split]; [discriminate | discriminate | done].
Qed.


(** A fetch that has not settled is the marker of its bucket. *)
Lemma outstanding_marked s p pr :
  consistent s → promises s !! p = Some pr → p_outcome pr = None →
  ∃ b, cacheBuckets s !! p_bucket pr = Some b ∧ inFlight b = Some p.
Proof.
  intros Hs Hp Ho. apply (live_marked s Hs p pr Hp).
  destruct (p_settled pr) eqn:Hset; [|done].
  destruct (settled_outcome s Hs p pr Hp Hset). congruence.
Qed.

(** C2: in every reachable state a bucket has at most one promise whose
    [finally] callback has not run, hence at most one fetch outstanding,
    and its marker names that promise; a call that finds the marker set
    creates no promise and, unless it is served from the cache, awaits
    the promise the marker names; and two calls in a row for a bucket
    with no entry and no marker call the fetcher exactly once and await
    the same promise. *)
Theorem single_flight_per_bucket s :
  (reachable s →
   ∀ p q pr qr,
     promises s !! p = Some pr → promises s !! q = Some qr →
     p_bucket pr = p_bucket qr →
     p_settled pr = false → p_settled qr = false → p = q) ∧
  (reachable s →
   ∀ p q pr qr,
     promises s !! p = Some pr → promises s !! q = Some qr →
     p_bucket pr = p_bucket qr →
     p_outcome pr = None → p_outcome qr = None → p = q) ∧
  (reachable s →
   ∀ p pr,
     promises s !! p = Some pr → p_outcome pr = None →
     ∃ b, cacheBuckets s !! p_bucket pr = Some b ∧ inFlight b = Some p) ∧
  (∀ key b p fetcher overrideName clock,
     cacheBuckets s !! key = Some b → inFlight b = Some p →
     promises (enter s key fetcher overrideName clock) = promises s ∧
     (freshHit b (clock 0%nat) = None →
      step s (Call key fetcher overrideName clock) =
        Some {| cacheBuckets := cacheBuckets s;
                promises := promises s;
                requests := requests s ++
                  [{| req_bucket := key; req_overrideName := overrideName;
                      req_now := clock 0%nat;
                      req_status := Awaiting p |}] |})) ∧
  (∀ key f1 o1 c1 f2 o2 c2,
     (cacheBuckets s !! key = None ∨
      cacheBuckets s !! key =
        Some {| cache := None; lastGood := None; inFlight := None |}) →
     ∃ s',
       run toISOString s [Call key f1 o1 c1; Call key f2 o2 c2] = Some s' ∧
       promises s' = promises s ++
         [{| p_bucket := key; p_fetcher := f1; p_outcome := None;
             p_settled := false |}] ∧
       invocations s' key = S (invocations s key) ∧
       requests s' = requests s ++
         [{| req_bucket := key; req_overrideName := o1; req_now := c1 0%nat;
             req_status := Awaiting (length (promises s)) |};
          {| req_bucket := key; req_overrideName := o2; req_now := c2 0%nat;
             req_status := Awaiting (length (promises s)) |}]).
Proof.
  repeat apply conj.
  - intros Hs p q pr qr Hp Hq Hk Hup Huq. apply reachable_consistent in Hs.
    destruct (live_marked s Hs p pr Hp Hup) as (b & Hb & Hi).
    destruct (live_marked s Hs q qr Hq Huq) as (b' & Hb' & Hi').
    rewrite Hk in Hb. same_lookup. congruence.
  - intros Hs p q pr qr Hp Hq Hk Hop Hoq. apply reachable_consistent in Hs.
    destruct (outstanding_marked s p pr Hs Hp Hop) as (b & Hb & Hi).
    destruct (outstanding_marked s q qr Hs Hq Hoq) as (b' & Hb' & Hi').
    rewrite Hk in Hb. same_lookup. congruence.
  - intros Hs p pr Hp Ho. apply reachable_consistent in Hs.
    by apply outstanding_marked.
  - intros key b p fetcher overrideName clock Hb Hi.
    destruct (enter_cases s key fetcher overrideName clock)
      as [(b0 & c & Hb0 & Hf & ->) | [(b0 & p0 & Hb0 & Hf & Hi0 & E) | (b0 & Hb0 & _ & Hi0 & _)]].
    + split; [done|]. same_lookup. congruence.
    + same_lookup. rewrite E. split; [done|]. intros _. simpl. rewrite E.
      repeat f_equal. congruence.
    + destruct Hb0 as [Hb0 | [Hb0 _]]; [same_lookup|]; congruence.
  - intros key f1 o1 c1 f2 o2 c2 Hempty.
    eexists. split; [reflexivity|].
    destruct (enter_cases s key f1 o1 c1)
      as [(b0 & c & Hb0 & Hf & _) | [(b0 & p0 & Hb0 & _ & Hi0 & _) | (b0 & Hb0 & _ & _ & E)]].
    + apply freshHit_Some in Hf as [Hc _].
      destruct Hempty as [? | ?]; [congruence | same_lookup; simpl in *; congruence].
    + destruct Hempty as [? | ?]; [congruence | same_lookup; simpl in *; congruence].
    + rewrite E. clear E.
      set (s1 := {| cacheBuckets := _; promises := _; requests := _ |}).
      assert (Hfresh : freshHit
                {| cache := cache b0; lastGood := lastGood b0;
                   inFlight := Some (length (promises s)) |} (c2 0%nat) = None).
      { unfold freshHit. simpl.
        destruct Hempty as [? | ?], Hb0 as [Hb0 | [Hb0 ->]];
          try same_lookup; simpl; congruence. }
      destruct (enter_cases s1 key f2 o2 c2)
        as [(b1 & c & Hb1 & Hf & _) | [(b1 & p1 & Hb1 & _ & Hi1 & ->) | (b1 & Hb1 & _ & Hi1 & _)]].
      * subst s1. simpl in Hb1. rewrite lookup_insert_eq in Hb1.
        injection Hb1 as <-. congruence.
      * subst s1. simpl in *. rewrite lookup_insert_eq in Hb1.
        injection Hb1 as <-. simpl in Hi1. injection Hi1 as <-.
        split; [done|]. split.
        -- unfold invocations. simpl. rewrite filter_app, length_app.
           rewrite filter_cons_True by done. simpl. lia.
        -- by rewrite <- app_assoc.
      * subst s1. simpl in Hb1. rewrite lookup_insert_eq in Hb1.
        destruct Hb1 as [Hb1 | [Hb1 _]]; [|discriminate].
        injection Hb1 as <-. discriminate.
Qed.

End CacheFacts.
(* ===================================================================== *)
(** * Properties of the conversions *)
(* ===================================================================== *)

Section NumberFacts.
Import JsNum Nws.

(** The cells for the exponents at which [binary_normalize] has bits to
    add, and every remainder from 1 to 15. *)
Lemma remTable_ok :
  forallb (fun K => forallb (remCell K) (seq 1 15)) (seq 48 5) = true.
Proof. vm_compute. reflexivity. Qed.

Lemma remCell_ok (K j : nat) :
  (48 ≤ K ≤ 52)%nat → (1 ≤ j ≤ 15)%nat → remCell K j = true.
Proof.
  intros HK Hj.
  assert (HinK : In K (seq 48 5)) by (apply in_seq; lia).
  assert (Hinj : In j (seq 1 15)) by (apply in_seq; lia).
  pose proof (proj1 (forallb_forall _ _) remTable_ok K HinK) as Ht.
  exact (proj1 (forallb_forall _ _) Ht j Hinj).
Qed.

Lemma pow2_xO (a n : positive) : (a * 2 ^ Pos.succ n = (a * 2 ^ n)~0)%positive.
Proof. rewrite Pos.pow_succ_r. lia. Qed.

(** Zero bits appended to a mantissa add to its number of digits. *)
Lemma digits2_pos_shift (a n : positive) :
  digits2_pos (a * 2 ^ n) = (digits2_pos a + n)%positive.
Proof.
  induction n as [| n IH] using Pos.peano_ind.
  - replace (a * 2 ^ 1)%positive with (a~0)%positive by lia. simpl.
    by rewrite Pos.add_1_r.
  - rewrite pow2_xO. simpl. rewrite IH. by rewrite Pos.add_succ_r.
Qed.

Lemma pow2_double (n : positive) : (2 ^ n~0 = 2 ^ n * 2 ^ n)%positive.
Proof.
  apply Pos2Z.inj. rewrite Pos2Z.inj_mul, !Pos2Z.inj_pow.
  replace (Z.pos n~0) with (Z.pos n + Z.pos n) by lia.
  by rewrite Z.pow_add_r by lia.
Qed.

Lemma pow2_double_succ (n : positive) : (2 ^ n~1 = (2 ^ n * 2 ^ n)~0)%positive.
Proof.
  replace (n~1)%positive with (Pos.succ n~0) by lia.
  by rewrite Pos.pow_succ_r, pow2_double.
Qed.

(** Shifting out [n] zero bits loses nothing. *)
Lemma shr_exact (n a : positive) :
  SpecFloat.iter_pos shr_1 n
    {| shr_m := Z.pos (a * 2 ^ n); shr_r := false; shr_s := false |} =
  {| shr_m := Z.pos a; shr_r := false; shr_s := false |}.
Proof.
  revert a. induction n as [n IH | n IH |]; intros a; cbn [SpecFloat.iter_pos].
  - rewrite pow2_double_succ.
    replace (a * (2 ^ n * 2 ^ n)~0)%positive with ((a * 2 ^ n * 2 ^ n)~0)%positive by lia.
    cbn [shr_1 orb]. by rewrite !IH.
  - rewrite pow2_double, Pos.mul_assoc. by rewrite !IH.
  - rewrite Pos.pow_1_r. by replace (a * 2)%positive with (a~0)%positive by lia.
Qed.

Lemma toInteger_shifted s (a c : positive) :
  toInteger (S754_finite s (a * 2 ^ c) (Z.neg c)) = Some (cond_Zopp s (Z.pos a)).
Proof.
  unfold toInteger. change (0 <=? Z.neg c) with false. cbn iota.
  change (- Z.neg c) with (Z.pos c).
  rewrite Pos2Z.inj_mul, Pos2Z.inj_pow.
  assert (0 < 2 ^ Z.pos c) by (apply Z.pow_pos_nonneg; lia).
  rewrite Z.mod_mul, Z.div_mul by lia. reflexivity.
Qed.

(** A mantissa of [53 - c] digits followed by more than [c] zero bits is
    normalised by dropping all but [c] of them. *)
Lemma normalize_shifted (a K c : positive) :
  Z.pos (digits2_pos a) + Z.pos c = 53 → Z.pos c < Z.pos K →
  binary_normalize prec emax (Z.pos (a * 2 ^ K)) (Z.neg K) false =
  S754_finite false (a * 2 ^ c) (Z.neg c).
Proof.
  intros Hd HK. unfold binary_normalize, binary_round.
  rewrite digits2_pos_shift.
  assert (Hfexp : fexp prec emax (Z.pos (digits2_pos a + K) + Z.neg K) = Z.neg c).
  { unfold fexp, emin, prec, emax. lia. }
  rewrite Hfexp. unfold shl_align.
  destruct (Z.neg c - Z.neg K) as [|n|n] eqn:Hn; try lia.
  unfold binary_round_aux, shr_fexp. cbn [Zdigits2].
  rewrite digits2_pos_shift, Hfexp, Hn. cbn [shr_record_of_loc shr].
  replace (a * 2 ^ K)%positive with (a * 2 ^ c * 2 ^ n)%positive.
  2:{ apply Pos2Z.inj. rewrite !Pos2Z.inj_mul, !Pos2Z.inj_pow.
      rewrite <- Z.mul_assoc, <- Z.pow_add_r by lia. do 2 f_equal. lia. }
  rewrite shr_exact. cbn [shr_m loc_of_shr_record round_nearest_even].
  replace (Z.neg K + Z.pos n) with (Z.neg c) by lia.
  cbn [Zdigits2]. rewrite digits2_pos_shift.
  replace (fexp prec emax (Z.pos (digits2_pos a + c) + Z.neg c) - Z.neg c) with 0.
  2:{ unfold fexp, emin, prec, emax. lia. }
  cbn [shr shr_m shr_record_of_loc].
  unfold emax, prec.
  destruct (Z.leb_spec (Z.neg c) (1024 - 53)); [reflexivity | lia].
Qed.

(** [binary_normalize] keeps the integers 1 to 15 as they are, whatever
    exponent a remainder modulo 16 leaves them at. *)
Lemma normalize_remainder (K j : Z) :
  48 ≤ K → 1 ≤ j ≤ 15 →
  toInteger (binary_normalize prec emax (2 ^ K * j) (- K) false) = Some j.
Proof.
  intros HK Hj. destruct (Z.le_gt_cases K 52) as [Hle | Hgt].
  - pose proof (remCell_ok (Z.to_nat K) (Z.to_nat j)) as Hc.
    unfold remCell in Hc. rewrite !Z2Nat.id in Hc by lia.
    destruct (toInteger _) as [z|]; [|discriminate Hc; lia].
    f_equal. apply Z.eqb_eq, Hc; lia.
  - destruct K as [|Kp|Kp]; try lia.
    assert (Hpow : 2 ^ Z.pos Kp * j = Z.pos (Z.to_pos j * 2 ^ Kp)).
    { rewrite Pos2Z.inj_mul, Pos2Z.inj_pow, Z2Pos.id by lia. lia. }
    rewrite Hpow. change (- Z.pos Kp) with (Z.neg Kp).
    assert (Hc : ∃ c, Z.pos (digits2_pos (Z.to_pos j)) + Z.pos c = 53 ∧ Z.pos c < 53).
    { assert (Hcases : j = 1 ∨ j = 2 ∨ j = 3 ∨ j = 4 ∨ j = 5 ∨ j = 6 ∨ j = 7 ∨ j = 8 ∨
                       j = 9 ∨ j = 10 ∨ j = 11 ∨ j = 12 ∨ j = 13 ∨ j = 14 ∨ j = 15)
        by lia.
      repeat (destruct Hcases as [-> | Hcases]); try subst j;
        first [ by exists 52%positive | by exists 51%positive
              | by exists 50%positive | by exists 49%positive ]. }
    destruct Hc as (c & Hd & Hc).
    rewrite (normalize_shifted _ Kp c Hd) by lia.
    rewrite toInteger_shifted. simpl. f_equal. lia.
Qed.

Lemma ofZ_16 : ofZ 16 = S754_finite false 4503599627370496 (-48).
Proof. vm_compute. reflexivity. Qed.

(** A non-negative integer kept in a finite number: its sign is plus and
    its mantissa, brought to an exponent [-K] at or below its own, is the
    integer times [2^K]. *)
Lemma integer_mantissa s m e z K :
  toInteger (S754_finite s m e) = Some z → 0 ≤ z → 0 ≤ K → - K ≤ e →
  s = false ∧ Z.pos m * 2 ^ (e + K) = z * 2 ^ K.
Proof.
  intros Hz Hpos HK HeK. simpl in Hz.
  destruct (Z.leb_spec 0 e) as [He | He].
  - injection Hz as <-.
    assert (0 < Z.pos m * 2 ^ e) by (apply Z.mul_pos_pos; [lia | by apply Z.pow_pos_nonneg]).
    destruct s; simpl in *; [lia|]. split; [done|].
    rewrite Z.pow_add_r by lia. lia.
  - destruct (Z.eqb_spec (Z.pos m mod 2 ^ (- e)) 0) as [Hm | Hm]; [|discriminate].
    injection Hz as <-.
    assert (Hp : 0 < 2 ^ (- e)) by (apply Z.pow_pos_nonneg; lia).
    assert (Hdiv : Z.pos m = 2 ^ (- e) * (Z.pos m / 2 ^ (- e))).
    { rewrite (Z.div_mod (Z.pos m) (2 ^ (- e))) at 1 by lia. lia. }
    assert (0 < Z.pos m / 2 ^ (- e)) by nia.
    destruct s; simpl in *; [lia|]. split; [done|].
    rewrite Hdiv at 1.
    replace K with (- e + (e + K)) at 2 by lia.
    rewrite (Z.pow_add_r 2 (- e) (e + K)) by lia. lia.
Qed.

(** The remainder modulo 16 of a number that is a non-negative integer is
    the remainder of that integer. *)
Lemma rem16_integer r z :
  toInteger r = Some z → 0 ≤ z →
  toInteger (rem r (ofZ 16)) = Some (z mod 16).
Proof.
  intros Hz Hpos. rewrite ofZ_16.
  destruct r as [s | s | | s m e]; try discriminate.
  - injection Hz as <-. reflexivity.
  - set (K := Z.max 48 (- e)).
    destruct (integer_mantissa s m e z K Hz Hpos) as [-> HN]; [lia | lia |].
    assert (Hp : 0 < 2 ^ K) by (apply Z.pow_pos_nonneg; lia).
    unfold rem.
    replace (Z.min e (-48)) with (- K) by lia.
    replace (e - - K) with (e + K) by lia. rewrite HN.
    replace (4503599627370496 * 2 ^ (-48 - - K)) with (16 * 2 ^ K).
    2:{ replace 4503599627370496 with (16 * 2 ^ 48) by reflexivity.
        rewrite <- Z.mul_assoc, <- Z.pow_add_r by lia. do 2 f_equal. lia. }
    rewrite Z.rem_mod_nonneg by nia.
    rewrite Z.mul_mod_distr_r by lia.
    pose proof (Z.mod_pos_bound z 16 eq_refl) as Hj.
    destruct (Z.eqb_spec (z mod 16 * 2 ^ K) 0) as [E | E].
    + simpl. f_equal. nia.
    + simpl. rewrite (Z.mul_comm (z mod 16)).
      apply normalize_remainder; [lia | nia].
Qed.

(** The table has an entry at every remainder modulo 16. *)
Lemma directions_at (j : Z) :
  0 ≤ j < 16 → ∃ d, nth_error directions (Z.to_nat j) = Some d.
Proof.
  intros Hj. destruct (nth_error directions (Z.to_nat j)) as [d|] eqn:E; [eauto|].
  apply nth_error_None in E. change (length directions) with 16%nat in E. lia.
Qed.

Lemma arrayGet_integer {A : Type} (l : list A) (i : Number) (z : Z) :
  toInteger i = Some z → 0 ≤ z → arrayGet l i = nth_error l (Z.to_nat z).
Proof.
  intros Hi Hz. unfold arrayGet. rewrite Hi.
  by destruct (Z.leb_spec 0 z); [|lia].
Qed.

(** C9, as amended: [degreesToCardinal] returns [null] for [null] and for
    NaN; 0 maps to N, 90 to E and 359 to N; and for every other number
    whose quotient by 22.5 rounds to a non-negative integer it returns the
    entry of the sixteen-point table at that integer modulo 16. *)
Theorem degreesToCardinal_compass :
  degreesToCardinal None = JsNull ∧
  degreesToCardinal (Some S754_nan) = JsNull ∧
  degreesToCardinal (Some (ofZ 0)) = Js "N" ∧
  degreesToCardinal (Some (ofZ 90)) = Js "E" ∧
  degreesToCardinal (Some (ofZ 359)) = Js "N" ∧
  ∀ v z,
    isNaN v = false →
    toInteger (Math_round (div v (ofDecimal 225 1))) = Some z → 0 ≤ z →
    ∃ d, nth_error directions (Z.to_nat (z mod 16)) = Some d ∧
         degreesToCardinal (Some v) = Js d.
Proof.
  do 5 (split; [vm_compute; reflexivity|]).
  intros v z Hnan Hz Hpos.
  pose proof (Z.mod_pos_bound z 16 eq_refl) as Hj.
  destruct (directions_at (z mod 16) Hj) as [d Hd]. exists d. split; [done|].
  unfold degreesToCardinal. rewrite Hnan.
  rewrite (arrayGet_integer directions _ (z mod 16)), Hd; [done | | lia].
  by apply rem16_integer.
Qed.

Lemma scaledNearest_nonneg f m e : 0 ≤ scaledNearest f m e.
Proof.
  unfold scaledNearest.
  assert (0 < 10 ^ Z.of_nat f) by (apply Z.pow_pos_nonneg; lia).
  destruct (Z.leb_spec 0 e).
  - assert (0 < 2 ^ e) by (by apply Z.pow_pos_nonneg). nia.
  - assert (0 < 2 ^ (- e)) by (apply Z.pow_pos_nonneg; lia).
    assert (0 < 2 ^ (- e + 1)) by (apply Z.pow_pos_nonneg; lia).
    apply Z.div_pos; nia.
Qed.

Lemma ltZero_finite s m e : ltZero (S754_finite s m e) = s.
Proof. by destruct s. Qed.

(** Two numbers that [toFixed] renders itself, that round to the same
    value at [f] decimals and, where that value is zero, are both negative
    or both not, have the same rendering. *)
Lemma toFixed_same (toStr : Number → string) (f : nat) (x y : Number) :
  fixedRange x = true → fixedRange y = true →
  roundedAt f x = roundedAt f y →
  (roundedAt f x = Some 0 → ltZero x = ltZero y) →
  toFixed toStr x f = toFixed toStr y f.
Proof.
  intros Hx Hy Hr Hs.
  destruct x as [sx | sx | | sx mx ex], y as [sy | sy | | sy my ey];
    try discriminate; unfold toFixed;
    cbn [fixedRange roundedAt] in Hx, Hy, Hr, Hs;
    try apply negb_true_iff in Hx; try apply negb_true_iff in Hy;
    rewrite ?Hx, ?Hy; rewrite ?ltZero_finite in Hs;
    change (ltZero (S754_zero ?s)) with false in Hs.
  - reflexivity.
  - pose proof (scaledNearest_nonneg f my ey).
    specialize (Hs eq_refl). subst sy. cbn [cond_Zopp] in Hr.
    by replace (scaledNearest f my ey) with 0 by congruence.
  - pose proof (scaledNearest_nonneg f mx ex).
    assert (E : scaledNearest f mx ex = 0)
      by (destruct sx; cbn [cond_Zopp] in Hr; injection Hr; lia).
    rewrite E in *. destruct sx; [|done]. by specialize (Hs eq_refl).
  - pose proof (scaledNearest_nonneg f mx ex).
    pose proof (scaledNearest_nonneg f my ey).
    injection Hr as Hr.
    destruct (decide (scaledNearest f mx ex = 0)) as [E | E].
    + assert (E' : scaledNearest f my ey = 0)
        by (rewrite E in Hr; destruct sx, sy; cbn [cond_Zopp] in Hr; lia).
      rewrite E, E' in *. rewrite Hs; [done|]. by destruct sx.
    + destruct sx, sy; cbn [cond_Zopp] in Hr; (lia || (do 2 f_equal; lia)).
Qed.

End NumberFacts.

(* ===================================================================== *)
(** * Properties of the aggregator *)
(* ===================================================================== *)

Section DailyMapFacts.
Import JsNum Nws Notions.
(** The date key of a start time, where every one has one. *)
Variable key : string -> string.

Abbreviation placed periods := (placeAll key periods []).

Lemma Map_get_set_eq m k v : Map_get (Map_set m k v) k = Some v.
Proof.
  induction m as [| [k' v'] m IH]; simpl.
  - by rewrite String.eqb_refl.
  - destruct (String.eqb_spec k' k) as [-> | Hne]; simpl.
    + by rewrite String.eqb_refl.
    + by destruct (String.eqb_spec k' k).
Qed.

Lemma Map_get_set_ne m k k' v :
  k ≠ k' → Map_get (Map_set m k v) k' = Map_get m k'.
Proof.
  intros Hne. induction m as [| [k0 v0] m IH]; simpl.
  - by destruct (String.eqb_spec k k').
  - destruct (String.eqb_spec k0 k) as [-> | Hk]; simpl.
    + by destruct (String.eqb_spec k k').
    + by destruct (String.eqb_spec k0 k').
Qed.

Lemma Map_has_keys m k : Map_has m k = true ↔ k ∈ Map_keys m.
Proof.
  unfold Map_has, Map_keys. induction m as [| [k' v'] m IH]; simpl.
  - split; [discriminate | by intros ?%elem_of_nil].
  - rewrite elem_of_cons. destruct (String.eqb_spec k' k) as [-> | Hne].
    + split; auto.
    + rewrite IH. split; [auto | by intros [-> | ?]].
Qed.

Lemma Map_keys_set m k v :
  Map_keys (Map_set m k v) =
    if Map_has m k then Map_keys m else Map_keys m ++ [k].
Proof.
  unfold Map_has, Map_keys. induction m as [| [k' v'] m IH]; simpl; [done|].
  destruct (String.eqb_spec k' k) as [-> | Hne]; simpl; [done|].
  rewrite IH. by destruct (Map_get m k).
Qed.

(** The entry found under a key of a map without repeated keys. *)
Lemma Map_get_elem m k v :
  NoDup (Map_keys m) → (k, v) ∈ m → Map_get m k = Some v.
Proof.
  unfold Map_keys. induction m as [| [k' v'] m IH]; simpl; intros Hnd Hin.
  - by apply elem_of_nil in Hin.
  - apply NoDup_cons in Hnd as [Hnot Hnd].
    apply elem_of_cons in Hin as [[= <- <-] | Hin].
    + by rewrite String.eqb_refl.
    + destruct (String.eqb_spec k' k) as [-> | Hne]; [|by apply IH].
      exfalso. apply Hnot. apply list_elem_of_fmap. by exists (k, v).
Qed.

(** Placing a period, as a single update of the map. *)
Lemma placePeriod_unfold m k p :
  placePeriod m k p =
    Map_set (if Map_has m k then m else Map_set m k (freshEntry p)) k
            (applyPeriod (default (freshEntry p) (Map_get m k)) p).
Proof.
  unfold placePeriod, Map_has.
  destruct (Map_get m k) as [entry|] eqn:Hget; simpl.
  - by rewrite Hget.
  - by rewrite Map_get_set_eq.
Qed.

Lemma placePeriod_keys m k p :
  Map_keys (placePeriod m k p) =
    if Map_has m k then Map_keys m else Map_keys m ++ [k].
Proof.
  rewrite placePeriod_unfold, Map_keys_set.
  destruct (Map_has m k) eqn:Hhas.
  - by rewrite Hhas.
  - unfold Map_has at 1. by rewrite Map_get_set_eq, Map_keys_set, Hhas.
Qed.

Lemma placePeriod_get m k p k' :
  Map_get (placePeriod m k p) k' =
    if decide (k = k')
    then Some (applyPeriod (default (freshEntry p) (Map_get m k')) p)
    else Map_get m k'.
Proof.
  rewrite placePeriod_unfold. destruct (decide (k = k')) as [<- | Hne].
  - by rewrite Map_get_set_eq.
  - rewrite Map_get_set_ne by done.
    destruct (Map_has m k); [done|].
    by rewrite Map_get_set_ne.
Qed.

Lemma placeAll_keys periods m :
  NoDup (Map_keys m) →
  NoDup (Map_keys (placeAll key periods m)) ∧
  ∀ k, k ∈ Map_keys (placeAll key periods m) ↔
       k ∈ Map_keys m ∨ ∃ p, p ∈ periods ∧ key (startTime p) = k.
Proof.
  unfold placeAll.
  revert m. induction periods as [| p periods IH]; simpl; intros m Hnd.
  - split; [done|]. intros k. split; [auto|].
    intros [? | (p & Hp%elem_of_nil & _)]; done.
  - assert (Hstep : NoDup (Map_keys (placePeriod m (key (startTime p)) p)) ∧
              ∀ k, k ∈ Map_keys (placePeriod m (key (startTime p)) p) ↔
                   k ∈ Map_keys m ∨ key (startTime p) = k).
    { rewrite placePeriod_keys.
      destruct (Map_has m (key (startTime p))) eqn:Hhas.
      - apply Map_has_keys in Hhas. split; [done|]. intros k.
        split; [auto | by intros [? | <-]].
      - assert (key (startTime p) ∉ Map_keys m).
        { intros Hin%Map_has_keys. congruence. }
        split.
        + apply NoDup_app. split; [done|]. split; [|apply NoDup_singleton].
          intros x Hx ->%list_elem_of_singleton. done.
        + intros k. rewrite elem_of_app, list_elem_of_singleton.
          split; (intros [? | ?]; [by left | by right]). }
    destruct Hstep as [Hnd' Hkeys]. destruct (IH _ Hnd') as [IH1 IH2].
    split; [done|]. intros k. rewrite IH2, Hkeys. split.
    + intros [[? | <-] | (q & Hq & <-)]; [by left | right ..].
      * exists p. split; [apply elem_of_cons; by left | done].
      * exists q. split; [apply elem_of_cons; by right | done].
    + intros [? | (q & [-> | Hq]%elem_of_cons & <-)];
        [by left; left | by left; right | right; eauto].
Qed.

Lemma placed_keys periods :
  NoDup (Map_keys (placed periods)) ∧
  ∀ k, k ∈ Map_keys (placed periods) ↔ ∃ p, p ∈ periods ∧ key (startTime p) = k.
Proof.
  destruct (placeAll_keys periods [] (NoDup_nil_2 (A:=string))) as [Hnd Hk].
  split; [done|]. intros k. rewrite (Hk k). split; [|eauto].
  by intros [?%elem_of_nil | ?].
Qed.

Lemma placed_snoc periods p :
  placed (periods ++ [p]) = placePeriod (placed periods) (key (startTime p)) p.
Proof. unfold placeAll. by rewrite fold_left_app. Qed.

(** The periods of the day [k], in the order of the forecast. *)
Abbreviation keyed k periods :=
  (filter (λ p, key (startTime p) = k) periods).

(** What the periods of one day have made of its entry. *)
Lemma placed_day periods k :
  match Map_get (placed periods) k with
  | None => keyed k periods = []
  | Some entry =>
      (∃ p0, head (keyed k periods) = Some p0 ∧
             date entry = startTime p0 ∧ day_name entry = name p0 ∧
             day_icon entry =
               icon (default p0 (last (filter (λ p, isDaytime p = true)
                                         (keyed k periods))))) ∧
      highF entry =
        temperature <$> last (filter (λ p, isDaytime p = true) (keyed k periods)) ∧
      lowF entry =
        temperature <$> last (filter (λ p, isDaytime p = false) (keyed k periods))
  end.
Proof.
  induction periods as [| p periods IH] using rev_ind; [done|].
  rewrite placed_snoc, placePeriod_get, filter_app.
  destruct (decide (key (startTime p) = k)) as [Hk | Hk].
  - rewrite (filter_cons_True _ p []) by done. rewrite filter_nil.
    rewrite !filter_app.
    destruct (Map_get (placed periods) k) as [entry|]; simpl.
    + destruct IH as [(p0 & Hhead & Hdate & Hname & Hicon) [Hhigh Hlow]].
      assert (Hhead' : head (keyed k periods ++ [p]) = Some p0).
      { destruct (keyed k periods); [discriminate | done]. }
      unfold applyPeriod. destruct (isDaytime p) eqn:Hday; simpl.
      * rewrite (filter_cons_True (λ p, isDaytime p = true) p []) by done.
        rewrite (filter_cons_False (λ p, isDaytime p = false) p []) by congruence.
        rewrite !filter_nil, app_nil_r, last_snoc. simpl. eauto 10.
      * rewrite (filter_cons_False (λ p, isDaytime p = true) p []) by congruence.
        rewrite (filter_cons_True (λ p, isDaytime p = false) p []) by done.
        rewrite !filter_nil, app_nil_r, last_snoc. simpl. eauto 10.
    + rewrite IH. simpl.
      unfold applyPeriod, freshEntry. destruct (isDaytime p) eqn:Hday; simpl.
      * rewrite (filter_cons_True (λ p, isDaytime p = true) p []) by done.
        rewrite (filter_cons_False (λ p, isDaytime p = false) p []) by congruence.
        simpl. eauto 10.
      * rewrite (filter_cons_False (λ p, isDaytime p = true) p []) by congruence.
        rewrite (filter_cons_True (λ p, isDaytime p = false) p []) by done.
        simpl. eauto 10.
  - rewrite (filter_cons_False _ p []) by done. rewrite filter_nil, app_nil_r.
    exact IH.
Qed.

(** The days of a forecast that goes on are the days of its beginning,
    in the same order, followed by those only the continuation has. *)
Lemma placed_app periods more :
  ∃ later,
    Map_keys (placed (periods ++ more)) = Map_keys (placed periods) ++ later ∧
    NoDup later ∧
    ∀ k, k ∈ later ↔
         (k ∉ Map_keys (placed periods)) ∧
         ∃ p, p ∈ more ∧ key (startTime p) = k.
Proof.
  induction more as [| p more IH] using rev_ind.
  - exists []. rewrite !app_nil_r. split; [done|]. split; [constructor|].
    intros k. split; [by intros ?%elem_of_nil|].
    by intros (_ & p & ?%elem_of_nil & _).
  - destruct IH as (later & Hkeys & Hnd & Hlater).
    rewrite app_assoc, placed_snoc, placePeriod_keys, Hkeys.
    destruct (Map_has (placed (periods ++ more)) (key (startTime p)))
      eqn:Hhas.
    + exists later. split; [done|]. split; [done|]. intros k. rewrite Hlater.
      split; intros (Hnot & q & Hq & Hk); (split; [done|]).
      * exists q. split; [|done]. apply elem_of_app. by left.
      * apply elem_of_app in Hq as [Hq | ->%list_elem_of_singleton]; [eauto|].
        apply Map_has_keys in Hhas. rewrite Hk, Hkeys in Hhas.
        apply elem_of_app in Hhas as [? | Hin]; [done|].
        by apply Hlater in Hin as (_ & ?).
    + assert (Hnew : key (startTime p) ∉ Map_keys (placed periods) ++ later).
      { rewrite <- Hkeys. intros Hin%Map_has_keys. congruence. }
      exists (later ++ [key (startTime p)]).
      split; [by rewrite app_assoc|]. split.
      * apply NoDup_app. split; [done|]. split; [|apply NoDup_singleton].
        intros x Hx ->%list_elem_of_singleton. apply Hnew, elem_of_app. by right.
      * intros k. rewrite elem_of_app, list_elem_of_singleton, Hlater. split.
        -- intros [(Hnot & q & Hq & Hk) | ->].
           ++ split; [done|]. exists q. split; [|done]. apply elem_of_app. by left.
           ++ split; [intros Hin; apply Hnew, elem_of_app; by left|].
              exists p. split; [|done]. apply elem_of_app. right.
              by apply list_elem_of_singleton.
        -- intros (Hnot & q & Hq & Hk).
           apply elem_of_app in Hq as [Hq | ->%list_elem_of_singleton]; eauto.
Qed.

(** The entry and the key at one place of the map. *)
Lemma Map_entry_at m i e :
  Map_values m !! i = Some e →
  ∃ k, m !! i = Some (k, e) ∧ Map_keys m !! i = Some k.
Proof.
  unfold Map_values, Map_keys. revert i.
  induction m as [| [k v] m IH]; intros [| i]; simpl; try done.
  - intros [= <-]. eauto.
  - apply IH.
Qed.

Lemma Map_key_at m i k :
  Map_keys m !! i = Some k → ∃ e, m !! i = Some (k, e) ∧ Map_values m !! i = Some e.
Proof.
  unfold Map_values, Map_keys. revert i.
  induction m as [| [k' v] m IH]; intros [| i]; simpl; try done.
  - intros [= <-]. eauto.
  - apply IH.
Qed.

(** The first period found of a day is the first of its periods. *)
Lemma head_filter_find {A : Type} (P : A → Prop) `{!∀ x, Decision (P x)} (l : list A) :
  head (filter P l) = snd <$> list_find P l.
Proof.
  induction l as [| y l IH]; [done|]. cbn [list_find].
  destruct (decide (P y)).
  - by rewrite filter_cons_True.
  - rewrite filter_cons_False, IH by done. by destruct (list_find P l) as [[? ?]|].
Qed.

Abbreviation opens := (Notions.opens (λ p, key (startTime p))).

(** The keys of the map up to the day a period opens. *)
Lemma placed_take_keys periods b pb :
  opens periods b pb →
  ∃ later,
    Map_keys (placed periods) =
      Map_keys (placed (take b periods)) ++ key (startTime pb) :: later.
Proof.
  intros [Hb Hfirst].
  destruct (placed_app (take b periods ++ [pb]) (drop (S b) periods))
    as (later & Hkeys & _ & _).
  rewrite <- app_assoc in Hkeys. cbn [app] in Hkeys.
  rewrite (take_drop_middle periods b pb Hb) in Hkeys.
  exists later. rewrite Hkeys, placed_snoc, placePeriod_keys.
  destruct (Map_has (placed (take b periods)) (key (startTime pb))) eqn:Hhas.
  - exfalso. apply Map_has_keys in Hhas.
    apply (proj2 (placed_keys (take b periods))) in Hhas as (p & Hp & Hk).
    apply elem_of_take in Hp as (a & Ha & Hlt). by apply (Hfirst a p).
  - by rewrite <- app_assoc.
Qed.

(** Days are kept in the order in which their first periods come. *)
Lemma opening_order periods i j a b pa pb :
  (i < j)%nat →
  Map_keys (placed periods) !! i = Some (key (startTime pa)) →
  Map_keys (placed periods) !! j = Some (key (startTime pb)) →
  opens periods a pa → opens periods b pb → (a < b)%nat.
Proof.
  intros Hij Hi Hj [Ha Hafirst] Hb.
  destruct (placed_take_keys periods b pb Hb) as (later & Hkeys).
  destruct (placed_keys periods) as [Hnd _].
  assert (j = length (Map_keys (placed (take b periods)))) as ->.
  { apply (NoDup_lookup _ _ _ _ Hnd Hj).
    rewrite Hkeys. by apply list_lookup_middle. }
  rewrite Hkeys, lookup_app_l in Hi by done.
  apply list_elem_of_lookup_2 in Hi.
  apply (proj2 (placed_keys (take b periods))) in Hi as (p & Hp & Hk).
  apply elem_of_take in Hp as (a0 & Ha0 & Hlt).
  destruct (decide (a0 < a)%nat) as [Hlt' | Hge]; [|lia].
  exfalso. by apply (Hafirst a0 p).
Qed.

(** The entry of a day carries the start time and the name of the
    period that opens it. *)
Lemma opening_entry periods a p entry :
  opens periods a p →
  Map_get (placed periods) (key (startTime p)) = Some entry →
  date entry = startTime p ∧ day_name entry = name p.
Proof.
  intros [Ha Hfirst] Hget. pose proof (placed_day periods (key (startTime p))) as Hday.
  rewrite Hget in Hday. destruct Hday as [(p0 & Hhead & Hdate & Hname & _) _].
  rewrite head_filter_find in Hhead.
  assert (Hfind : list_find (λ q, key (startTime q) = key (startTime p)) periods
                    = Some (a, p)).
  { apply list_find_Some. split; [done|]. split; [done|].
    intros a' p' Ha' Hlt. by apply (Hfirst a' p'). }
  rewrite Hfind in Hhead. injection Hhead as <-. done.
Qed.

(** Every day of the map is opened by a period. *)
Lemma opening_exists periods k :
  k ∈ Map_keys (placed periods) →
  ∃ a p, opens periods a p ∧ key (startTime p) = k.
Proof.
  intros (p & Hp & Hk)%(proj2 (placed_keys periods)).
  destruct (list_find_elem_of (λ q, key (startTime q) = k) periods p Hp Hk)
    as [[a pa] Hfind].
  apply list_find_Some in Hfind as (Ha & Hka & Hfirst).
  exists a, pa. split; [|done]. split; [done|].
  intros a' p' Ha' Hlt. rewrite Hka. by apply (Hfirst a' p').
Qed.

End DailyMapFacts.

Section AggregatorFacts.
Import JsNum Nws Notions.
Variable Number_toString : Number -> string.
Variable formatDateKey : string -> Outcome string.

Abbreviation foldPeriod := (Nws.foldPeriod formatDateKey).
Abbreviation forEachPeriod := (Nws.forEachPeriod formatDateKey).
Abbreviation foldDaily := (Nws.foldDaily formatDateKey).
Abbreviation getWeatherByCoords :=
  (Nws.getWeatherByCoords Number_toString formatDateKey).

(** The start time of the period is a date. *)
Abbreviation dated p := (∃ k, formatDateKey (startTime p) = inr k).

Lemma keyOf_dated iso k :
  formatDateKey iso = inr k → keyOf formatDateKey iso = k.
Proof. unfold keyOf. by intros ->. Qed.

Lemma dated_keyOf p :
  dated p → formatDateKey (startTime p) = inr (keyOf formatDateKey (startTime p)).
Proof. intros [k Hk]. by rewrite (keyOf_dated _ _ Hk). Qed.

(** Where every start time is a date the loop runs to its end. *)
Lemma forEachPeriod_dated periods m :
  Forall (λ p, dated p) periods →
  forEachPeriod periods m = inr (placeAll (keyOf formatDateKey) periods m).
Proof.
  unfold placeAll. intros Hall. revert m.
  induction Hall as [| p periods Hp _ IH]; intros m; [done|].
  cbn [Nws.forEachPeriod fold_left]. unfold Nws.foldPeriod.
  rewrite (dated_keyOf p Hp). cbn [bindOutcome]. apply IH.
Qed.

(** The first start time that is no date ends it. *)
Lemma forEachPeriod_undated before p after m error :
  Forall (λ q, dated q) before →
  formatDateKey (startTime p) = inl error →
  forEachPeriod (before ++ p :: after) m = inl error.
Proof.
  intros Hall Hp. revert m.
  induction Hall as [| q before Hq _ IH]; intros m.
  - cbn [app Nws.forEachPeriod]. unfold Nws.foldPeriod. by rewrite Hp.
  - cbn [app Nws.forEachPeriod]. unfold Nws.foldPeriod.
    rewrite (dated_keyOf q Hq). cbn [bindOutcome]. apply IH.
Qed.

(** The loop either runs to its end, every start time being a date, or
    is ended by the first one that is none. *)
Lemma forEachPeriod_cases periods m :
  (Forall (λ p, dated p) periods ∧
   forEachPeriod periods m = inr (placeAll (keyOf formatDateKey) periods m)) ∨
  (∃ before p after error,
     periods = before ++ p :: after ∧ Forall (λ q, dated q) before ∧
     formatDateKey (startTime p) = inl error ∧
     forEachPeriod periods m = inl error).
Proof.
  assert (Hsplit : Forall (λ p, dated p) periods ∨
            ∃ before p after error,
              periods = before ++ p :: after ∧ Forall (λ q, dated q) before ∧
              formatDateKey (startTime p) = inl error).
  { induction periods as [| p periods IH]; [left; constructor|].
    destruct (formatDateKey (startTime p)) as [error | k] eqn:Hp.
    - right. exists [], p, periods, error. by repeat split.
    - destruct IH as [Hall | (before & q & after & error & -> & Hall & Hq)].
      + left. constructor; eauto.
      + right. exists (p :: before), q, after, error.
        split; [done|]. split; [constructor; eauto | done]. }
  destruct Hsplit as [Hall | (before & p & after & error & -> & Hall & Hp)].
  - left. split; [done | by apply forEachPeriod_dated].
  - right. exists before, p, after, error.
    repeat (split; [done|]). by apply forEachPeriod_undated.
Qed.

Lemma foldDaily_inr periods m :
  foldDaily periods = inr m →
  Forall (λ p, dated p) periods ∧ m = placeAll (keyOf formatDateKey) periods [].
Proof.
  unfold Nws.foldDaily. intros H.
  destruct (forEachPeriod_cases periods [])
    as [[Hall E] | (before & p & after & error & _ & _ & _ & E)];
    rewrite E in H; [|discriminate].
  injection H as <-. done.
Qed.

(** The key of a period whose start time is a date. *)
Lemma keyOf_iff p k :
  dated p → keyOf formatDateKey (startTime p) = k ↔ formatDateKey (startTime p) = inr k.
Proof.
  intros Hp. rewrite (dated_keyOf p Hp). split; [by intros -> | by intros [=]].
Qed.

(** A request made through [fetchJson] delivers a body exactly when the
    service replied, with a status in the range 200 to 299, a body that
    parses. *)
Lemma fetchJson_delivers {T : Type} (fetch : string → Settled (HttpResponse T)) url body :
  outcome (fetchJson fetch url) = inr body ↔
  ∃ reply, outcome (fetch url) = inr reply ∧ ok reply = true ∧
           outcome (json reply) = inr body.
Proof.
  unfold fetchJson. destruct (outcome (fetch url)) as [e | reply]; simpl.
  - split; [discriminate | by intros (? & [=] & _)].
  - destruct (ok reply) eqn:Hok; simpl.
    + split; [eauto | by intros (? & [= <-] & _ & ?)].
    + split; [discriminate | intros (? & [= <-] & ? & _); congruence].
Qed.

Lemma Promise_all3_delivers {A B C : Type}
    (a : Settled A) (b : Settled B) (c : Settled C) x y z :
  Promise_all3 a b c = inr (x, y, z) ↔
  outcome a = inr x ∧ outcome b = inr y ∧ outcome c = inr z.
Proof.
  unfold Promise_all3.
  destruct (outcome a) as [ea | xa] eqn:Ha, (outcome b) as [eb | yb] eqn:Hb,
           (outcome c) as [ec | zc] eqn:Hc;
    try (split; [intros [=]; by subst | intros ([=] & [=] & [=]); by subst]);
    (split; [|by intros ([=] & [=] & [=])]);
    unfold rejection; rewrite ?Ha, ?Hb, ?Hc; simpl;
    repeat match goal with |- context [if ?c then _ else _] => destruct c end;
    discriminate.
Qed.

(** The aggregation from the moment the point, the two forecasts and the
    station list are in. *)
Lemma getWeatherByCoords_delivered net lat lon overrideName points fc hr stations :
  outcome (fetchJson (fetch_points net) (pointsUrl Number_toString lat lon))
    = inr points →
  Promise_all3 (fetchJson (fetch_forecast net) (forecast points))
               (fetchJson (fetch_hourly net) (forecastHourly points))
               (fetchJson (fetch_stations net) (observationStations points))
    = inr (fc, hr, stations) →
  getWeatherByCoords net lat lon overrideName =
    await observation <-
      match firstStationId stations with
      | Some id =>
          if truthy id
          then await o <-
                 outcome (fetchJson (fetch_observation net) (observationUrl id)) in
               inr (Some o)
          else inr None
      | None => inr None
      end in
    await dailyMap <- foldDaily (forecast_periods fc) in
    inr (buildPayload lat lon overrideName points fc hr observation dailyMap).
Proof.
  intros Hpoints Hall. unfold Nws.getWeatherByCoords.
  rewrite Hpoints. cbn [bindOutcome]. rewrite Hall. by cbn [bindOutcome].
Qed.

(** C7, as amended: where the start time of every daily period is a date,
    the periods fold into one entry per calendar day, the day being the
    date key of a period's start time: a daytime period sets the high
    temperature, the icon and the summary of its day, a nighttime period
    sets the low temperature and fills the summary only when it is empty,
    other days are left alone; a daytime and a nighttime period of one day
    fold to one entry with the high of the first and the low of the
    second; a payload returned keeps the first 7 days of that fold and the
    first 48 hourly periods.  The first period whose start time is no
    date ends the fold with the error of the date formatting, and the
    aggregation then returns no payload. *)
Theorem daily_fold_one_entry_per_day :
  (∀ lat lon overrideName points fc hr observation dailyMap,
     daily (buildPayload lat lon overrideName points fc hr observation dailyMap) =
       firstn 7 (Map_values dailyMap) ∧
     (length (daily (buildPayload lat lon overrideName points fc hr observation
                       dailyMap)) ≤ 7)%nat ∧
     hourly (buildPayload lat lon overrideName points fc hr observation dailyMap) =
       map toHourlyEntry (firstn 48 (hourly_periods hr)) ∧
     (length (hourly (buildPayload lat lon overrideName points fc hr observation
                        dailyMap)) ≤ 48)%nat) ∧
  (∀ periods,
     (∀ p, p ∈ periods → ∃ k, formatDateKey (startTime p) = inr k) →
     ∃ m,
       foldDaily periods = inr m ∧
       NoDup (Map_keys m) ∧
       length (Map_values m) = length (Map_keys m) ∧
       ∀ k, k ∈ Map_keys m ↔
            ∃ p, p ∈ periods ∧ formatDateKey (startTime p) = inr k) ∧
  (∀ m p k,
     formatDateKey (startTime p) = inr k →
     let before := default (freshEntry p) (Map_get m k) in
     ∃ m',
       foldPeriod m p = inr m' ∧
       (∃ entry,
          Map_get m' k = Some entry ∧
          date entry = date before ∧ day_name entry = day_name before ∧
          (isDaytime p = true →
           highF entry = Some (temperature p) ∧ day_icon entry = icon p ∧
           summary entry = shortForecast p ∧ lowF entry = lowF before) ∧
          (isDaytime p = false →
           lowF entry = Some (temperature p) ∧
           summary entry =
             (if truthy (summary before) then summary before else shortForecast p) ∧
           highF entry = highF before ∧ day_icon entry = day_icon before)) ∧
       (∀ k', k ≠ k' → Map_get m' k' = Map_get m k')) ∧
  (∀ pd pn k,
     isDaytime pd = true → isDaytime pn = false →
     formatDateKey (startTime pd) = inr k →
     formatDateKey (startTime pn) = inr k →
     ∃ m,
       foldDaily [pd; pn] = inr m ∧
       Map_values m =
         [{| date := startTime pd; day_name := name pd;
             highF := Some (temperature pd); lowF := Some (temperature pn);
             summary := orElse (shortForecast pd) (shortForecast pn);
             day_icon := icon pd |}]) ∧
  (∀ before p after error,
     (∀ q, q ∈ before → ∃ k, formatDateKey (startTime q) = inr k) →
     formatDateKey (startTime p) = inl error →
     foldDaily (before ++ p :: after) = inl error) ∧
  (∀ net lat lon overrideName payload,
     getWeatherByCoords net lat lon overrideName = inr payload →
     ∃ points fc hr m,
       outcome (fetchJson (fetch_points net) (pointsUrl Number_toString lat lon))
         = inr points ∧
       outcome (fetchJson (fetch_forecast net) (forecast points)) = inr fc ∧
       outcome (fetchJson (fetch_hourly net) (forecastHourly points)) = inr hr ∧
       foldDaily (forecast_periods fc) = inr m ∧
       daily payload = firstn 7 (Map_values m) ∧
       hourly payload = map toHourlyEntry (firstn 48 (hourly_periods hr))) ∧
  (∀ net lat lon overrideName points fc error,
     outcome (fetchJson (fetch_points net) (pointsUrl Number_toString lat lon))
       = inr points →
     outcome (fetchJson (fetch_forecast net) (forecast points)) = inr fc →
     foldDaily (forecast_periods fc) = inl error →
     ∃ thrown, getWeatherByCoords net lat lon overrideName = inl thrown).
Proof.
  repeat apply conj.
  - intros. simpl. repeat split.
    + rewrite length_firstn. lia.
    + rewrite length_map, length_firstn. lia.
  - intros periods Hall. apply Forall_forall in Hall.
    exists (placeAll (keyOf formatDateKey) periods []).
    split; [by apply forEachPeriod_dated|].
    destruct (placed_keys (keyOf formatDateKey) periods) as [Hnd Hk].
    split; [done|]. split.
    + unfold Map_values, Map_keys. by rewrite !length_map.
    + intros k. rewrite (Hk k). split; intros (p & Hp & Hkey); exists p;
        (split; [done|]); apply keyOf_iff; try done;
        by apply (proj1 (Forall_forall _ _) Hall).
  - intros m p k Hk before. exists (placePeriod m k p).
    split; [unfold Nws.foldPeriod; by rewrite Hk|].
    rewrite placePeriod_unfold. fold before. split.
    + rewrite Map_get_set_eq. eexists. split; [reflexivity|].
      unfold applyPeriod.
      destruct (isDaytime p); simpl; (split; [done|]); (split; [done|]);
        split; intros [=]; repeat split; reflexivity.
    + intros k' Hne. rewrite Map_get_set_ne by done.
      destruct (Map_has m k); [done|]. by rewrite Map_get_set_ne.
  - intros pd pn k Hd Hn Hkd Hkn. eexists. split.
    + unfold Nws.foldDaily. cbn [Nws.forEachPeriod]. unfold Nws.foldPeriod.
      rewrite Hkd. cbn [bindOutcome]. rewrite Hkn. cbn [bindOutcome]. reflexivity.
    + rewrite !placePeriod_unfold. unfold Map_has. simpl.
      repeat (rewrite String.eqb_refl; simpl).
      unfold applyPeriod. rewrite Hd, Hn. simpl.
      repeat (rewrite String.eqb_refl; simpl). reflexivity.
  - intros before p after error Hall Hp. apply forEachPeriod_undated; [|done].
    by apply Forall_forall.
  - intros net lat lon overrideName payload H. unfold Nws.getWeatherByCoords in H.
    destruct (outcome (fetchJson (fetch_points net) (pointsUrl Number_toString lat lon)))
      as [e | points] eqn:Hpoints; [discriminate|]. cbn [bindOutcome] in H.
    destruct (Promise_all3 (fetchJson (fetch_forecast net) (forecast points))
                (fetchJson (fetch_hourly net) (forecastHourly points))
                (fetchJson (fetch_stations net) (observationStations points)))
      as [e | [[fc hr] stations]] eqn:Hall; [discriminate|]. cbn [bindOutcome] in H.
    apply Promise_all3_delivers in Hall as (Hfc & Hhr & Hst).
    match type of H with
    | bindOutcome ?stage _ = _ => destruct stage as [e | observation]
    end; [discriminate|]. cbn [bindOutcome] in H.
    destruct (foldDaily (forecast_periods fc)) as [e | m] eqn:Hfold; [discriminate|].
    injection H as <-. exists points, fc, hr, m. by repeat split.
  - intros net lat lon overrideName points fc error Hpoints Hfc Hfold.
    unfold Nws.getWeatherByCoords. rewrite Hpoints. cbn [bindOutcome].
    destruct (Promise_all3 (fetchJson (fetch_forecast net) (forecast points))
                (fetchJson (fetch_hourly net) (forecastHourly points))
                (fetchJson (fetch_stations net) (observationStations points)))
      as [e | [[fc' hr] stations]] eqn:Hall; [by eexists|]. cbn [bindOutcome].
    apply Promise_all3_delivers in Hall as (Hfc' & Hhr & Hst).
    rewrite Hfc in Hfc'. injection Hfc' as <-.
    match goal with
    | |- ∃ _, bindOutcome ?stage _ = _ => destruct stage as [e | observation]
    end; [by eexists|]. cbn [bindOutcome].
    rewrite Hfold. by eexists.
Qed.

(** The current conditions of a payload built without an observation:
    the temperature and the short forecast of the first hourly period,
    every other reading [null]. *)
Lemma current_without_observation lat lon overrideName points fc hr dailyMap :
  current (buildPayload lat lon overrideName points fc hr None dailyMap) =
    {| temperatureF :=
         option_map (fun h => temperature (period h)) (head (hourly_periods hr));
       feelsLikeF := None;
       condition :=
         match head (hourly_periods hr) with
         | Some h => shortForecast (period h)
         | None => "Current conditions"
         end;
       humidity := None;
       windSpeedMph := None;
       windGustMph := None;
       cur_windDirection := JsNull;
       dewPointF := None;
       pressureInHg := None;
       visibilityMiles := None;
       observedAt := None |}.
Proof. simpl. by destruct (hourly_periods hr). Qed.

(** C1, as amended: once the point, the two forecasts and the station list
    are in, a station list that is empty, or whose first station has an
    empty identifier, yields, where the start time of every daily period
    is a date, a payload whose current conditions come from the first
    hourly period (its temperature and its short forecast, every other
    reading [null]), and where one is no date, the error of the date
    formatting; when the first station is asked for its latest
    observation and that request fails, the aggregation throws the error
    of that request. *)
Theorem absent_station_degrades_failed_observation_throws
    net lat lon overrideName points fc hr stations :
  outcome (fetchJson (fetch_points net) (pointsUrl Number_toString lat lon))
    = inr points →
  Promise_all3 (fetchJson (fetch_forecast net) (forecast points))
               (fetchJson (fetch_hourly net) (forecastHourly points))
               (fetchJson (fetch_stations net) (observationStations points))
    = inr (fc, hr, stations) →
  ((features stations = [] ∨
    ∃ station others,
      features stations = station :: others ∧
      truthy (stationIdentifier station) = false) →
   ((∀ p, p ∈ forecast_periods fc → ∃ k, formatDateKey (startTime p) = inr k) →
    ∃ dailyMap,
      foldDaily (forecast_periods fc) = inr dailyMap ∧
      getWeatherByCoords net lat lon overrideName
        = inr (buildPayload lat lon overrideName points fc hr None dailyMap) ∧
      current (buildPayload lat lon overrideName points fc hr None dailyMap) =
        {| temperatureF :=
             option_map (fun h => temperature (period h)) (head (hourly_periods hr));
           feelsLikeF := None;
           condition :=
             match head (hourly_periods hr) with
             | Some h => shortForecast (period h)
             | None => "Current conditions"
             end;
           humidity := None;
           windSpeedMph := None;
           windGustMph := None;
           cur_windDirection := JsNull;
           dewPointF := None;
           pressureInHg := None;
           visibilityMiles := None;
           observedAt := None |}) ∧
   (∀ before p after error,
      forecast_periods fc = before ++ p :: after →
      (∀ q, q ∈ before → ∃ k, formatDateKey (startTime q) = inr k) →
      formatDateKey (startTime p) = inl error →
      getWeatherByCoords net lat lon overrideName = inl error)) ∧
  (∀ station others error,
     features stations = station :: others →
     truthy (stationIdentifier station) = true →
     outcome (fetchJson (fetch_observation net)
                (observationUrl (stationIdentifier station))) = inl error →
     getWeatherByCoords net lat lon overrideName = inl error).
Proof.
  intros Hpoints Hall.
  rewrite (getWeatherByCoords_delivered net lat lon overrideName
             points fc hr stations Hpoints Hall).
  split.
  - intros Hnone.
    assert (Hstage : firstStationId stations = None ∨
              ∃ id, firstStationId stations = Some id ∧ truthy id = false).
    { unfold firstStationId.
      destruct Hnone as [-> | (station & others & -> & Hid)]; [by left|].
      right. by exists (stationIdentifier station). }
    split.
    + intros Hdated. apply Forall_forall in Hdated.
      exists (placeAll (keyOf formatDateKey) (forecast_periods fc) []).
      split; [by apply forEachPeriod_dated|].
      split; [|apply current_without_observation].
      destruct Hstage as [-> | (id & -> & ->)]; cbn [bindOutcome];
        unfold Nws.foldDaily; by rewrite forEachPeriod_dated.
    + intros before p after error Hfc Hdated Hp.
      apply Forall_forall in Hdated.
      destruct Hstage as [-> | (id & -> & ->)]; cbn [bindOutcome];
        unfold Nws.foldDaily; rewrite Hfc;
        by rewrite (forEachPeriod_undated before p after [] error).
  - intros station others error Hst Hid Hobs.
    unfold firstStationId. rewrite Hst. simpl. rewrite Hid.
    by rewrite Hobs.
Qed.

End AggregatorFacts.

(* ===================================================================== *)
(** * Properties of the retry wrapper and of the bucket keys *)
(* ===================================================================== *)

Section PipelineFacts.
Import JsNum Nws Pipeline.
Variable Number_toString : Number -> string.
Variable formatDateKey : string -> Outcome string.

Abbreviation attempt := (Pipeline.attempt Number_toString formatDateKey).
Abbreviation fetchWithRetry := (Pipeline.fetchWithRetry Number_toString formatDateKey).
Abbreviation coordsBucketKey := (Pipeline.coordsBucketKey Number_toString).

(** C5: [fetchWithRetry] calls the aggregator at once, then after a pause
    of 300 ms, then after a further pause of 800 ms, always with the same
    coordinates, and stops at the first call that succeeds, whose payload
    it returns; a service that fails twice and then succeeds is called
    exactly three times; when all three calls fail the error of the third
    is thrown as it is; the aggregator is never called more than three
    times. *)
Theorem fetchWithRetry_schedule nets lat lon :
  (∀ payload,
     attempt nets lat lon 0%nat = inr payload →
     fetchWithRetry nets lat lon = ([Aggregate 0], inr payload)) ∧
  (∀ e0 payload,
     attempt nets lat lon 0%nat = inl e0 →
     attempt nets lat lon 1%nat = inr payload →
     fetchWithRetry nets lat lon =
       ([Aggregate 0; Sleep 300; Aggregate 1], inr payload)) ∧
  (∀ e0 e1 payload,
     attempt nets lat lon 0%nat = inl e0 →
     attempt nets lat lon 1%nat = inl e1 →
     attempt nets lat lon 2%nat = inr payload →
     fetchWithRetry nets lat lon =
       ([Aggregate 0; Sleep 300; Aggregate 1; Sleep 800; Aggregate 2], inr payload) ∧
     aggregateCalls (fst (fetchWithRetry nets lat lon)) = 3%nat) ∧
  (∀ e0 e1 e2,
     attempt nets lat lon 0%nat = inl e0 →
     attempt nets lat lon 1%nat = inl e1 →
     attempt nets lat lon 2%nat = inl e2 →
     fetchWithRetry nets lat lon =
       ([Aggregate 0; Sleep 300; Aggregate 1; Sleep 800; Aggregate 2], inl e2)) ∧
  (aggregateCalls (fst (fetchWithRetry nets lat lon)) ≤ 3)%nat.
Proof.
  unfold Pipeline.fetchWithRetry. simpl.
  destruct (attempt nets lat lon 0%nat) as [e0|p0] eqn:H0;
    [destruct (attempt nets lat lon 1%nat) as [e1|p1] eqn:H1;
       [destruct (attempt nets lat lon 2%nat) as [e2|p2] eqn:H2|]|];
    simpl; repeat apply conj; intros; simplify_eq; simpl; done || lia.
Qed.

(** C8, as amended: [getWeatherSnapshot] uses the key [default];
    [getWeatherSnapshotByCoords] uses [coords:] followed by the renderings
    of latitude and longitude at three decimals with a comma between,
    which is never the key [default]; and two pairs of coordinates whose
    latitudes, and whose longitudes, round to the same value at three
    decimals and, where that value is zero, are both negative or both not,
    get the same key. *)
Theorem bucket_key_of_rounded_coordinates :
  (∀ clock, getWeatherSnapshot clock = Call "default" (None, None) None clock) ∧
  (∀ lat lon overrideName clock,
     getWeatherSnapshotByCoords Number_toString lat lon overrideName clock =
       Call ("coords:" ++ (toFixed Number_toString lat 3 ++ ","
                             ++ toFixed Number_toString lon 3))%string
            (Some lat, Some lon) overrideName clock) ∧
  (∀ lat lon, coordsBucketKey lat lon ≠ "default") ∧
  (∀ lat1 lon1 lat2 lon2,
     fixedRange lat1 = true → fixedRange lon1 = true →
     fixedRange lat2 = true → fixedRange lon2 = true →
     roundedAt 3 lat1 = roundedAt 3 lat2 →
     roundedAt 3 lon1 = roundedAt 3 lon2 →
     (roundedAt 3 lat1 = Some 0 → ltZero lat1 = ltZero lat2) →
     (roundedAt 3 lon1 = Some 0 → ltZero lon1 = ltZero lon2) →
     coordsBucketKey lat1 lon1 = coordsBucketKey lat2 lon2).
Proof.
  repeat apply conj.
  - reflexivity.
  - reflexivity.
  - intros lat lon. unfold Pipeline.coordsBucketKey. simpl. discriminate.
  - intros lat1 lon1 lat2 lon2 Ha1 Ho1 Ha2 Ho2 Hlat Hlon Hslat Hslon.
    unfold Pipeline.coordsBucketKey.
    rewrite (toFixed_same Number_toString 3 lat1 lat2) by done.
    by rewrite (toFixed_same Number_toString 3 lon1 lon2).
Qed.

End PipelineFacts.

(* ===================================================================== *)
(** * The properties at concrete inputs *)
(* ===================================================================== *)

Section Runs.
Import JsNum Nws Pipeline Samples.

Lemma fetchedTrace_runs :
  run sampleISO initial fetchedTrace = Some (stateOf fetchedTrace).
Proof. vm_compute. reflexivity. Qed.

Lemma failedRefetchTrace_runs :
  run sampleISO initial failedRefetchTrace = Some (stateOf failedRefetchTrace).
Proof. vm_compute. reflexivity. Qed.

Lemma fetched_reachable : Pipeline.reachable sampleISO (stateOf fetchedTrace).
Proof.
  exact (run_reachable sampleISO initial fetchedTrace _
           (reachable_initial sampleISO) fetchedTrace_runs).
Qed.

Lemma failedRefetch_reachable :
  Pipeline.reachable sampleISO (stateOf failedRefetchTrace).
Proof.
  exact (run_reachable sampleISO initial failedRefetchTrace _
           (reachable_initial sampleISO) failedRefetchTrace_runs).
Qed.

Lemma sampleForecast_dated p :
  p ∈ forecast_periods sampleForecast → ∃ k, sampleDateKey (startTime p) = inr k.
Proof.
  intros [-> | [-> | Hp%elem_of_nil]%elem_of_cons]%elem_of_cons; [| |done];
    eexists; vm_compute; reflexivity.
Qed.

Lemma sampleDaily_folded :
  Nws.foldDaily sampleDateKey (forecast_periods sampleForecast) = inr sampleDaily.
Proof. vm_compute. reflexivity. Qed.

(** C1 at a service that lists no station: the payload is built without
    an observation, its current conditions read off the first hourly
    period. *)
Lemma absent_station_degrades_run :
  ∃ dailyMap,
    Nws.foldDaily sampleDateKey (forecast_periods sampleForecast) = inr dailyMap ∧
    Nws.getWeatherByCoords sampleToString sampleDateKey netNoStation
        NYC_COORDS_lat NYC_COORDS_lon None
      = inr (Nws.buildPayload NYC_COORDS_lat NYC_COORDS_lon None
               samplePoints sampleForecast sampleHourly None dailyMap) ∧
    current (Nws.buildPayload NYC_COORDS_lat NYC_COORDS_lon None
               samplePoints sampleForecast sampleHourly None dailyMap) =
      {| temperatureF := Some (ofZ 80); feelsLikeF := None; condition := "Sunny";
         humidity := None; windSpeedMph := None; windGustMph := None;
         cur_windDirection := JsNull; dewPointF := None; pressureInHg := None;
         visibilityMiles := None; observedAt := None |}.
Proof.
  exact (proj1 (proj1 (absent_station_degrades_failed_observation_throws
                         sampleToString sampleDateKey netNoStation
                         NYC_COORDS_lat NYC_COORDS_lon None
                         samplePoints sampleForecast sampleHourly noStations
                         eq_refl eq_refl) (or_introl eq_refl))
           sampleForecast_dated).
Defined.

(** C1 as first stated fails where the one station listed cannot be asked
    for its latest observation: the aggregation throws the error of that
    request and returns no payload.  It fails too where no station is
    listed and a daily period has a start time that is no date: the
    aggregation throws the error of the date formatting. *)
Lemma failed_observation_throws_run :
  (firstStationId oneStation = Some "KNYC" ∧
   outcome (fetchJson (fetch_observation netObservationDown) (observationUrl "KNYC"))
     = inl (ExnError
              "NWS request failed: 500 https://api.weather.gov/stations/KNYC/observations/latest") ∧
   Nws.getWeatherByCoords sampleToString sampleDateKey netObservationDown
       NYC_COORDS_lat NYC_COORDS_lon None
     = inl (ExnError
              "NWS request failed: 500 https://api.weather.gov/stations/KNYC/observations/latest")) ∧
  (features noStations = [] ∧
   sampleDateKey (startTime undatedPeriod) = inl (ExnError "Invalid time value") ∧
   Nws.getWeatherByCoords sampleToString sampleDateKey netUndated
       NYC_COORDS_lat NYC_COORDS_lon None
     = inl (ExnError "Invalid time value")).
Proof. repeat split; vm_compute; reflexivity. Qed.

(** C2 at the empty cache: two calls in a row for the default bucket call
    the fetcher once and both await promise 0. *)
Lemma two_calls_one_fetch_run :
  ∃ s',
    run sampleISO initial
      [Call "default" (None, None) None (reads 1000);
       Call "default" (None, None) None (reads 1001)] = Some s' ∧
    promises s' = promises initial ++
      [{| p_bucket := "default"; p_fetcher := (None, None);
          p_outcome := None; p_settled := false |}] ∧
    invocations s' "default" = S (invocations initial "default") ∧
    requests s' = requests initial ++
      [{| req_bucket := "default"; req_overrideName := None;
          req_now := reads 1000 0%nat;
          req_status := Awaiting (length (promises initial)) |};
       {| req_bucket := "default"; req_overrideName := None;
          req_now := reads 1001 0%nat;
          req_status := Awaiting (length (promises initial)) |}].
Proof.
  apply (proj2 (proj2 (proj2 (proj2 (single_flight_per_bucket sampleISO initial))))).
  left. reflexivity.
Defined.

(** C3 ten minutes after a successful fetch: the request whose refetch
    failed is served the payload of that fetch, tagged [stale]. *)
Lemma failed_refetch_serves_stale_run :
  ∃ b result,
    cacheBuckets (stateOf failedRefetchTrace) !! "default" = Some b ∧
    step sampleISO (stateOf failedRefetchTrace) (Resume 1 (reads 602001)) =
      Some {| cacheBuckets := cacheBuckets (stateOf failedRefetchTrace);
              promises := promises (stateOf failedRefetchTrace);
              requests :=
                <[1%nat := {| req_bucket := "default"; req_overrideName := None;
                              req_now := 602000;
                              req_status := Returned result |}]>
                  (requests (stateOf failedRefetchTrace)) |} ∧
    result = inr {| snap_data := samplePayload;
                    snap_meta := {| source := stale;
                                    meta_fetchedAt := sampleISO 2000;
                                    ageMs := 602001 - 2000 |} |}.
Proof.
  destruct (failed_fetch_serves_stale_or_throws sampleISO
              (stateOf failedRefetchTrace) 1 (reads 602001)
              {| req_bucket := "default"; req_overrideName := None;
                 req_now := 602000; req_status := Awaiting 1 |}
              1
              {| p_bucket := "default"; p_fetcher := (None, None);
                 p_outcome := Some (inl (ExnError "fetch failed"));
                 p_settled := true |}
              (ExnError "fetch failed")
              failedRefetch_reachable)
    as (b & result & Hb & Hstep & _ & Hstale & _);
    try (vm_compute; reflexivity).
  exists b, result. split; [exact Hb|]. split; [exact Hstep|].
  vm_compute in Hb. injection Hb as <-.
  apply (Hstale fetchedEntry);
    vm_compute; reflexivity.
Defined.

(** C4 a hundred seconds after a successful fetch: the request is served
    from the cache and no promise is created. *)
Lemma fresh_entry_served_run :
  CACHE_TTL_MS = 300000 ∧
  applyOverrideName samplePayload None = samplePayload ∧
  step sampleISO (stateOf fetchedTrace)
       (Call "default" (None, None) None (reads 102000)) =
    Some {| cacheBuckets := cacheBuckets (stateOf fetchedTrace);
            promises := promises (stateOf fetchedTrace);
            requests := requests (stateOf fetchedTrace) ++
              [{| req_bucket := "default"; req_overrideName := None;
                  req_now := 102000;
                  req_status := Returned (inr
                    {| snap_data := applyOverrideName samplePayload None;
                       snap_meta :=
                         {| source := cached;
                            meta_fetchedAt := sampleISO 2000;
                            ageMs := 102000 - 2000 |} |}) |}] |}.
Proof.
  apply (fresh_entry_served_without_fetch sampleISO (stateOf fetchedTrace)
           "default" (None, None) None (reads 102000)
           fetchedBucket fetchedEntry);
    vm_compute; reflexivity.
Defined.

(** C5 at a service that is down twice and then up: three calls, the
    payload of the third. *)
Lemma fails_twice_then_succeeds_run :
  Pipeline.fetchWithRetry sampleToString sampleDateKey netsUpAtThird None None =
    ([Aggregate 0; Sleep 300; Aggregate 1; Sleep 800; Aggregate 2],
     inr (Nws.buildPayload NYC_COORDS_lat NYC_COORDS_lon
            (Some "New York, NY") samplePoints sampleForecast sampleHourly None
            sampleDaily)) ∧
  aggregateCalls
    (fst (Pipeline.fetchWithRetry sampleToString sampleDateKey netsUpAtThird None None))
    = 3%nat.
Proof.
  apply (proj1 (proj2 (proj2 (fetchWithRetry_schedule sampleToString sampleDateKey
                                netsUpAtThird None None)))
           (ExnError "fetch failed") (ExnError "fetch failed"));
    reflexivity.
Defined.


(** C7 at a day and a night period of 6 May: one entry, high 80, low 60. *)
Lemma day_and_night_fold_run :
  ∃ m,
    Nws.foldDaily sampleDateKey [dayPeriod; nightPeriod] = inr m ∧
    Map_values m =
      [{| date := startTime dayPeriod; day_name := name dayPeriod;
          highF := Some (temperature dayPeriod);
          lowF := Some (temperature nightPeriod);
          summary := orElse (shortForecast dayPeriod) (shortForecast nightPeriod);
          day_icon := icon dayPeriod |}].
Proof.
  apply (proj1 (proj2 (proj2 (proj2 (daily_fold_one_entry_per_day
                                       sampleToString sampleDateKey))))
           dayPeriod nightPeriod "05/06/2024");
    reflexivity.
Defined.

(** C7 as first stated fails at a period list in which a start time is
    no date: the daytime period [undatedPeriod] sets no high temperature
    of any day, the fold is ended by the error of the date formatting,
    and the aggregation returns no payload. *)
Lemma undated_period_ends_fold_run :
  isDaytime undatedPeriod = true ∧
  sampleDateKey (startTime undatedPeriod) = inl (ExnError "Invalid time value") ∧
  Nws.foldDaily sampleDateKey [dayPeriod; undatedPeriod]
    = inl (ExnError "Invalid time value") ∧
  forecast_periods undatedForecast = [dayPeriod; undatedPeriod] ∧
  Nws.getWeatherByCoords sampleToString sampleDateKey netUndated
      NYC_COORDS_lat NYC_COORDS_lon None
    = inl (ExnError "Invalid time value").
Proof. repeat split; vm_compute; reflexivity. Qed.

(** C8 at 40.7128 and 40.7131 north, both 40.713 at three decimals: one
    key. *)
Lemma same_cell_same_key_run :
  Pipeline.coordsBucketKey sampleToString (ofDecimal 407128 4) NYC_COORDS_lon =
  Pipeline.coordsBucketKey sampleToString (ofDecimal 407131 4) NYC_COORDS_lon.
Proof.
  apply (proj2 (proj2 (proj2 (bucket_key_of_rounded_coordinates sampleToString))));
    vm_compute; (reflexivity || discriminate).
Defined.

(** C8 as first stated fails at the cell of zero: a ten-thousandth of a
    degree south and one north of the equator both round to 0.000, and get
    different keys. *)
Lemma signed_zero_cell_splits_run :
  fixedRange (ofDecimal (-1) 4) = true ∧ fixedRange (ofDecimal 1 4) = true ∧
  roundedAt 3 (ofDecimal (-1) 4) = Some 0 ∧ roundedAt 3 (ofDecimal 1 4) = Some 0 ∧
  Pipeline.coordsBucketKey sampleToString (ofDecimal (-1) 4) (ofZ 0)
    = "coords:-0.000,0.000" ∧
  Pipeline.coordsBucketKey sampleToString (ofDecimal 1 4) (ofZ 0)
    = "coords:0.000,0.000".
Proof. repeat split; vm_compute; reflexivity. Qed.

(** C9 at 200 degrees: the quotient rounds to 9, the entry is SSW. *)
Lemma cardinal_of_200_run :
  ∃ d, nth_error directions (Z.to_nat (9 mod 16)) = Some d ∧
       degreesToCardinal (Some (ofZ 200)) = Js d.
Proof.
  apply (proj2 (proj2 (proj2 (proj2 (proj2 degreesToCardinal_compass))))
           (ofZ 200) 9);
    try (vm_compute; reflexivity). lia.
Defined.

(** C9 as first stated fails at -90 degrees: the quotient rounds to -4,
    the entry at -4 modulo 16 would be W, and the function returns
    [undefined]. *)
Lemma cardinal_of_minus_90_run :
  isNaN (ofZ (-90)) = false ∧
  toInteger (Math_round (div (ofZ (-90)) (ofDecimal 225 1))) = Some (-4) ∧
  nth_error directions (Z.to_nat (-4 mod 16)) = Some "W" ∧
  degreesToCardinal (Some (ofZ (-90))) = JsUndefined.
Proof. repeat split; vm_compute; reflexivity. Qed.

(** C10 after a successful fetch: both slots hold the one entry. *)
Lemma slots_agree_run :
  cache fetchedBucket = lastGood fetchedBucket ∧
  nullish (lastGood fetchedBucket) (cache fetchedBucket) = lastGood fetchedBucket.
Proof.
  apply (cache_and_lastGood_agree sampleISO (stateOf fetchedTrace) "default").
  - exact fetched_reachable.
  - vm_compute. reflexivity.
Defined.

End Runs.

(* ===================================================================== *)
(** * Further properties of the snapshot cache *)
(* ===================================================================== *)

Section CacheProvenance.
Import JsNum Nws Pipeline Notions.
Variable toISOString : Z -> string.

Abbreviation step := (Pipeline.step toISOString).
Abbreviation run := (Pipeline.run toISOString).
Abbreviation reachable := (Pipeline.reachable toISOString).

(** Two look-ups of one place find the same thing. *)
Ltac one_lookup :=
  match goal with
  | H1 : ?a = Some ?x, H2 : ?a = Some ?y |- _ =>
      rewrite H1 in H2; injection H2 as ?; subst
  end.

Lemma provenance_initial : provenance initial.
Proof.
  split; simpl; intros *; rewrite ?lookup_empty, ?lookup_nil; discriminate.
Qed.

Lemma provenance_step s ev s' :
  provenance s → step s ev = Some s' → provenance s'.
Proof.
  intros [Hef Hfe] Hstep. destruct ev as [key f o clock | p payload clock | p error | p | r clock];
    simpl in Hstep.
  - injection Hstep as <-.
    destruct (enter_cases toISOString s key f o clock)
      as [(b & c & Hb & Hf & ->) | [(b & q & Hb & Hf & Hi & ->) | (b & Hb & Hf & Hi & ->)]];
      simpl; [by split | by split |].
    split; simpl.
    + intros k b' e Hk He.
      assert (∃ b0, cacheBuckets s !! k = Some b0 ∧ cache b0 = Some e) as (b0 & Hb0 & He0).
      { destruct (decide (k = key)) as [-> | Hne].
        - rewrite lookup_insert_eq in Hk. injection Hk as <-. simpl in He.
          destruct Hb as [Hb | [_ ->]]; [eauto | discriminate].
        - rewrite lookup_insert_ne in Hk by done. eauto. }
      destruct (Hef _ _ _ Hb0 He0) as (q & qr & Hq & Hqb & Hqo).
      exists q, qr. split; [|done]. by apply lookup_app_l_Some.
    + intros q qr payload Hq Hqo.
      assert (promises s !! q = Some qr) as Hq0.
      { apply lookup_app_Some in Hq as [Hq | [_ Hq]]; [done|].
        apply list_lookup_singleton_Some in Hq as [_ <-]. discriminate. }
      destruct (Hfe _ _ _ Hq0 Hqo) as (b0 & e & Hb0 & He0).
      destruct (decide (p_bucket qr = key)) as [Heq | Hne].
      * rewrite Heq in *. rewrite lookup_insert_eq. eexists _, e. split; [done|]. simpl.
        destruct Hb as [Hb | [Hb _]]; congruence.
      * rewrite lookup_insert_ne by done. eauto.
  - apply onFulfilled_Some in Hstep as (pr & b & Hp & Ho & Hb & ->). split; simpl.
    + intros k b' e Hk He. destruct (decide (k = p_bucket pr)) as [-> | Hne].
      * rewrite lookup_insert_eq in Hk. injection Hk as <-. simpl in He.
        injection He as <-. simpl. exists p, (setOutcome pr (inr payload)).
        split; [|done]. apply list_lookup_insert_eq. by eapply lookup_lt_Some.
      * rewrite lookup_insert_ne in Hk by done.
        destruct (Hef _ _ _ Hk He) as (q & qr & Hq & Hqb & Hqo).
        exists q, qr. split; [|done].
        rewrite list_lookup_insert_ne; [done|]. intros <-. congruence.
    + intros q qr payload' Hq Hqo.
      destruct (lookup_replaced _ _ _ _ _ Hq) as [(-> & -> & _) | (Hne & Hq0)]; simpl.
      * rewrite lookup_insert_eq. eauto.
      * destruct (Hfe _ _ _ Hq0 Hqo) as (b0 & e & Hb0 & He0).
        destruct (decide (p_bucket qr = p_bucket pr)) as [Heq | Hnb].
        -- rewrite Heq, lookup_insert_eq. eauto.
        -- rewrite lookup_insert_ne by done. eauto.
  - apply onRejected_Some in Hstep as (pr & Hp & Ho & ->). split; simpl.
    + intros k b e Hk He. destruct (Hef _ _ _ Hk He) as (q & qr & Hq & Hqb & Hqo).
      exists q, qr. split; [|done].
      rewrite list_lookup_insert_ne; [done|]. intros <-. congruence.
    + intros q qr payload Hq Hqo.
      destruct (lookup_replaced _ _ _ _ _ Hq) as [(-> & -> & _) | (Hne & Hq0)];
        [discriminate | eauto].
  - apply onFinally_Some in Hstep as (pr & b & Hp & Ho & Hs & Hb & ->). split; simpl.
    + intros k b' e Hk He.
      assert (∃ b0, cacheBuckets s !! k = Some b0 ∧ cache b0 = Some e) as (b0 & Hb0 & He0).
      { destruct (decide (k = p_bucket pr)) as [-> | Hne].
        - rewrite lookup_insert_eq in Hk. injection Hk as <-. eauto.
        - rewrite lookup_insert_ne in Hk by done. eauto. }
      destruct (Hef _ _ _ Hb0 He0) as (q & qr & Hq & Hqb & Hqo).
      exists q. eexists. split; [by apply replaced_lookup|].
      destruct (decide (q = p)) as [-> | Hne]; [|done].
      by one_lookup.
    + intros q qr payload Hq Hqo.
      assert (∃ qr0, promises s !! q = Some qr0 ∧ p_bucket qr0 = p_bucket qr ∧
                     p_outcome qr0 = Some (inr payload)) as (qr0 & Hq0 & Hqb & Hqo0).
      { destruct (lookup_replaced _ _ _ _ _ Hq) as [(-> & -> & _) | (Hne & Hq0)]; eauto. }
      destruct (Hfe _ _ _ Hq0 Hqo0) as (b0 & e & Hb0 & He0). rewrite <- Hqb.
      destruct (decide (p_bucket qr0 = p_bucket pr)) as [Heq | Hnb].
      * rewrite Heq in *. rewrite lookup_insert_eq. one_lookup. eauto.
      * rewrite lookup_insert_ne by done. eauto.
  - apply resume_Some in Hstep
      as (req & p & pr & o & b & Hr & Hst & Hp & Hs & Ho & Hb & ->).
    by split.
Qed.

Lemma reachable_provenance s : reachable s → provenance s.
Proof.
  induction 1 as [| s ev s' _ IH Hstep];
    [apply provenance_initial | by eapply provenance_step].
Qed.

(** X1: in every reachable state the payload held by a bucket is,
    unchanged, the payload with which a fetch of that same bucket
    resolved: the display name a caller passes is applied to the response
    it gets and never reaches the cache. *)
Theorem cached_payload_is_a_fetched_payload s key b e :
  reachable s → cacheBuckets s !! key = Some b → cache b = Some e →
  ∃ p pr, promises s !! p = Some pr ∧ p_bucket pr = key ∧
          p_outcome pr = Some (inr (data e)).
Proof. intros Hs. apply (entry_fetched s (reachable_provenance s Hs)). Qed.

(** X2: a request whose awaited fetch resolved with [payload] returns
    that payload (with its own display name, if it passed one) tagged
    [live]; the time stamp is the [fetchedAt] of the entry the bucket
    holds when the request continues, the bucket always holds one then,
    so [Date.now()] is never used in its place, and the age is counted
    from a clock read at that moment. *)
Theorem resolved_fetch_returns_live s r clock req p pr payload :
  reachable s →
  requests s !! r = Some req → req_status req = Awaiting p →
  promises s !! p = Some pr → p_settled pr = true →
  p_outcome pr = Some (inr payload) →
  ∃ b c,
    cacheBuckets s !! req_bucket req = Some b ∧ cache b = Some c ∧
    step s (Resume r clock) =
      Some {| cacheBuckets := cacheBuckets s;
              promises := promises s;
              requests :=
                <[r := {| req_bucket := req_bucket req;
                          req_overrideName := req_overrideName req;
                          req_now := req_now req;
                          req_status := Returned (inr
                            {| snap_data :=
                                 applyOverrideName payload (req_overrideName req);
                               snap_meta :=
                                 {| source := live;
                                    meta_fetchedAt := toISOString (fetchedAt c);
                                    ageMs := clock 0%nat - fetchedAt c |} |}) |}]>
                  (requests s) |}.
Proof.
  intros Hs Hr Hst Hp Hset Ho.
  pose proof (reachable_consistent toISOString s Hs) as Hc.
  destruct (request_promise s Hc r req p Hr Hst) as (pr' & Hp' & Hpb).
  rewrite Hp in Hp'. injection Hp' as <-.
  destruct (fetched_entry s (reachable_provenance s Hs) p pr payload Hp Ho)
    as (b & c & Hb & Hcache).
  rewrite Hpb in Hb. exists b, c. split; [done|]. split; [done|].
  simpl. unfold resume. rewrite Hr. simpl. rewrite Hst, Hp. simpl.
  rewrite Hset, Ho. simpl. rewrite Hb. simpl. by rewrite Hcache.
Qed.

(** How one step changes the table of requests. *)
Lemma step_requests s ev s' r req :
  step s ev = Some s' → requests s !! r = Some req →
  ∃ req', requests s' !! r = Some req' ∧
          req_bucket req' = req_bucket req ∧
          req_overrideName req' = req_overrideName req ∧
          req_now req' = req_now req ∧
          (∀ result, req_status req = Returned result → req' = req).
Proof.
  intros Hstep Hr. destruct ev as [key f o clock | p payload clock | p error | p | r' clock];
    simpl in Hstep.
  - injection Hstep as <-. exists req. split; [|done].
    destruct (enter_cases toISOString s key f o clock)
      as [(b & c & Hb & Hf & ->) | [(b & q & Hb & Hf & Hi & ->) | (b & Hb & Hf & Hi & ->)]];
      simpl; by apply lookup_app_l_Some.
  - apply onFulfilled_Some in Hstep as (pr & b & Hp & Ho & Hb & ->). by exists req.
  - apply onRejected_Some in Hstep as (pr & Hp & Ho & ->). by exists req.
  - apply onFinally_Some in Hstep as (pr & b & Hp & Ho & Hs & Hb & ->). by exists req.
  - apply resume_Some in Hstep
      as (req0 & p & pr & o & b & Hr0 & Hst & Hp & Hs & Ho & Hb & ->). simpl.
    destruct (decide (r = r')) as [-> | Hne].
    + one_lookup. eexists. split; [apply list_lookup_insert_eq; by eapply lookup_lt_Some|].
      simpl. repeat split. intros result Hres. congruence.
    + exists req. by rewrite list_lookup_insert_ne.
Qed.

(** X3: a request is answered once and for all: whatever runs afterwards,
    a request that has returned or thrown keeps its result, and every
    request keeps its place in the table, its bucket, its display name
    and the [now] it read on entry. *)
Theorem answered_request_is_final s trace s' r req :
  run s trace = Some s' → requests s !! r = Some req →
  ∃ req', requests s' !! r = Some req' ∧
          req_bucket req' = req_bucket req ∧
          req_overrideName req' = req_overrideName req ∧
          req_now req' = req_now req ∧
          (∀ result, req_status req = Returned result → req' = req).
Proof.
  revert s req. induction trace as [| ev rest IH]; simpl; intros s req Hrun Hr.
  - injection Hrun as <-. by exists req.
  - destruct (step s ev) as [s1|] eqn:Hstep; [simpl in Hrun | discriminate].
    destruct (step_requests s ev s1 r req Hstep Hr) as (req1 & Hr1 & Eb & Eo & En & Hfin).
    destruct (IH s1 req1 Hrun Hr1) as (req' & Hr' & Eb' & Eo' & En' & Hfin').
    exists req'. repeat split; try congruence.
    intros result Hres. rewrite <- (Hfin result Hres) in Hres |- *. eauto.
Qed.

(** A request keeps its bucket. *)
Lemma run_request_bucket s trace s' r req :
  run s trace = Some s' → requests s !! r = Some req →
  ∃ req', requests s' !! r = Some req' ∧ req_bucket req' = req_bucket req.
Proof.
  revert s req. induction trace as [| ev rest IH]; simpl; intros s req Hrun Hr.
  - injection Hrun as <-. by exists req.
  - destruct (step s ev) as [s1|] eqn:Hstep; [simpl in Hrun | discriminate].
    destruct (step_requests s ev s1 r req Hstep Hr) as (req1 & Hr1 & Eb & _).
    destruct (IH s1 req1 Hrun Hr1) as (req' & Hr' & Eb').
    exists req'. split; [done | congruence].
Qed.

(** A request that has been answered keeps its answer. *)
Lemma run_answered s trace s' r req result :
  run s trace = Some s' → requests s !! r = Some req →
  req_status req = Returned result → requests s' !! r = Some req.
Proof.
  revert s. induction trace as [| ev rest IH]; simpl; intros s Hrun Hr Hres.
  - by injection Hrun as <-.
  - destruct (step s ev) as [s1|] eqn:Hstep; [simpl in Hrun | discriminate].
    destruct (step_requests s ev s1 r req Hstep Hr) as (req1 & Hr1 & _ & _ & _ & Hfin).
    rewrite (Hfin result Hres) in Hr1. by apply (IH s1).
Qed.

(** One step leaves a waiting request as it is, unless the step is its
    own continuation, which answers it. *)
Lemma step_waiting s ev s' r req p :
  step s ev = Some s' → requests s !! r = Some req → req_status req = Awaiting p →
  requests s' !! r = Some req ∨
  ∃ clock req' result,
    ev = Resume r clock ∧ requests s' !! r = Some req' ∧
    req_status req' = Returned result.
Proof.
  intros Hstep Hr Hst.
  destruct ev as [key f o clock | q payload clock | q error | q | r' clock];
    simpl in Hstep.
  - left. injection Hstep as <-.
    destruct (enter_cases toISOString s key f o clock)
      as [(b & c & Hb & Hf & ->) | [(b & q & Hb & Hf & Hi & ->) | (b & Hb & Hf & Hi & ->)]];
      simpl; by apply lookup_app_l_Some.
  - left. by apply onFulfilled_Some in Hstep as (pr & b & Hp & Ho & Hb & ->).
  - left. by apply onRejected_Some in Hstep as (pr & Hp & Ho & ->).
  - left. by apply onFinally_Some in Hstep as (pr & b & Hp & Ho & Hs & Hb & ->).
  - apply resume_Some in Hstep
      as (req0 & p0 & pr & o & b & Hr0 & Hst0 & Hp & Hs & Ho & Hb & ->). simpl.
    destruct (decide (r = r')) as [<- | Hne].
    + right. eexists clock, _, _. split; [done|].
      split; [apply list_lookup_insert_eq; by eapply lookup_lt_Some | reflexivity].
    + left. by rewrite list_lookup_insert_ne.
Qed.

Lemma run_waiting s trace s' r req p :
  run s trace = Some s' → requests s !! r = Some req → req_status req = Awaiting p →
  requests s' !! r = Some req ∨
  ∃ clock req' result,
    Resume r clock ∈ trace ∧ requests s' !! r = Some req' ∧
    req_status req' = Returned result.
Proof.
  revert s. induction trace as [| ev rest IH]; simpl; intros s Hrun Hr Hst.
  - left. by injection Hrun as <-.
  - destruct (step s ev) as [s1|] eqn:Hstep; [simpl in Hrun | discriminate].
    destruct (step_waiting s ev s1 r req p Hstep Hr Hst)
      as [Hr1 | (clock & req1 & result & -> & Hr1 & Hres)].
    + destruct (IH s1 Hrun Hr1 Hst) as [? | (clock & req' & result & Hin & ? & ?)];
        [by left|].
      right. exists clock, req', result. split; [by apply list_elem_of_further | done].
    + right. exists clock, req1, result. split; [apply list_elem_of_here|].
      split; [|done]. by apply (run_answered s1 rest s' r req1 result).
Qed.

(** One step undoes nothing of what a fetch has done. *)
Lemma step_promise s ev s' p pr :
  step s ev = Some s' → promises s !! p = Some pr →
  ∃ pr', promises s' !! p = Some pr' ∧ p_bucket pr' = p_bucket pr ∧
         (∀ o, p_outcome pr = Some o → p_outcome pr' = Some o) ∧
         (p_settled pr = true → p_settled pr' = true).
Proof.
  intros Hstep Hp.
  destruct ev as [key f o clock | q payload clock | q error | q | r clock];
    simpl in Hstep.
  - exists pr. split; [|done]. injection Hstep as <-.
    destruct (enter_cases toISOString s key f o clock)
      as [(b & c & Hb & Hf & ->) | [(b & q & Hb & Hf & Hi & ->) | (b & Hb & Hf & Hi & ->)]];
      simpl; [done | done | by apply lookup_app_l_Some].
  - apply onFulfilled_Some in Hstep as (pr0 & b & Hp0 & Ho & Hb & ->). simpl.
    eexists. split; [by apply replaced_lookup|].
    destruct (decide (p = q)) as [-> | Hne]; [|done].
    rewrite Hp in Hp0. injection Hp0 as <-.
    split; [done|]. split; [|done]. intros o. by rewrite Ho.
  - apply onRejected_Some in Hstep as (pr0 & Hp0 & Ho & ->). simpl.
    eexists. split; [by apply replaced_lookup|].
    destruct (decide (p = q)) as [-> | Hne]; [|done].
    rewrite Hp in Hp0. injection Hp0 as <-.
    split; [done|]. split; [|done]. intros o. by rewrite Ho.
  - apply onFinally_Some in Hstep as (pr0 & b & Hp0 & Ho & Hs & Hb & ->). simpl.
    eexists. split; [by apply replaced_lookup|].
    destruct (decide (p = q)) as [-> | Hne]; [|done].
    rewrite Hp in Hp0. by injection Hp0 as <-.
  - apply resume_Some in Hstep
      as (req0 & p0 & pr0 & o & b & Hr0 & Hst0 & Hp0 & Hs & Ho & Hb & ->).
    by exists pr.
Qed.

Lemma run_promise s trace s' p pr :
  run s trace = Some s' → promises s !! p = Some pr →
  ∃ pr', promises s' !! p = Some pr' ∧ p_bucket pr' = p_bucket pr ∧
         (∀ o, p_outcome pr = Some o → p_outcome pr' = Some o) ∧
         (p_settled pr = true → p_settled pr' = true).
Proof.
  revert s pr. induction trace as [| ev rest IH]; simpl; intros s pr Hrun Hp.
  - injection Hrun as <-. by exists pr.
  - destruct (step s ev) as [s1|] eqn:Hstep; [simpl in Hrun | discriminate].
    destruct (step_promise s ev s1 p pr Hstep Hp) as (pr1 & Hp1 & Hb1 & Ho1 & Hs1).
    destruct (IH s1 pr1 Hrun Hp1) as (pr' & Hp' & Hb' & Ho' & Hs').
    exists pr'. split; [done|]. split; [congruence|]. split; [|auto].
    intros o Ho. auto.
Qed.

(** X4: a waiting request depends on its own fetch and on nothing else.
    Take a request that awaits a fetch, and let any calls, callbacks and
    continuations run.  What the fetch had done before is still done.
    The request is then either answered, and its own continuation has
    run, or it is as it was, and then exactly its next move can be made:
    while the fetch has not settled, the fetch can resolve with any
    payload or reject with any error, and neither its [finally] callback
    nor the request can run; once it has settled, its [finally] callback
    can run and the request cannot; once that callback has run, the
    request can continue, at any reading of the clock, and continuing
    answers it.  There is no time limit: as long as the fetch does not
    settle, the request waits. *)
Theorem waiting_request_depends_on_its_fetch_alone s trace s' r req p pr :
  reachable s → run s trace = Some s' →
  requests s !! r = Some req → req_status req = Awaiting p →
  promises s !! p = Some pr →
  ∃ pr' b,
    promises s' !! p = Some pr' ∧ p_bucket pr' = req_bucket req ∧
    cacheBuckets s' !! req_bucket req = Some b ∧
    (∀ o, p_outcome pr = Some o → p_outcome pr' = Some o) ∧
    (p_settled pr = true → p_settled pr' = true) ∧
    ((∃ clock req' result,
        Resume r clock ∈ trace ∧ requests s' !! r = Some req' ∧
        req_status req' = Returned result) ∨
     (requests s' !! r = Some req ∧
      match p_outcome pr', p_settled pr' with
      | None, _ =>
          (∀ payload clock, is_Some (step s' (Fulfil p payload clock))) ∧
          (∀ error, is_Some (step s' (Reject p error))) ∧
          step s' (Finally p) = None ∧
          (∀ clock, step s' (Resume r clock) = None)
      | Some o, false =>
          is_Some (step s' (Finally p)) ∧
          (∀ payload clock, step s' (Fulfil p payload clock) = None) ∧
          (∀ error, step s' (Reject p error) = None) ∧
          (∀ clock, step s' (Resume r clock) = None)
      | Some o, true =>
          (∀ payload clock, step s' (Fulfil p payload clock) = None) ∧
          (∀ error, step s' (Reject p error) = None) ∧
          step s' (Finally p) = None ∧
          ∀ clock,
            step s' (Resume r clock) =
              Some {| cacheBuckets := cacheBuckets s';
                      promises := promises s';
                      requests :=
                        <[r := {| req_bucket := req_bucket req;
                                  req_overrideName := req_overrideName req;
                                  req_now := req_now req;
                                  req_status :=
                                    Returned (afterAwait toISOString b req o clock) |}]>
                          (requests s') |}
      end)).
Proof.
  intros Hs Hrun Hr Hst Hp.
  pose proof (run_reachable toISOString s trace s' Hs Hrun) as Hs'.
  pose proof (reachable_consistent toISOString s Hs) as Hc.
  pose proof (reachable_consistent toISOString s' Hs') as Hc'.
  destruct (request_promise s Hc r req p Hr Hst) as (pr0 & Hp0 & Hpb).
  rewrite Hp in Hp0. injection Hp0 as <-.
  destruct (run_promise s trace s' p pr Hrun Hp) as (pr' & Hp' & Hb' & Ho' & Hset').
  destruct (run_request_bucket s trace s' r req Hrun Hr) as (req1 & Hr1 & Hrb1).
  destruct (request_bucket s' Hc' r req1 Hr1) as [b Hb]. rewrite Hrb1 in Hb.
  exists pr', b. split; [done|]. split; [congruence|]. split; [done|].
  split; [done|]. split; [done|].
  destruct (run_waiting s trace s' r req p Hrun Hr Hst) as [Hr' | Hanswered];
    [right | by left].
  split; [done|].
  assert (Hpb' : p_bucket pr' = req_bucket req) by congruence.
  destruct (p_outcome pr') as [o|] eqn:Ho.
  - destruct (p_settled pr') eqn:Hset.
    + split; [|split; [|split]].
      * intros payload clock. simpl. unfold onFulfilled. rewrite Hp'. simpl.
        by rewrite Ho.
      * intros error. simpl. unfold onRejected. rewrite Hp'. simpl. by rewrite Ho.
      * simpl. unfold onFinally. rewrite Hp'. simpl. by rewrite Ho, Hset.
      * intros clock. apply resume_Some. by exists req, p, pr', o, b.
    + split; [|split; [|split]].
      * simpl. eexists. apply onFinally_Some. exists pr', b.
        rewrite Hpb'. split; [done|]. split; [by rewrite Ho|]. done.
      * intros payload clock. simpl. unfold onFulfilled. rewrite Hp'. simpl.
        by rewrite Ho.
      * intros error. simpl. unfold onRejected. rewrite Hp'. simpl. by rewrite Ho.
      * intros clock. simpl. unfold resume. rewrite Hr'. simpl.
        rewrite Hst, Hp'. simpl. by rewrite Hset.
  - assert (Hset : p_settled pr' = false).
    { destruct (p_settled pr') eqn:Hset; [|done].
      destruct (settled_outcome s' Hc' p pr' Hp' Hset) as [o Ho2]. congruence. }
    split; [|split; [|split]].
    + intros payload clock. simpl. eexists. apply onFulfilled_Some.
      exists pr', b. by rewrite Hpb'.
    + intros error. simpl. eexists. apply onRejected_Some. by exists pr'.
    + simpl. unfold onFinally. rewrite Hp'. simpl. by rewrite Ho.
    + intros clock. simpl. unfold resume. rewrite Hr'. simpl.
      rewrite Hst, Hp'. simpl. by rewrite Hset.
Qed.

(** X5: a bucket is written only on behalf of its own key: a call changes
    no bucket but the one it names, the callbacks of a fetch change no
    bucket but the one the fetch was started for, and a failing fetch and
    a continuing request change no bucket at all. *)
Theorem other_buckets_untouched s :
  (∀ key f o clock s' key',
     step s (Call key f o clock) = Some s' → key' ≠ key →
     cacheBuckets s' !! key' = cacheBuckets s !! key') ∧
  (∀ p payload clock s' key',
     step s (Fulfil p payload clock) = Some s' →
     ∃ pr, promises s !! p = Some pr ∧
           (key' ≠ p_bucket pr → cacheBuckets s' !! key' = cacheBuckets s !! key')) ∧
  (∀ p s' key',
     step s (Finally p) = Some s' →
     ∃ pr, promises s !! p = Some pr ∧
           (key' ≠ p_bucket pr → cacheBuckets s' !! key' = cacheBuckets s !! key')) ∧
  (∀ p error s', step s (Reject p error) = Some s' → cacheBuckets s' = cacheBuckets s) ∧
  (∀ r clock s', step s (Resume r clock) = Some s' → cacheBuckets s' = cacheBuckets s).
Proof.
  repeat apply conj.
  - intros key f o clock s' key' Hstep Hne. simpl in Hstep. injection Hstep as <-.
    destruct (enter_cases toISOString s key f o clock)
      as [(b & c & Hb & Hf & ->) | [(b & q & Hb & Hf & Hi & ->) | (b & Hb & Hf & Hi & ->)]];
      simpl; [done | done |]. by rewrite lookup_insert_ne.
  - intros p payload clock s' key' Hstep. simpl in Hstep.
    apply onFulfilled_Some in Hstep as (pr & b & Hp & Ho & Hb & ->).
    exists pr. split; [done|]. intros Hne. simpl. by rewrite lookup_insert_ne.
  - intros p s' key' Hstep. simpl in Hstep.
    apply onFinally_Some in Hstep as (pr & b & Hp & Ho & Hs & Hb & ->).
    exists pr. split; [done|]. intros Hne. simpl. by rewrite lookup_insert_ne.
  - intros p error s' Hstep. simpl in Hstep.
    by apply onRejected_Some in Hstep as (pr & Hp & Ho & ->).
  - intros r clock s' Hstep. simpl in Hstep.
    by apply resume_Some in Hstep
      as (req0 & p & pr & o & b & Hr0 & Hst & Hp & Hs & Ho & Hb & ->).
Qed.

End CacheProvenance.

(* ===================================================================== *)
(** * Further properties of the aggregator *)
(* ===================================================================== *)

Section AggregatorReplies.
Import JsNum Nws Notions.
Variable Number_toString : Number -> string.
Variable formatDateKey : string -> Outcome string.

Abbreviation foldPeriod := (Nws.foldPeriod formatDateKey).
Abbreviation foldDaily := (Nws.foldDaily formatDateKey).
Abbreviation pointsUrl := (Nws.pointsUrl Number_toString).
Abbreviation getWeatherByCoords :=
  (Nws.getWeatherByCoords Number_toString formatDateKey).

(** X6: the aggregator returns a payload only when the point, the daily
    forecast, the hourly forecast and the station list were all
    delivered (a reply with a success status and a body that parses, each
    asked at the URL the point reply names) and, where the first station
    listed has an identifier, its latest observation was delivered too,
    and the daily fold of the forecast went through; the payload is then
    built from exactly these replies and that fold. *)
Theorem payload_only_from_delivered_replies net lat lon overrideName payload :
  getWeatherByCoords net lat lon overrideName = inr payload →
  ∃ points fc hr stations observation rp rf rh rs,
    outcome (fetch_points net (pointsUrl lat lon)) = inr rp ∧
    ok rp = true ∧ outcome (json rp) = inr points ∧
    outcome (fetch_forecast net (forecast points)) = inr rf ∧
    ok rf = true ∧ outcome (json rf) = inr fc ∧
    outcome (fetch_hourly net (forecastHourly points)) = inr rh ∧
    ok rh = true ∧ outcome (json rh) = inr hr ∧
    outcome (fetch_stations net (observationStations points)) = inr rs ∧
    ok rs = true ∧ outcome (json rs) = inr stations ∧
    match firstStationId stations with
    | Some id =>
        if truthy id
        then ∃ ro o,
               outcome (fetch_observation net (observationUrl id)) = inr ro ∧
               ok ro = true ∧ outcome (json ro) = inr o ∧ observation = Some o
        else observation = None
    | None => observation = None
    end ∧
    ∃ dailyMap,
      foldDaily (forecast_periods fc) = inr dailyMap ∧
      payload = buildPayload lat lon overrideName points fc hr observation dailyMap.
Proof.
  unfold Nws.getWeatherByCoords. intros H.
  destruct (outcome (fetchJson (fetch_points net) (pointsUrl lat lon)))
    as [e | points] eqn:Hpoints; [discriminate|]. cbn [bindOutcome] in H.
  destruct (Promise_all3 (fetchJson (fetch_forecast net) (forecast points))
              (fetchJson (fetch_hourly net) (forecastHourly points))
              (fetchJson (fetch_stations net) (observationStations points)))
    as [e | [[fc hr] stations]] eqn:Hall; [discriminate|]. cbn [bindOutcome] in H.
  apply Promise_all3_delivers in Hall as (Hfc & Hhr & Hst).
  apply fetchJson_delivers in Hpoints as (rp & ? & ? & ?).
  apply fetchJson_delivers in Hfc as (rf & ? & ? & ?).
  apply fetchJson_delivers in Hhr as (rh & ? & ? & ?).
  apply fetchJson_delivers in Hst as (rs & ? & ? & ?).
  assert (∃ observation,
            match firstStationId stations with
            | Some id =>
                if truthy id
                then ∃ ro o,
                       outcome (fetch_observation net (observationUrl id)) = inr ro ∧
                       ok ro = true ∧ outcome (json ro) = inr o ∧ observation = Some o
                else observation = None
            | None => observation = None
            end ∧
            ∃ dailyMap,
              foldDaily (forecast_periods fc) = inr dailyMap ∧
              payload = buildPayload lat lon overrideName points fc hr observation
                          dailyMap)
    as (observation & Hobs & dailyMap & Hfold & ->).
  { assert (Htail : ∀ observation,
              (await dailyMap <- foldDaily (forecast_periods fc) in
               inr (buildPayload lat lon overrideName points fc hr observation
                      dailyMap)) = inr payload →
              ∃ dailyMap,
                foldDaily (forecast_periods fc) = inr dailyMap ∧
                payload = buildPayload lat lon overrideName points fc hr observation
                            dailyMap).
    { intros observation Ht.
      destruct (foldDaily (forecast_periods fc)) as [e | dailyMap]; [discriminate|].
      cbn [bindOutcome] in Ht. injection Ht as <-. by exists dailyMap. }
    destruct (firstStationId stations) as [id|]; cbn [bindOutcome] in H;
      [|exists None; split; [done | by apply Htail]].
    destruct (truthy id); cbn [bindOutcome] in H;
      [|exists None; split; [done | by apply Htail]].
    destruct (outcome (fetchJson (fetch_observation net) (observationUrl id)))
      as [e | o] eqn:Ho; [discriminate|]. cbn [bindOutcome] in H.
    apply fetchJson_delivers in Ho as (ro & ? & ? & ?).
    exists (Some o). split; [eauto 8 | by apply Htail]. }
  exists points, fc, hr, stations, observation, rp, rf, rh, rs.
  repeat (split; [assumption|]). by exists dailyMap.
Qed.

(** Of three promises started together [Promise.all] rejects with a
    rejection that none of the others came before. *)
Lemma Promise_all3_rejects {A B C : Type}
    (a : Settled A) (b : Settled B) (c : Settled C) error :
  Promise_all3 a b c = inl error →
  ∃ t, Some (t, error) ∈ [rejection a; rejection b; rejection c] ∧
       ∀ t' error', Some (t', error') ∈ [rejection a; rejection b; rejection c] →
                    (t ≤ t')%nat.
Proof.
  unfold Promise_all3, rejection.
  destruct (outcome a) as [ea | xa], (outcome b) as [eb | yb],
           (outcome c) as [ec | zc]; simpl;
    repeat match goal with
           | |- context [(?x <=? ?y)%nat] => destruct (Nat.leb_spec x y); simpl
           end;
    intros [= <-]; eexists;
    (split; [eauto using list_elem_of_here, list_elem_of_further|]);
    intros t' error'; rewrite !elem_of_cons, elem_of_nil; intros Hin;
    destruct_or!; simplify_eq; lia.
Qed.

(** A rejection that came strictly before the others is the one it
    rejects with. *)
Lemma Promise_all3_first {A B C : Type}
    (a : Settled A) (b : Settled B) (c : Settled C) t error :
  Some (t, error) ∈ [rejection a; rejection b; rejection c] →
  (∀ t' error', Some (t', error') ∈ [rejection a; rejection b; rejection c] →
                (t', error') = (t, error) ∨ (t < t')%nat) →
  Promise_all3 a b c = inl error.
Proof.
  unfold Promise_all3, rejection.
  destruct (outcome a) as [ea | xa], (outcome b) as [eb | yb],
           (outcome c) as [ec | zc]; simpl;
    repeat match goal with
           | |- context [(?x <=? ?y)%nat] => destruct (Nat.leb_spec x y); simpl
           end;
    intros Hin Hfirst;
    try pose proof (Hfirst _ _ (list_elem_of_here _ _)) as Ha;
    try pose proof (Hfirst _ _ (list_elem_of_further _ _ _ (list_elem_of_here _ _)))
      as Hb;
    try pose proof (Hfirst _ _ (list_elem_of_further _ _ _
                                  (list_elem_of_further _ _ _ (list_elem_of_here _ _))))
      as Hc;
    clear Hfirst; rewrite !elem_of_cons, elem_of_nil in Hin;
    destruct_or!; simplify_eq; (done || lia).
Qed.

(** X7: the errors of an aggregation are the errors of its stages.  A
    request through [fetchJson] fails with the transport error or with
    the status error when the reply is in, and with the error of the
    body when the body has been read.  A failed point request makes the
    aggregation throw its error, whatever the other replies are; of the
    three requests started together, one that fails strictly before the
    others makes it throw its error.  And an error thrown is always one
    of these: the error of the point request, the error of one of the
    three that none of the others failed before, the error of the
    observation request, or the error of the date formatting at the
    first daily period whose start time is no date. *)
Theorem aggregation_throws_the_first_failure net lat lon overrideName :
  (∀ (T : Type) (fetch : string → Settled (HttpResponse T)) url,
     rejection (fetchJson fetch url) =
       match outcome (fetch url) with
       | inl failure => Some (settledAt (fetch url), failure)
       | inr reply =>
           if ok reply then rejection (json reply)
           else Some (settledAt (fetch url),
                      ExnError ("NWS request failed: " ++ pretty (status reply)
                                  ++ " " ++ url)%string)
       end) ∧
  (∀ error,
     outcome (fetchJson (fetch_points net) (pointsUrl lat lon)) = inl error →
     getWeatherByCoords net lat lon overrideName = inl error) ∧
  (∀ points t error,
     outcome (fetchJson (fetch_points net) (pointsUrl lat lon)) = inr points →
     let rejections :=
       [ rejection (fetchJson (fetch_forecast net) (forecast points));
         rejection (fetchJson (fetch_hourly net) (forecastHourly points));
         rejection (fetchJson (fetch_stations net) (observationStations points)) ] in
     Some (t, error) ∈ rejections →
     (∀ t' error', Some (t', error') ∈ rejections →
                   (t', error') = (t, error) ∨ (t < t')%nat) →
     getWeatherByCoords net lat lon overrideName = inl error) ∧
  (∀ error,
     getWeatherByCoords net lat lon overrideName = inl error →
     outcome (fetchJson (fetch_points net) (pointsUrl lat lon)) = inl error ∨
     ∃ points,
       outcome (fetchJson (fetch_points net) (pointsUrl lat lon)) = inr points ∧
       let rejections :=
         [ rejection (fetchJson (fetch_forecast net) (forecast points));
           rejection (fetchJson (fetch_hourly net) (forecastHourly points));
           rejection (fetchJson (fetch_stations net) (observationStations points)) ] in
       ((∃ t, Some (t, error) ∈ rejections ∧
              ∀ t' error', Some (t', error') ∈ rejections → (t ≤ t')%nat) ∨
        ∃ fc hr stations,
          Promise_all3 (fetchJson (fetch_forecast net) (forecast points))
                       (fetchJson (fetch_hourly net) (forecastHourly points))
                       (fetchJson (fetch_stations net) (observationStations points))
            = inr (fc, hr, stations) ∧
          ((∃ id, firstStationId stations = Some id ∧ truthy id = true ∧
                  outcome (fetchJson (fetch_observation net) (observationUrl id))
                    = inl error) ∨
           (∃ before p after,
              forecast_periods fc = before ++ p :: after ∧
              (∀ q, q ∈ before → ∃ k, formatDateKey (startTime q) = inr k) ∧
              formatDateKey (startTime p) = inl error)))).
Proof.
  repeat apply conj.
  - intros T fetch url. unfold fetchJson, rejection.
    destruct (outcome (fetch url)) as [failure | reply]; [done|].
    by destruct (ok reply).
  - intros error Hp. unfold Nws.getWeatherByCoords. by rewrite Hp.
  - intros points t error Hp rejections Hin Hfirst.
    unfold Nws.getWeatherByCoords. rewrite Hp. cbn [bindOutcome].
    by rewrite (Promise_all3_first _ _ _ t error Hin Hfirst).
  - intros error H. unfold Nws.getWeatherByCoords in H.
    destruct (outcome (fetchJson (fetch_points net) (pointsUrl lat lon)))
      as [e | points] eqn:Hpoints; cbn [bindOutcome] in H.
    { left. congruence. }
    right. exists points. split; [done|]. cbv zeta.
    destruct (Promise_all3 (fetchJson (fetch_forecast net) (forecast points))
                (fetchJson (fetch_hourly net) (forecastHourly points))
                (fetchJson (fetch_stations net) (observationStations points)))
      as [e | [[fc hr] stations]] eqn:Hall; cbn [bindOutcome] in H.
    { left. injection H as ->. by apply Promise_all3_rejects. }
    right. exists fc, hr, stations. split; [done|].
    assert (Htail : ∀ observation,
              (await dailyMap <- foldDaily (forecast_periods fc) in
               inr (buildPayload lat lon overrideName points fc hr observation
                      dailyMap)) = inl error →
              ∃ before p after,
                forecast_periods fc = before ++ p :: after ∧
                (∀ q, q ∈ before → ∃ k, formatDateKey (startTime q) = inr k) ∧
                formatDateKey (startTime p) = inl error).
    { intros observation Ht. unfold Nws.foldDaily in Ht.
      destruct (forEachPeriod_cases formatDateKey (forecast_periods fc) [])
        as [[_ E] | (before & p & after & e & Hfc & Hdated & Hp & E)];
        rewrite E in Ht; [discriminate|].
      cbn [bindOutcome] in Ht. injection Ht as ->.
      exists before, p, after. split; [done|]. split; [|done].
      by apply Forall_forall. }
    destruct (firstStationId stations) as [id|]; cbn [bindOutcome] in H;
      [|right; by eapply Htail].
    destruct (truthy id) eqn:Hid; cbn [bindOutcome] in H; [|right; by eapply Htail].
    destruct (outcome (fetchJson (fetch_observation net) (observationUrl id)))
      as [e | o] eqn:Ho; cbn [bindOutcome] in H.
    + left. exists id. injection H as ->. done.
    + right. by eapply Htail.
Qed.

(** X8: the location of a payload.  Its coordinates are the ones asked
    for.  Its name is the caller's display name when one is given and not
    empty; otherwise the city and the state of the point reply joined by a
    comma and a space, or the one of them that is there; otherwise
    [Unknown]: it is never empty. *)
Theorem location_name_precedence lat lon overrideName points fc hr observation
    dailyMap :
  let payload :=
    buildPayload lat lon overrideName points fc hr observation dailyMap in
  let place :=
    match relativeLocation points with
    | Some (Some props) => (city props, state props)
    | _ => (None, None)
    end in
  let named (o : option string) := match o with Some n => truthy n | None => false end in
  loc_lat (location payload) = lat ∧ loc_lon (location payload) = lon ∧
  loc_name (location payload) ≠ "" ∧
  loc_name (location payload) =
    if named overrideName then default "" overrideName
    else match named (fst place), named (snd place) with
         | true, true => (default "" (fst place) ++ ", " ++ default "" (snd place))%string
         | true, false => default "" (fst place)
         | false, true => default "" (snd place)
         | false, false => "Unknown"
         end.
Proof.
  intros payload place named. subst payload.
  unfold Nws.buildPayload. cbn [location loc_name loc_lat loc_lon].
  split; [done|]. split; [done|].
  assert (Hjoin :
    joinTruthy
      [match relativeLocation points with
       | Some (Some props) => city props | _ => None end;
       match relativeLocation points with
       | Some (Some props) => state props | _ => None end] =
    match named (fst place), named (snd place) with
    | true, true => (default "" (fst place) ++ ", " ++ default "" (snd place))%string
    | true, false => default "" (fst place)
    | false, true => default "" (snd place)
    | false, false => ""
    end).
  { subst place named.
    destruct (relativeLocation points) as [[[c st]|]|]; simpl; try reflexivity.
    destruct c as [c|], st as [st|]; simpl;
      repeat match goal with
             | |- context [truthy ?x] => destruct (truthy x) eqn:?; simpl
             end; try reflexivity; try discriminate; congruence. }
  rewrite Hjoin. clear Hjoin.
  set (derived :=
         match named (fst place), named (snd place) with
         | true, true => (default "" (fst place) ++ ", " ++ default "" (snd place))%string
         | true, false => default "" (fst place)
         | false, true => default "" (snd place)
         | false, false => ""
         end).
  assert (Hnamed : ∀ o, named o = true → truthy (default "" o) = true).
  { intros [x|]; [done | discriminate]. }
  assert (Hderived :
    orElse derived "Unknown" ≠ "" ∧
    orElse derived "Unknown" =
      match named (fst place), named (snd place) with
      | true, true => (default "" (fst place) ++ ", " ++ default "" (snd place))%string
      | true, false => default "" (fst place)
      | false, true => default "" (snd place)
      | false, false => "Unknown"
      end).
  { subst derived. unfold orElse.
    destruct (named (fst place)) eqn:Hc, (named (snd place)) eqn:Hst.
    - pose proof (Hnamed _ Hc) as Hx.
      destruct (default "" (fst place)); [discriminate Hx|].
      split; [discriminate | reflexivity].
    - pose proof (Hnamed _ Hc) as Hx. rewrite Hx. split; [|reflexivity].
      intros E. rewrite E in Hx. discriminate Hx.
    - pose proof (Hnamed _ Hst) as Hx. rewrite Hx. split; [|reflexivity].
      intros E. rewrite E in Hx. discriminate Hx.
    - split; [discriminate | reflexivity]. }
  destruct overrideName as [n|]; [|exact Hderived].
  cbn [default]. unfold named at 1. unfold orElse at 2 4.
  destruct (truthy n) eqn:Hn; [|exact Hderived].
  unfold orElse. rewrite Hn. split; [|reflexivity].
  intros ->. discriminate.
Qed.

End AggregatorReplies.

Section DailyFacts.
Import JsNum Nws Notions.
Variable formatDateKey : string -> Outcome string.

Abbreviation foldPeriod := (Nws.foldPeriod formatDateKey).
Abbreviation foldDaily := (Nws.foldDaily formatDateKey).
Abbreviation key := (keyOf formatDateKey).

(** The periods of the day [k], in the order of the forecast. *)
Abbreviation ofDay k periods :=
  (filter (λ p, formatDateKey (startTime p) = inr k) periods).

Lemma ofDay_keyed periods k :
  Forall (λ p, ∃ k', formatDateKey (startTime p) = inr k') periods →
  filter (λ p, key (startTime p) = k) periods = ofDay k periods.
Proof.
  induction 1 as [| p periods Hp _ IH]; [done|].
  rewrite !filter_cons, IH.
  destruct (decide (key (startTime p) = k)) as [Hk | Hk],
           (decide (formatDateKey (startTime p) = inr k)) as [Hf | Hf];
    try done; exfalso.
  - by apply Hf, keyOf_iff.
  - by apply Hk, keyOf_iff.
Qed.

Lemma opens_dated periods a p :
  Forall (λ p, ∃ k', formatDateKey (startTime p) = inr k') periods →
  opens (λ p, formatDateKey (startTime p)) periods a p ↔
  opens (λ p, key (startTime p)) periods a p.
Proof.
  intros Hall. pose proof (proj1 (Forall_lookup _ _) Hall) as Hdated.
  unfold opens. split; intros [Ha Hfirst]; (split; [done|]);
    intros a' p' Ha' Hlt E; apply (Hfirst a' p' Ha' Hlt).
  - rewrite (dated_keyOf formatDateKey p' (Hdated _ _ Ha')).
    rewrite (dated_keyOf formatDateKey p (Hdated _ _ Ha)). by rewrite E.
  - unfold keyOf. by rewrite E.
Qed.

(** X9: what the daily fold makes of a day, read off the whole forecast.
    Where the fold goes through, every start time is a date, and the
    entry of a day carries the start time and the name of the first
    period of that day; its high is the temperature of the last daytime
    period of the day and its low the temperature of the last nighttime
    period, each [null] when the day has no such period; its icon is the
    icon of the last daytime period, or of the first period when there is
    none.  A day has an entry exactly when it has a period, and every
    entry listed in a payload is the entry of a day. *)
Theorem daily_entry_of_first_and_last_periods periods m k :
  foldDaily periods = inr m →
  (∀ p, p ∈ periods → ∃ k', formatDateKey (startTime p) = inr k') ∧
  (Map_get m k = None ↔ ofDay k periods = []) ∧
  (∀ entry,
     Map_get m k = Some entry →
     (∃ p0, head (ofDay k periods) = Some p0 ∧
            date entry = startTime p0 ∧ day_name entry = name p0 ∧
            day_icon entry =
              icon (default p0 (last (filter (λ p, isDaytime p = true)
                                        (ofDay k periods))))) ∧
     highF entry =
       temperature <$> last (filter (λ p, isDaytime p = true) (ofDay k periods)) ∧
     lowF entry =
       temperature <$> last (filter (λ p, isDaytime p = false) (ofDay k periods))) ∧
  (∀ lat lon overrideName points fc hr observation entry,
     entry ∈ daily (buildPayload lat lon overrideName points fc hr observation m) →
     ∃ k', Map_get m k' = Some entry).
Proof.
  intros [Hall ->]%foldDaily_inr.
  split; [by apply Forall_forall|].
  pose proof (placed_day key periods k) as H.
  rewrite (ofDay_keyed periods k Hall) in H.
  destruct (placed_keys key periods) as [Hnd _].
  destruct (Map_get (placeAll key periods []) k) as [entry|].
  - split; [|split].
    + split; [discriminate|]. intros E. destruct H as [(p0 & Hhead & _) _].
      rewrite E in Hhead. discriminate.
    + by intros ? [= <-].
    + intros lat lon overrideName points fc hr observation e He.
      cbn [daily buildPayload] in He.
      apply elem_of_take in He as (i & Hi & _).
      apply Map_entry_at in Hi as (k' & Hi & _).
      exists k'. apply Map_get_elem; [done|]. by eapply list_elem_of_lookup_2.
  - split; [done|]. split; [discriminate|].
    intros lat lon overrideName points fc hr observation e He.
    cbn [daily buildPayload] in He.
    apply elem_of_take in He as (i & Hi & _).
    apply Map_entry_at in Hi as (k' & Hi & _).
    exists k'. apply Map_get_elem; [done|]. by eapply list_elem_of_lookup_2.
Qed.

(** X10: the days of a payload are listed in the order in which the
    forecast first mentions them.  Where the daily fold goes through,
    the payload lists the first seven entries of the map; the entry
    listed at a place is the entry of the day whose key the map has at
    that place, and carries the start time and the name of the period
    that opens that day (the first period of the forecast with that date
    key); of two days the one the map has first is opened first in the
    forecast, so of two entries listed the first is of a day opened
    earlier; and every period that opens a day has its day in the map,
    listed when fewer than seven days come before it. *)
Theorem days_listed_in_order_of_first_mention
    lat lon overrideName points fc hr observation dailyMap :
  foldDaily (forecast_periods fc) = inr dailyMap →
  let listed :=
    daily (buildPayload lat lon overrideName points fc hr observation dailyMap) in
  let opening := opens (λ p, formatDateKey (startTime p)) (forecast_periods fc) in
  length listed = (7 `min` length dailyMap)%nat ∧
  (∀ i e, listed !! i = Some e →
     ∃ a p k, opening a p ∧ formatDateKey (startTime p) = inr k ∧
              Map_keys dailyMap !! i = Some k ∧ Map_get dailyMap k = Some e ∧
              date e = startTime p ∧ day_name e = name p) ∧
  (∀ i j a b pa pb ki kj,
     (i < j)%nat →
     Map_keys dailyMap !! i = Some ki → Map_keys dailyMap !! j = Some kj →
     opening a pa → formatDateKey (startTime pa) = inr ki →
     opening b pb → formatDateKey (startTime pb) = inr kj →
     (a < b)%nat) ∧
  (∀ i j ei ej,
     (i < j)%nat → listed !! i = Some ei → listed !! j = Some ej →
     ∃ a b pa pb,
       (a < b)%nat ∧ opening a pa ∧ opening b pb ∧
       date ei = startTime pa ∧ day_name ei = name pa ∧
       date ej = startTime pb ∧ day_name ej = name pb) ∧
  (∀ a p, opening a p →
     ∃ i k e, formatDateKey (startTime p) = inr k ∧
              Map_keys dailyMap !! i = Some k ∧
              Map_values dailyMap !! i = Some e ∧
              date e = startTime p ∧ day_name e = name p ∧
              ((i < 7)%nat → listed !! i = Some e)).
Proof.
  intros [Hall ->]%foldDaily_inr listed opening. subst listed opening.
  set (periods := forecast_periods fc) in *.
  pose proof (proj1 (Forall_lookup _ _) Hall) as Hdated.
  destruct (placed_keys key periods) as [Hnd Hkeys].
  cbn [daily buildPayload].
  assert (Hlisted : ∀ i e,
            take 7 (Map_values (placeAll key periods [])) !! i = Some e →
            ∃ a p k,
              opens (λ p, formatDateKey (startTime p)) periods a p ∧
              formatDateKey (startTime p) = inr k ∧
              Map_keys (placeAll key periods []) !! i = Some k ∧
              Map_get (placeAll key periods []) k = Some e ∧
              date e = startTime p ∧ day_name e = name p).
  { intros i e [Hi _]%lookup_take_Some.
    apply Map_entry_at in Hi as (k & Hi & Hk).
    destruct (opening_exists key periods k) as (a & p & Hopens & Hkey);
      [by eapply list_elem_of_lookup_2|].
    assert (Hget : Map_get (placeAll key periods []) k = Some e).
    { apply Map_get_elem; [done|]. by eapply list_elem_of_lookup_2. }
    rewrite <- Hkey in Hget.
    destruct (opening_entry key periods a p e Hopens Hget) as [Hdate Hname].
    exists a, p, k. split; [by apply opens_dated|].
    split; [apply keyOf_iff; [|done]; by apply (Hdated a), Hopens|].
    rewrite Hkey in Hget. done. }
  assert (Horder : ∀ i j a b pa pb ki kj,
            (i < j)%nat →
            Map_keys (placeAll key periods []) !! i = Some ki →
            Map_keys (placeAll key periods []) !! j = Some kj →
            opens (λ p, formatDateKey (startTime p)) periods a pa →
            formatDateKey (startTime pa) = inr ki →
            opens (λ p, formatDateKey (startTime p)) periods b pb →
            formatDateKey (startTime pb) = inr kj →
            (a < b)%nat).
  { intros i j a b pa pb ki kj Hij Hi Hj Ha Hka Hb Hkb.
    apply (opens_dated periods a pa Hall) in Ha.
    apply (opens_dated periods b pb Hall) in Hb.
    apply (opening_order key periods i j a b pa pb Hij); try done.
    - by rewrite (keyOf_dated formatDateKey _ _ Hka).
    - by rewrite (keyOf_dated formatDateKey _ _ Hkb). }
  split; [unfold Map_values; by rewrite length_take, length_map|].
  split; [exact Hlisted|]. split; [exact Horder|]. split.
  - intros i j ei ej Hij Hi Hj.
    destruct (Hlisted i ei Hi) as (a & pa & ki & Ha & Hka & Hki & _ & Hda & Hna).
    destruct (Hlisted j ej Hj) as (b & pb & kj & Hb & Hkb & Hkj & _ & Hdb & Hnb).
    exists a, b, pa, pb. split; [by eapply Horder|]. done.
  - intros a p Ha. apply (opens_dated periods a p Hall) in Ha.
    pose proof (dated_keyOf formatDateKey p (Hdated a p (proj1 Ha))) as Hk.
    assert (Hin : key (startTime p) ∈ Map_keys (placeAll key periods [])).
    { apply Hkeys. exists p. split; [|done].
      eapply list_elem_of_lookup_2, Ha. }
    apply list_elem_of_lookup_1 in Hin as [i Hi].
    destruct (Map_key_at _ _ _ Hi) as (e & Hie & Hv).
    assert (Hget : Map_get (placeAll key periods []) (key (startTime p)) = Some e).
    { apply Map_get_elem; [done|]. by eapply list_elem_of_lookup_2. }
    destruct (opening_entry key periods a p e Ha Hget) as [Hdate Hname].
    exists i, (key (startTime p)), e. repeat (split; [done|]).
    intros Hlt. by apply lookup_take_Some.
Qed.

End DailyFacts.

(* ===================================================================== *)
(** * Further properties of the unit conversions *)
(* ===================================================================== *)

Section ConversionFacts.
Import JsNum Nws.

(** ** Rounding to the format never makes a NaN *)

Lemma shr_1_nonneg mrs : 0 ≤ shr_m mrs → 0 ≤ shr_m (shr_1 mrs).
Proof.
  destruct mrs as [m r s]. simpl.
  destruct m as [| [p | p |] | p]; simpl; lia.
Qed.

Lemma iter_shr_1_nonneg n mrs :
  0 ≤ shr_m mrs → 0 ≤ shr_m (SpecFloat.iter_pos shr_1 n mrs).
Proof.
  revert mrs. induction n as [n IH | n IH |]; intros mrs H; cbn [SpecFloat.iter_pos].
  - by apply IH, IH, shr_1_nonneg.
  - by apply IH, IH.
  - by apply shr_1_nonneg.
Qed.

Lemma shr_fexp_nonneg m e l :
  0 ≤ m → 0 ≤ shr_m (fst (shr_fexp prec emax m e l)).
Proof.
  intros H. unfold shr_fexp, shr.
  assert (H0 : 0 ≤ shr_m (shr_record_of_loc m l)) by by destruct l as [|[]].
  destruct (fexp prec emax (Zdigits2 m + e) - e); simpl; [done | | done].
  by apply iter_shr_1_nonneg.
Qed.

Lemma round_nearest_even_nonneg m l : 0 ≤ m → 0 ≤ round_nearest_even m l.
Proof.
  intros H. destruct l as [|[]]; simpl; try lia. destruct (Z.even m); lia.
Qed.

Lemma binary_round_aux_not_NaN s m e l :
  0 ≤ m → isNaN (binary_round_aux prec emax s m e l) = false.
Proof.
  intros H. unfold binary_round_aux.
  pose proof (shr_fexp_nonneg m e l H) as H1.
  destruct (shr_fexp prec emax m e l) as [mrs' e']. simpl in H1.
  pose proof (shr_fexp_nonneg
                (round_nearest_even (shr_m mrs') (loc_of_shr_record mrs')) e' loc_Exact
                (round_nearest_even_nonneg _ _ H1)) as H2.
  destruct (shr_fexp prec emax _ e' loc_Exact) as [mrs'' e'']. simpl in H2.
  destruct (shr_m mrs'') as [|p|p]; [done | | lia].
  by destruct (e'' <=? emax - prec).
Qed.

Lemma binary_normalize_not_NaN m e : isNaN (binary_normalize prec emax m e false) = false.
Proof.
  unfold binary_normalize, binary_round.
  destruct m as [|p|p]; [done | |];
    destruct (shl_align _ _ _) as [mz ez]; by apply binary_round_aux_not_NaN.
Qed.

Lemma ofZ_not_NaN z : isNaN (ofZ z) = false.
Proof. apply binary_normalize_not_NaN. Qed.

(** A product is NaN only when a factor is, or when one factor is zero
    and the other infinite. *)
Lemma mul_finite_not_NaN x s m e :
  isNaN x = false → isNaN (mul x (S754_finite s m e)) = false.
Proof.
  unfold mul. destruct x as [sx | sx | | sx mx ex]; try done. intros _.
  cbn [SFmul]. by apply binary_round_aux_not_NaN.
Qed.

(** A quotient by a finite number that is not zero is NaN only when the
    dividend is. *)
Lemma div_finite_not_NaN x s m e :
  isNaN x = false → isNaN (div x (S754_finite s m e)) = false.
Proof.
  unfold div. destruct x as [sx | sx | | sx mx ex]; try done. intros _.
  cbn [SFdiv]. unfold SFdiv_core_binary.
  set (m' := match _ - _ - _ with Z0 => _ | Z.pos _ => _ | Z.neg _ => _ end).
  assert (Hm' : 0 ≤ m').
  { subst m'. destruct (_ - _ - _) as [|p|p]; try lia.
    apply Z.shiftl_nonneg. lia. }
  pose proof (Z.div_eucl_eq m' (Z.pos m) ltac:(lia)) as Heq.
  pose proof (Z.mod_pos_bound m' (Z.pos m) ltac:(lia)) as Hmod.
  unfold Z.modulo in Hmod.
  destruct (Z.div_eucl m' (Z.pos m)) as [q r].
  apply binary_round_aux_not_NaN. nia.
Qed.

(** A sum with a finite number is NaN only when the other summand is. *)
Lemma add_finite_not_NaN x s m e :
  isNaN x = false → isNaN (add x (S754_finite s m e)) = false.
Proof.
  unfold add. destruct x as [sx | sx | | sx mx ex]; try done. intros _.
  cbn [SFadd]. apply binary_normalize_not_NaN.
Qed.

Lemma Math_round_not_NaN x : isNaN x = false → isNaN (Math_round x) = false.
Proof.
  unfold Math_round. destruct x as [sx | sx | | sx mx ex]; try done. intros _.
  destruct (0 <=? ex); [done|].
  destruct (_ =? 0); [done | apply ofZ_not_NaN].
Qed.

(** The factors by which the source rounds and converts are finite and
    not zero. *)
Lemma factors_finite :
  (∀ d, (d ≤ 2)%nat → ∃ s m e, pow10 d = S754_finite s m e) ∧
  (∃ s m e, div (ofZ 9) (ofZ 5) = S754_finite s m e) ∧
  (∃ s m e, ofZ 32 = S754_finite s m e) ∧
  (∃ s m e, ofDecimal 223694 5 = S754_finite s m e) ∧
  (∃ s m e, ofDecimal 160934 2 = S754_finite s m e) ∧
  (∃ s m e, ofDecimal 2953 7 = S754_finite s m e).
Proof.
  split.
  - intros d Hd.
    assert (Hcases : d = 0%nat ∨ d = 1%nat ∨ d = 2%nat) by lia.
    destruct Hcases as [-> | [-> | ->]]; eexists _, _, _; vm_compute; reflexivity.
  - do 4 (split; [eexists _, _, _; vm_compute; reflexivity|]).
    eexists _, _, _; vm_compute; reflexivity.
Qed.

Lemma isNaN_true x : isNaN x = true → x = S754_nan.
Proof. by destruct x. Qed.

Lemma round_number x d :
  (d ≤ 2)%nat → isNaN x = false →
  ∃ y, round (Some x) d = Some y ∧ isNaN y = false.
Proof.
  intros Hd Hx. unfold round. rewrite Hx.
  destruct (proj1 factors_finite d Hd) as (s & m & e & ->).
  eexists. split; [reflexivity|].
  by apply div_finite_not_NaN, Math_round_not_NaN, mul_finite_not_NaN.
Qed.

(** What a conversion makes of a reading: [null] of a reading that is
    [null] or NaN, a number that is not NaN of any other. *)
Abbreviation nullOrNumber result value :=
  (match result with
   | None => value = None ∨ value = Some S754_nan
   | Some y => isNaN y = false ∧ ∃ x, value = Some x ∧ isNaN x = false
   end).

Lemma conversions_null_or_number :
  (∀ value d, (d ≤ 2)%nat → nullOrNumber (round value d) value) ∧
  (∀ value, nullOrNumber (cToF value) value) ∧
  (∀ value, nullOrNumber (mpsToMph value) value) ∧
  (∀ value, nullOrNumber (metersToMiles value) value) ∧
  (∀ value, nullOrNumber (pascalToInHg value) value).
Proof.
  destruct factors_finite
    as (_ & (s1 & m1 & e1 & H1) & (s2 & m2 & e2 & H2) & (s3 & m3 & e3 & H3) &
        (s4 & m4 & e4 & H4) & (s5 & m5 & e5 & H5)).
  assert (Hround : ∀ x d, (d ≤ 2)%nat → nullOrNumber (round (Some x) d) (Some x)).
  { intros x d Hd. destruct (isNaN x) eqn:Hx.
    - apply isNaN_true in Hx as ->. unfold round. simpl. by right.
    - destruct (round_number x d Hd Hx) as (y & -> & Hy). eauto. }
  assert (Hthrough : ∀ x w d,
            (d ≤ 2)%nat → (isNaN x = true → isNaN w = true) →
            (isNaN x = false → isNaN w = false) →
            nullOrNumber (round (Some w) d) (Some x)).
  { intros x w d Hd Hnan Hnum. destruct (isNaN x) eqn:Hx.
    - rewrite (isNaN_true w (Hnan eq_refl)), (isNaN_true x Hx).
      unfold round. simpl. by right.
    - destruct (round_number w d Hd (Hnum eq_refl)) as (y & -> & Hy). eauto. }
  repeat apply conj.
  - intros [x|] d Hd; [by apply Hround | unfold round; by left].
  - intros [x|]; unfold cToF; [|by left]. rewrite H1, H2.
    apply Hthrough; [lia | intros ->%isNaN_true; reflexivity |].
    intros Hx. by apply add_finite_not_NaN, mul_finite_not_NaN.
  - intros [x|]; unfold mpsToMph; [|by left]. rewrite H3.
    apply Hthrough; [lia | intros ->%isNaN_true; reflexivity |].
    intros Hx. by apply mul_finite_not_NaN.
  - intros [x|]; unfold metersToMiles; [|by left]. rewrite H4.
    apply Hthrough; [lia | intros ->%isNaN_true; reflexivity |].
    intros Hx. by apply div_finite_not_NaN.
  - intros [x|]; unfold pascalToInHg; [|by left]. rewrite H5.
    apply Hthrough; [lia | intros ->%isNaN_true; reflexivity |].
    intros Hx. by apply mul_finite_not_NaN.
Qed.

(** X11: a converted reading is [null] or a number, never NaN.  [round]
    at the zero, one or two decimals the source asks for, and each of the
    four conversions, return [null] exactly for a reading that is [null]
    or NaN, and for any other reading a number that is not NaN. *)
Theorem converted_reading_is_null_or_number :
  (∀ value d, (d ≤ 2)%nat →
     (round value d = None ↔ value = None ∨ value = Some S754_nan) ∧
     ∀ y, round value d = Some y → isNaN y = false) ∧
  (∀ value,
     (cToF value = None ↔ value = None ∨ value = Some S754_nan) ∧
     ∀ y, cToF value = Some y → isNaN y = false) ∧
  (∀ value,
     (mpsToMph value = None ↔ value = None ∨ value = Some S754_nan) ∧
     ∀ y, mpsToMph value = Some y → isNaN y = false) ∧
  (∀ value,
     (metersToMiles value = None ↔ value = None ∨ value = Some S754_nan) ∧
     ∀ y, metersToMiles value = Some y → isNaN y = false) ∧
  (∀ value,
     (pascalToInHg value = None ↔ value = None ∨ value = Some S754_nan) ∧
     ∀ y, pascalToInHg value = Some y → isNaN y = false).
Proof.
  assert (Hread : ∀ (result value : option Number),
            nullOrNumber result value →
            (result = None ↔ value = None ∨ value = Some S754_nan) ∧
            ∀ y, result = Some y → isNaN y = false).
  { intros [y|] value H.
    - destruct H as [Hy (x & -> & Hx)]. split.
      + split; [discriminate|]. intros [? | [= ->]]; discriminate.
      + by intros ? [= <-].
    - split; [done | discriminate]. }
  destruct conversions_null_or_number as (Hr & Hc & Hm & Hd & Hp).
  repeat apply conj; intros; apply Hread;
    first [by apply Hr | apply Hc | apply Hm | apply Hd | apply Hp].
Qed.

(** A reading that is [null] or a number that is not NaN. *)
Abbreviation nullOrNotNaN reading :=
  (match reading with Some y => isNaN y = false | None => True end).

(** X22: no derived reading of a payload is NaN.  In the payload built
    from the replies, the feels-like temperature, the humidity, the wind
    speed and gust, the dew point, the pressure and the visibility, and
    the chance of precipitation and the humidity of every hourly entry,
    are each [null] or a number that is not NaN.  The current temperature
    is the converted reading of the station when the station reported a
    number, and the temperature of the first hourly period otherwise; it
    is [null] only when the station reported none and there is no hourly
    period. *)
Theorem payload_readings_are_numbers
    lat lon overrideName points fc hr observation dailyMap :
  let payload :=
    buildPayload lat lon overrideName points fc hr observation dailyMap in
  let station := match observation with Some o => obs_temperature o | None => None end in
  nullOrNotNaN (feelsLikeF (current payload)) ∧
  nullOrNotNaN (humidity (current payload)) ∧
  nullOrNotNaN (windSpeedMph (current payload)) ∧
  nullOrNotNaN (windGustMph (current payload)) ∧
  nullOrNotNaN (dewPointF (current payload)) ∧
  nullOrNotNaN (pressureInHg (current payload)) ∧
  nullOrNotNaN (visibilityMiles (current payload)) ∧
  Forall (λ entry, nullOrNotNaN (precipChance entry) ∧
                   nullOrNotNaN (hour_humidity entry)) (hourly payload) ∧
  (station = None ∨ station = Some S754_nan →
   temperatureF (current payload) =
     (λ h, temperature (period h)) <$> head (hourly_periods hr)) ∧
  (∀ x, station = Some x → isNaN x = false →
        ∃ t, cToF station = Some t ∧ temperatureF (current payload) = Some t) ∧
  (temperatureF (current payload) = None ↔
   (station = None ∨ station = Some S754_nan) ∧ hourly_periods hr = []).
Proof.
  intros payload station.
  destruct conversions_null_or_number as (Hr & Hc & Hm & Hd & Hp).
  assert (Hnum : ∀ (result value : option Number),
            nullOrNumber result value → nullOrNotNaN result).
  { intros [y|] value H; [by destruct H | done]. }
  assert (Hhead : head (firstn 48 (hourly_periods hr)) = head (hourly_periods hr)).
  { by destruct (hourly_periods hr). }
  subst payload. unfold buildPayload.
  cbn [current hourly feelsLikeF humidity windSpeedMph windGustMph dewPointF
       pressureInHg visibilityMiles temperatureF].
  do 7 (split; [eapply Hnum; first [apply Hc | apply Hm | apply Hd | apply Hp
                                    | apply (Hr _ 0%nat); lia]|]).
  split.
  { apply Forall_fmap, Forall_forall. intros h _. unfold toHourlyEntry.
    cbn [precipChance hour_humidity].
    split; eapply Hnum; apply (Hr _ 0%nat); lia. }
  fold station. rewrite Hhead.
  pose proof (Hc station) as Hst.
  destruct (cToF station) as [t|] eqn:Et.
  - destruct Hst as [_ (x & Hx & Hnan)]. cbn [nullish].
    assert (Hnot : ¬ (station = None ∨ station = Some S754_nan)).
    { intros [E | E]; rewrite E in Hx; [discriminate|].
      injection Hx as <-. discriminate. }
    split; [by intros ?|]. split; [eauto|].
    split; [discriminate | by intros [? _]].
  - cbn [nullish option_map].
    split; [done|]. split.
    + intros x Hx Hnan. destruct Hst as [E | E]; rewrite E in Hx; [discriminate|].
      injection Hx as <-. discriminate.
    + split.
      * intros E. split; [done|]. by destruct (hourly_periods hr).
      * by intros [_ ->].
Qed.

End ConversionFacts.

Section BearingFacts.
Import JsNum Nws.

(** ** Bearings below zero *)

Lemma toInteger_opp s m e z :
  toInteger (S754_finite s m e) = Some z →
  toInteger (S754_finite (negb s) m e) = Some (- z).
Proof.
  unfold toInteger. destruct (0 <=? e).
  - intros [= <-]. by destruct s; simpl; f_equal; lia.
  - destruct (_ =? 0); [|discriminate].
    intros [= <-]. by destruct s; simpl; f_equal; lia.
Qed.

(** Rounding a negative value to the format is rounding its opposite and
    changing the sign. *)
Lemma binary_normalize_neg (p : positive) e :
  binary_normalize prec emax (Z.neg p) e false =
  SFopp (binary_normalize prec emax (Z.pos p) e false).
Proof.
  unfold binary_normalize, binary_round.
  destruct (shl_align _ _ _) as [mz ez]. unfold binary_round_aux.
  destruct (shr_fexp prec emax (Z.pos mz) ez loc_Exact) as [mrs' e'].
  destruct (shr_fexp prec emax _ e' loc_Exact) as [mrs'' e''].
  destruct (shr_m mrs'') as [|q|q]; [done | | done].
  by destruct (e'' <=? emax - prec).
Qed.

Lemma toInteger_SFopp x z :
  toInteger x = Some z → toInteger (SFopp x) = Some (- z).
Proof.
  destruct x as [s | s | | s m e]; try discriminate.
  - by intros [= <-].
  - apply toInteger_opp.
Qed.

(** The remainder modulo 16 of a number that is a negative integer is
    the remainder of that integer, which keeps its sign. *)
Lemma rem16_negative r z :
  toInteger r = Some z → z < 0 →
  toInteger (rem r (ofZ 16)) = Some (Z.rem z 16).
Proof.
  intros Hz Hneg. rewrite ofZ_16.
  destruct r as [s | s | | s m e]; try discriminate.
  { injection Hz as <-. lia. }
  set (K := Z.max 48 (- e)).
  pose proof (toInteger_opp s m e z Hz) as Hopp.
  destruct (integer_mantissa (negb s) m e (- z) K Hopp) as [Hs HN]; [lia | lia | lia |].
  destruct s; [clear Hs | discriminate].
  assert (Hp : 0 < 2 ^ K) by (apply Z.pow_pos_nonneg; lia).
  unfold rem.
  replace (Z.min e (-48)) with (- K) by lia.
  replace (e - - K) with (e + K) by lia. rewrite HN.
  replace (4503599627370496 * 2 ^ (-48 - - K)) with (16 * 2 ^ K).
  2:{ replace 4503599627370496 with (16 * 2 ^ 48) by reflexivity.
      rewrite <- Z.mul_assoc, <- Z.pow_add_r by lia. do 2 f_equal. lia. }
  rewrite Z.rem_mod_nonneg by nia.
  rewrite Z.mul_mod_distr_r by lia.
  pose proof (Z.mod_pos_bound (- z) 16 eq_refl) as Hj.
  assert (Hrem : Z.rem z 16 = - ((- z) mod 16)).
  { rewrite <- (Z.opp_involutive z) at 1. rewrite Z.rem_opp_l by lia.
    by rewrite Z.rem_mod_nonneg by lia. }
  rewrite Hrem.
  destruct (Z.eqb_spec ((- z) mod 16 * 2 ^ K) 0) as [E | E].
  - simpl. f_equal. nia.
  - cbn [cond_Zopp].
    assert (Hpos : 0 < (- z) mod 16 * 2 ^ K) by nia.
    destruct ((- z) mod 16 * 2 ^ K) as [|q|q] eqn:Eq; try lia.
    change (- Z.pos q) with (Z.neg q). rewrite binary_normalize_neg.
    apply toInteger_SFopp. rewrite <- Eq, (Z.mul_comm ((- z) mod 16)).
    apply normalize_remainder; [lia | nia].
Qed.

Lemma arrayGet_negative {A : Type} (l : list A) (i : Number) (z : Z) :
  toInteger i = Some z → z < 0 → arrayGet l i = None.
Proof.
  intros Hi Hz. unfold arrayGet. rewrite Hi.
  by destruct (Z.leb_spec 0 z); [lia|].
Qed.

(** X12: bearings below zero.  For a number whose quotient by 22.5
    rounds to a negative integer [z], [degreesToCardinal] returns N when
    [z] is a multiple of 16 (the remainder is then minus zero, which reads
    the first entry of the table) and [undefined] otherwise (the remainder
    is negative and names no entry); it returns [undefined] for the two
    infinities as well. *)
Theorem degreesToCardinal_below_zero :
  (∀ s, degreesToCardinal (Some (S754_infinity s)) = JsUndefined) ∧
  ∀ v z,
    isNaN v = false →
    toInteger (Math_round (div v (ofDecimal 225 1))) = Some z → z < 0 →
    degreesToCardinal (Some v) =
      if decide (z mod 16 = 0) then Js "N" else JsUndefined.
Proof.
  split; [intros []; vm_compute; reflexivity|].
  intros v z Hnan Hz Hneg.
  unfold degreesToCardinal. rewrite Hnan.
  pose proof (rem16_negative _ z Hz Hneg) as Hrem.
  assert (Hb : Z.rem z 16 ≤ 0 ∧ (Z.rem z 16 = 0 ↔ z mod 16 = 0)).
  { clear - Hneg. Z.to_euclidean_division_equations. lia. }
  destruct Hb as [Hb Hzero].
  destruct (decide (z mod 16 = 0)) as [E | E].
  - apply Hzero in E. rewrite E in Hrem.
    by rewrite (arrayGet_integer directions _ 0 Hrem).
  - rewrite (arrayGet_negative directions _ (Z.rem z 16)); [done | done |].
    rewrite <- Hzero in E. lia.
Qed.

End BearingFacts.

(* ===================================================================== *)
(** * Places that share a bucket *)
(* ===================================================================== *)

Section KeyFacts.
Import JsNum Nws Pipeline Notions.
Variable Number_toString : Number -> string.

Abbreviation coordsBucketKey := (Pipeline.coordsBucketKey Number_toString).

(** ** Strings *)

Lemma length_app_string (s t : string) :
  String.length (s ++ t) = (String.length s + String.length t)%nat.
Proof. induction s as [| c s IH]; simpl; [done | by rewrite IH]. Qed.

Lemma app_inv_length (s1 s2 t1 t2 : string) :
  (s1 ++ t1 = s2 ++ t2)%string → String.length s1 = String.length s2 →
  s1 = s2 ∧ t1 = t2.
Proof.
  revert s2. induction s1 as [| c s1 IH]; intros [| d s2]; simpl; try done.
  intros [= -> E] [= Hlen]. by destruct (IH s2 E Hlen) as [-> ->].
Qed.

Lemma length_substring (s : string) (a b : nat) :
  (a + b ≤ String.length s)%nat → String.length (substring a b s) = b.
Proof.
  revert a b. induction s as [| c s IH]; intros [| a] [| b]; simpl; try lia.
  - intros H. rewrite (IH 0%nat b); lia.
  - intros H. apply (IH a 0%nat). lia.
  - intros H. apply (IH a (S b)). lia.
Qed.

Lemma substring_split (s : string) (a b : nat) :
  (a + b = String.length s)%nat →
  (substring 0 a s ++ substring a b s)%string = s.
Proof.
  revert a b. induction s as [| c s IH]; intros [| a] b; simpl; try lia.
  - by intros ->.
  - intros ->. change (String c (substring 0 (String.length s) s) = String c s).
    f_equal. pose proof (IH 0%nat _ eq_refl) as E.
    by replace (substring 0 0 s) with "" in E by by destruct s.
  - intros [= H].
    change (String c (substring 0 a s ++ substring a b s)%string = String c s).
    f_equal. by apply IH.
Qed.

Lemma app_nil_string (s : string) : ("" ++ s)%string = s.
Proof. reflexivity. Qed.

Lemma app_cons_string c (s t : string) :
  (String c s ++ t)%string = String c (s ++ t)%string.
Proof. reflexivity. Qed.

(** The characters of a string all satisfy [P]. *)
Abbreviation chars P s := (Forall P (list_ascii_of_string s)).

Lemma chars_app (P : ascii → Prop) (s t : string) :
  chars P (s ++ t)%string ↔ chars P s ∧ chars P t.
Proof.
  induction s as [| c s IH]; simpl.
  - split; [by split | by intros [_ ?]].
  - rewrite !Forall_cons, IH. tauto.
Qed.

Lemma chars_substring (P : ascii → Prop) (s : string) (a b : nat) :
  chars P s → chars P (substring a b s).
Proof.
  revert a b. induction s as [| c s IH]; intros a b Hs; [by destruct a, b|].
  apply Forall_cons in Hs as [Hc Hs].
  destruct a as [| a], b as [| b]; simpl; try done; [|by apply IH ..].
  constructor; [done | by apply IH].
Qed.

(** Two texts with a comma between them are told apart at the first
    comma. *)
Lemma split_at_comma (a1 a2 b1 b2 : string) :
  chars (λ c, c ≠ ","%char) a1 → chars (λ c, c ≠ ","%char) a2 →
  (a1 ++ "," ++ b1 = a2 ++ "," ++ b2)%string → a1 = a2 ∧ b1 = b2.
Proof.
  revert a2. induction a1 as [| c a1 IH]; intros [| d a2] H1 H2;
    rewrite ?app_cons_string, ?app_nil_string.
  - by intros [= ->].
  - intros [= <- _]. by apply Forall_cons in H2 as [? _].
  - intros [= -> _]. by apply Forall_cons in H1 as [? _].
  - intros [= -> E]. apply Forall_cons in H1 as [_ H1], H2 as [_ H2].
    by destruct (IH a2 H1 H2 E) as [-> ->].
Qed.

(** ** Decimal digits *)

(** Neither a comma nor a minus sign. *)
Abbreviation plain := (λ c : ascii, c ≠ ","%char ∧ c ≠ "-"%char).

Lemma pretty_N_char_plain x : plain (pretty_N_char x).
Proof. unfold pretty_N_char. by repeat case_match. Qed.

Lemma pretty_N_go_plain x s : chars plain s → chars plain (pretty_N_go x s).
Proof.
  revert s. induction (N.lt_wf_0 x) as [x _ IH]; intros s Hs.
  assert (x = 0 ∨ 0 < x)%N as [-> | Hx] by lia; [by rewrite pretty_N_go_0|].
  rewrite pretty_N_go_step by done. apply IH; [by apply N.div_lt|].
  constructor; [apply pretty_N_char_plain | done].
Qed.

Lemma digits_plain n : chars plain (digits n).
Proof.
  unfold digits, pretty, pretty_N. destruct (decide (Z.to_N n = 0%N)).
  - by repeat constructor.
  - by apply pretty_N_go_plain.
Qed.

(** The digits of a number other than zero do not begin with a zero. *)
Lemma pretty_N_go_leading x s :
  (0 < x)%N → ∃ c rest, pretty_N_go x s = String c rest ∧ c ≠ "0"%char.
Proof.
  revert s. induction (N.lt_wf_0 x) as [x _ IH]; intros s Hx.
  rewrite pretty_N_go_step by done.
  destruct (N.eq_0_gt_0_cases (x `div` 10)) as [E | Hd].
  - rewrite E, pretty_N_go_0. eexists _, _. split; [reflexivity|].
    assert (x < 10)%N by (by apply N.div_small_iff in E).
    rewrite N.mod_small by done.
    assert (x = 1 ∨ x = 2 ∨ x = 3 ∨ x = 4 ∨ x = 5 ∨ x = 6
            ∨ x = 7 ∨ x = 8 ∨ x = 9)%N as Hc by lia.
    repeat (destruct Hc as [-> | Hc]); try subst x; done.
  - apply IH; [by apply N.div_lt | done].
Qed.

Lemma digits_leading n rest : digits n = String "0" rest → rest = "".
Proof.
  unfold digits, pretty, pretty_N. destruct (decide (Z.to_N n = 0%N)) as [| Hn].
  - by intros [= <-].
  - destruct (pretty_N_go_leading (Z.to_N n) "") as (c & r & -> & Hc); [lia|].
    by intros [= -> _].
Qed.

Lemma digits_nonempty n : digits n ≠ "".
Proof.
  unfold digits, pretty, pretty_N. destruct (decide (Z.to_N n = 0%N)) as [| Hn]; [done|].
  by destruct (pretty_N_go_leading (Z.to_N n) "") as (c & r & -> & Hc); [lia|].
Qed.

Lemma digits_inj n1 n2 : 0 ≤ n1 → 0 ≤ n2 → digits n1 = digits n2 → n1 = n2.
Proof.
  intros H1 H2 E. unfold digits in E. apply (inj pretty) in E. lia.
Qed.

Lemma zeros_length k : String.length (zeros k) = k.
Proof. induction k; simpl; [done | by f_equal]. Qed.

Lemma zeros_plain k : chars plain (zeros k).
Proof. induction k; simpl; [done | by constructor]. Qed.

Lemma zeros_app a b : zeros (a + b) = (zeros a ++ zeros b)%string.
Proof.
  induction a as [| a IH]; [done|].
  change (String "0" (zeros (a + b)) = String "0" (zeros a ++ zeros b)%string).
  by rewrite IH.
Qed.

Lemma app_assoc_string (s t u : string) :
  ((s ++ t) ++ u = s ++ (t ++ u))%string.
Proof.
  induction s as [| c s IH]; [done|].
  rewrite !app_cons_string. by rewrite IH.
Qed.

(** ** Where [toFixed] puts the point *)

Lemma digits_length n : (1 ≤ String.length (digits n))%nat.
Proof.
  pose proof (digits_nonempty n). destruct (digits n); simpl; [done | lia].
Qed.

Lemma padded_length f n : (f + 1 ≤ String.length (padded f n))%nat.
Proof.
  unfold padded. destruct (Nat.leb_spec (String.length (digits n)) f); [|lia].
  rewrite length_app_string, zeros_length. lia.
Qed.

Lemma padded_plain f n : chars plain (padded f n).
Proof.
  unfold padded.
  destruct (String.length (digits n) <=? f)%nat; [|apply digits_plain].
  apply chars_app. split; [apply zeros_plain | apply digits_plain].
Qed.

(** Zeros put before the digits of a number are not digits of another. *)
Lemma zeros_before_digits j n1 n2 :
  (zeros (S j) ++ digits n1)%string = digits n2 → False.
Proof.
  change (zeros (S j) ++ digits n1)%string
    with (String "0" (zeros j ++ digits n1)%string).
  intros E. symmetry in E. pose proof (digits_leading _ _ E) as Hrest.
  apply (f_equal String.length) in Hrest.
  rewrite length_app_string in Hrest. pose proof (digits_length n1).
  simpl in Hrest. lia.
Qed.

Lemma padded_inj f n1 n2 :
  0 ≤ n1 → 0 ≤ n2 → padded f n1 = padded f n2 → n1 = n2.
Proof.
  unfold padded. intros H1 H2 E. apply digits_inj; [done | done |].
  pose proof (digits_length n1) as Hk1. pose proof (digits_length n2) as Hk2.
  destruct (Nat.leb_spec (String.length (digits n1)) f) as [Hl1 | Hl1],
           (Nat.leb_spec (String.length (digits n2)) f) as [Hl2 | Hl2].
  - destruct (Nat.lt_trichotomy (String.length (digits n1)) (String.length (digits n2)))
      as [Hlt | [Heq | Hgt]].
    + exfalso.
      replace (f + 1 - String.length (digits n1))%nat
        with ((f + 1 - String.length (digits n2))
              + S (String.length (digits n2) - String.length (digits n1) - 1))%nat
        in E by lia.
      rewrite zeros_app, app_assoc_string in E.
      apply app_inv_length in E as [_ E]; [|done].
      by apply zeros_before_digits in E.
    + rewrite Heq in E. by apply app_inv_length in E as [_ E].
    + exfalso.
      replace (f + 1 - String.length (digits n2))%nat
        with ((f + 1 - String.length (digits n1))
              + S (String.length (digits n1) - String.length (digits n2) - 1))%nat
        in E by lia.
      rewrite zeros_app, app_assoc_string in E.
      apply app_inv_length in E as [_ E]; [|done].
      symmetry in E. by apply zeros_before_digits in E.
  - exfalso.
    replace (f + 1 - String.length (digits n1))%nat
      with (S (f - String.length (digits n1)))%nat in E by lia.
    by apply zeros_before_digits in E.
  - exfalso.
    replace (f + 1 - String.length (digits n2))%nat
      with (S (f - String.length (digits n2)))%nat in E by lia.
    symmetry in E. by apply zeros_before_digits in E.
  - done.
Qed.

Lemma placePoint_unfold f n :
  f ≠ 0%nat →
  placePoint f n =
    (substring 0 (String.length (padded f n) - f) (padded f n) ++ "." ++
     substring (String.length (padded f n) - f) f (padded f n))%string.
Proof.
  intros Hf. unfold placePoint, padded. by destruct (Nat.eqb_spec f 0).
Qed.

Lemma placePoint_plain f n : f ≠ 0%nat → chars plain (placePoint f n).
Proof.
  intros Hf. rewrite placePoint_unfold by done.
  pose proof (padded_plain f n) as Hp.
  apply chars_app. split; [by apply chars_substring|].
  apply chars_app. split; [by repeat constructor | by apply chars_substring].
Qed.

(** The rendering with the point tells the number. *)
Lemma placePoint_inj f n1 n2 :
  f ≠ 0%nat → 0 ≤ n1 → 0 ≤ n2 → placePoint f n1 = placePoint f n2 → n1 = n2.
Proof.
  intros Hf H1 H2. rewrite !placePoint_unfold by done.
  pose proof (padded_length f n1) as Hl1. pose proof (padded_length f n2) as Hl2.
  set (m1 := padded f n1) in *. set (m2 := padded f n2) in *.
  intros E.
  assert (Hlen : String.length m1 = String.length m2).
  { apply (f_equal String.length) in E.
    rewrite !length_app_string, !length_substring in E by lia.
    simpl in E. lia. }
  apply app_inv_length in E as [Ea Eb]; [|by rewrite !length_substring by lia; lia].
  rewrite !app_cons_string, !app_nil_string in Eb. injection Eb as Eb.
  apply (padded_inj f); [done | done |]. fold m1 m2.
  rewrite <- (substring_split m1 (String.length m1 - f) f) by lia.
  rewrite <- (substring_split m2 (String.length m2 - f) f) by lia.
  by rewrite Ea, Eb.
Qed.

(** What [toFixed] renders of a number in its range: a sign, then the
    number rounded, with the point. *)
Lemma toFixed_shape x f :
  fixedRange x = true →
  ∃ n, 0 ≤ n ∧ roundedAt f x = Some (cond_Zopp (ltZero x) n) ∧
       toFixed Number_toString x f =
         ((if ltZero x then "-" else "") ++ placePoint f n)%string.
Proof.
  destruct x as [s | s | | s m e]; try discriminate.
  - intros _. exists 0. by destruct s.
  - intros Hx. simpl in Hx. apply negb_true_iff in Hx.
    exists (scaledNearest f m e). split; [apply scaledNearest_nonneg|].
    rewrite ltZero_finite. split; [done|].
    unfold toFixed. by rewrite Hx.
Qed.

Lemma toFixed_plain x f :
  f ≠ 0%nat → fixedRange x = true →
  chars (λ c, c ≠ ","%char) (toFixed Number_toString x f).
Proof.
  intros Hf Hx. destruct (toFixed_shape x f Hx) as (n & _ & _ & ->).
  apply chars_app. split.
  - destruct (ltZero x); by repeat constructor.
  - eapply Forall_impl; [by apply placePoint_plain|]. by intros c [? _].
Qed.

(** Two numbers in the range of [toFixed] that are rendered alike round
    to the same number and have the same sign. *)
Lemma toFixed_inj x y f :
  f ≠ 0%nat → fixedRange x = true → fixedRange y = true →
  toFixed Number_toString x f = toFixed Number_toString y f →
  roundedAt f x = roundedAt f y ∧ ltZero x = ltZero y.
Proof.
  intros Hf Hx Hy.
  destruct (toFixed_shape x f Hx) as (n1 & H1 & -> & ->).
  destruct (toFixed_shape y f Hy) as (n2 & H2 & -> & ->).
  pose proof (placePoint_plain f n1 Hf) as Hp1.
  pose proof (placePoint_plain f n2 Hf) as Hp2.
  destruct (ltZero x), (ltZero y);
    rewrite ?app_cons_string, ?app_nil_string; intros E.
  - injection E as E. by rewrite (placePoint_inj f n1 n2 Hf H1 H2 E).
  - exfalso. rewrite <- E in Hp2. apply Forall_cons in Hp2 as [[_ ?] _]. done.
  - exfalso. rewrite E in Hp1. apply Forall_cons in Hp1 as [[_ ?] _]. done.
  - by rewrite (placePoint_inj f n1 n2 Hf H1 H2 E).
Qed.

(** Keys that agree come from coordinates that round alike, and
    coordinates that round alike get keys that agree. *)
Lemma coordsBucketKey_inj lat1 lon1 lat2 lon2 :
  fixedRange lat1 = true → fixedRange lon1 = true →
  fixedRange lat2 = true → fixedRange lon2 = true →
  coordsBucketKey lat1 lon1 = coordsBucketKey lat2 lon2 →
  roundedAt 3 lat1 = roundedAt 3 lat2 ∧ ltZero lat1 = ltZero lat2 ∧
  roundedAt 3 lon1 = roundedAt 3 lon2 ∧ ltZero lon1 = ltZero lon2.
Proof.
  intros Ha1 Ho1 Ha2 Ho2. unfold Pipeline.coordsBucketKey.
  rewrite !app_cons_string, !app_nil_string. intros [= E].
  apply split_at_comma in E as [Ea Eo]; [|by apply toFixed_plain ..].
  destruct (toFixed_inj lat1 lat2 3 ltac:(done) Ha1 Ha2 Ea).
  destruct (toFixed_inj lon1 lon2 3 ltac:(done) Ho1 Ho2 Eo).
  done.
Qed.

Lemma coordsBucketKey_same lat1 lon1 lat2 lon2 :
  fixedRange lat1 = true → fixedRange lon1 = true →
  fixedRange lat2 = true → fixedRange lon2 = true →
  roundedAt 3 lat1 = roundedAt 3 lat2 → ltZero lat1 = ltZero lat2 →
  roundedAt 3 lon1 = roundedAt 3 lon2 → ltZero lon1 = ltZero lon2 →
  coordsBucketKey lat1 lon1 = coordsBucketKey lat2 lon2.
Proof.
  intros Ha1 Ho1 Ha2 Ho2 Hra Hsa Hro Hso. unfold Pipeline.coordsBucketKey.
  rewrite (toFixed_same Number_toString 3 lat1 lat2) by done.
  by rewrite (toFixed_same Number_toString 3 lon1 lon2).
Qed.

(** X13: places share a bucket exactly when they lie in the same cell.
    Two pairs of coordinates, each within the range [toFixed] renders,
    get the same bucket key if and only if their latitudes, and their
    longitudes, round to the same value at three decimals and are both
    below zero or both not: no bucket serves two different cells. *)
Theorem same_bucket_same_cell lat1 lon1 lat2 lon2 :
  fixedRange lat1 = true → fixedRange lon1 = true →
  fixedRange lat2 = true → fixedRange lon2 = true →
  coordsBucketKey lat1 lon1 = coordsBucketKey lat2 lon2 ↔
  roundedAt 3 lat1 = roundedAt 3 lat2 ∧ ltZero lat1 = ltZero lat2 ∧
  roundedAt 3 lon1 = roundedAt 3 lon2 ∧ ltZero lon1 = ltZero lon2.
Proof.
  intros Ha1 Ho1 Ha2 Ho2. split.
  - by apply coordsBucketKey_inj.
  - intros (Hra & Hsa & Hro & Hso). by apply coordsBucketKey_same.
Qed.

End KeyFacts.

(* ===================================================================== *)
(** * Properties of the subscriber store *)
(* ===================================================================== *)

Section StoreFacts.
Import JsNum Nws Subscribers.
Variable String_trim : string -> string.
Variable String_toLowerCase : string -> string.
Variable isEmail : string -> bool.
Variable randomHex : nat -> string.
Variable isoNow : nat -> string.

Abbreviation normalizeEmail := (Subscribers.normalizeEmail String_trim String_toLowerCase).
Abbreviation migrateEntries :=
  (Subscribers.migrateEntries String_trim String_toLowerCase randomHex isoNow).
Abbreviation migrate :=
  (Subscribers.migrate String_trim String_toLowerCase randomHex isoNow).
Abbreviation readAll :=
  (Subscribers.readAll String_trim String_toLowerCase randomHex isoNow).
Abbreviation listSubscribers :=
  (Subscribers.listSubscribers String_trim String_toLowerCase randomHex isoNow).
Abbreviation addSubscriber :=
  (Subscribers.addSubscriber String_trim String_toLowerCase isEmail randomHex isoNow).
Abbreviation updateSubscriber :=
  (Subscribers.updateSubscriber String_trim String_toLowerCase randomHex isoNow).
Abbreviation removeSubscriberByToken :=
  (Subscribers.removeSubscriberByToken String_trim String_toLowerCase randomHex isoNow).

(** What reading back makes of a subscriber that was written: the
    address is normalised again and the coordinates are the ones JSON
    kept. *)
Abbreviation reread s :=
  {| email := normalizeEmail (email s);
     sub_location := jsonLocation <$> sub_location s;
     sub_unit := sub_unit s; timezone := timezone s; token := token s;
     subscribedAt := subscribedAt s; lastSentOn := lastSentOn s |}.

(** Subscribers that all have a token are read back from the file
    without drawing a token or reading the clock. *)
Lemma migrateEntries_written subscribers k j :
  Forall (λ s, truthy (token s) = true) subscribers →
  migrateEntries (jsonSubscriber <$> subscribers) k j =
    ((λ s, reread s) <$> subscribers, (k, j)).
Proof.
  induction 1 as [| s rest Hs _ IH]; [done|].
  cbn [fmap list_fmap Subscribers.migrateEntries jsonSubscriber stored_token
       stored_subscribedAt stored_email stored_location stored_unit
       stored_timezone stored_lastSentOn tokenOr subscribedAtOr default].
  rewrite Hs. fold (list_fmap _ _ jsonSubscriber rest).
  change (list_fmap _ _ jsonSubscriber rest) with (jsonSubscriber <$> rest).
  by rewrite IH.
Qed.

Lemma migrateEmails_data emails k j :
  ∃ data counts,
    Subscribers.migrateEmails String_trim String_toLowerCase randomHex isoNow emails k j
      = (data, counts) ∧
    length data = length emails ∧
    Forall (λ s, ∃ n e, token s = randomHex n ∧ email s = normalizeEmail e) data.
Proof.
  revert k j. induction emails as [| e rest IH]; intros k j; simpl.
  - by exists [], (k, j).
  - destruct (IH (S k) (S j)) as (data & counts & -> & Hlen & Hall).
    eexists _, _. split; [reflexivity|]. split; [simpl; by rewrite Hlen|].
    constructor; [simpl; eauto | done].
Qed.

Lemma migrateEntries_data entries k j :
  ∃ data counts,
    migrateEntries entries k j = (data, counts) ∧
    length data = length entries ∧
    Forall (λ s, (truthy (token s) = true ∨ ∃ n, token s = randomHex n) ∧
                 ∃ e, email s = normalizeEmail e) data.
Proof.
  revert k j. induction entries as [| entry rest IH]; intros k j; simpl.
  - by exists [], (k, j).
  - destruct (tokenOr randomHex (stored_token entry) k) as [tok k'] eqn:Htok.
    destruct (subscribedAtOr isoNow (stored_subscribedAt entry) j) as [at_ j'].
    destruct (IH k' j') as (data & counts & -> & Hlen & Hall).
    eexists _, _. split; [reflexivity|]. split; [simpl; by rewrite Hlen|].
    constructor; [simpl | done]. split; [|eauto].
    unfold tokenOr in Htok. destruct (stored_token entry) as [t|].
    + destruct (truthy t) eqn:Ht; injection Htok as <- <-; eauto.
    + injection Htok as <- <-. eauto.
Qed.

(** Every subscriber that is read has a normalised address and a token
    that was in the file, not empty, or was generated. *)
Abbreviation wellRead s :=
  ((truthy (token s) = true ∨ ∃ n, token s = randomHex n) ∧
   ∃ e, email s = normalizeEmail e).

(** Reading the store either throws the error of [JSON.parse], leaving
    the store as it is, or returns subscribers and leaves them written
    in the file. *)
Lemma readAll_cases w :
  (∃ error, file w = Corrupt error ∧ readAll w = (inl error, w)) ∨
  (∃ subscribers w',
     readAll w = (inr subscribers, w') ∧ file w' = written subscribers ∧
     Forall (λ s, wellRead s) subscribers).
Proof.
  unfold Subscribers.readAll, ensureFile.
  destruct w as [[| error | [| first others | entries]] k j]; simpl.
  - right. by eexists [], _.
  - left. by exists error.
  - right. by eexists [], _.
  - right.
    destruct (migrateEmails_data (first :: others) k j)
      as (data & counts' & E & _ & Hall). simpl in E.
    destruct (Subscribers.migrateEmails _ _ _ _ others (S k) (S j))
      as [rest [k' j']].
    injection E as <- <-. eexists _, _. split; [reflexivity|]. split; [done|].
    eapply Forall_impl; [exact Hall|]. intros s (n & e & -> & ->). eauto.
  - right. destruct entries as [| entry rest]; [by eexists [], _|].
    destruct (migrateEntries_data (entry :: rest) k j)
      as (data & [k' j'] & E & _ & Hall). rewrite E.
    eexists _, _. split; [reflexivity|]. by split.
Qed.

Lemma readAll_written subscribers k j :
  Forall (λ s, truthy (token s) = true) subscribers →
  readAll {| file := written subscribers; drawn := k; readings := j |} =
    (inr ((λ s, reread s) <$> subscribers),
     {| file := written ((λ s, reread s) <$> subscribers);
        drawn := k; readings := j |}).
Proof.
  intros Hall. unfold Subscribers.readAll, ensureFile, written. simpl.
  destruct subscribers as [| s rest]; [done|].
  pose proof (migrateEntries_written (s :: rest) k j Hall) as E.
  change (migrateEntries (jsonSubscriber <$> s :: rest) k j)
    with (migrateEntries (jsonSubscriber s :: (jsonSubscriber <$> rest)) k j) in E.
  unfold Subscribers.migrate.
  change (jsonSubscriber <$> s :: rest) with (jsonSubscriber s :: (jsonSubscriber <$> rest)).
  cbv iota. by rewrite E.
Qed.


Section GeneratedTokens.
(** A generated token, sixteen random bytes in hexadecimal, is not the
    empty string. *)
Hypothesis randomHex_truthy : ∀ k, truthy (randomHex k) = true.

Lemma wellRead_truthy subscribers :
  Forall (λ s, wellRead s) subscribers →
  Forall (λ s, truthy (token s) = true) subscribers.
Proof.
  intros Hall. eapply Forall_impl; [exact Hall|].
  intros s [[? | [n ->]] _]; [done | apply randomHex_truthy].
Qed.

(** X14: what has been listed stays.  When generated tokens are not
    empty, listing the subscribers a second time draws no token and
    reads no clock, and returns the same subscribers, one for one in
    the same order, each with the token, subscription date, unit, time
    zone and last-sent date it had: an unsubscribe link, once issued,
    keeps naming its subscriber. *)
Theorem listed_subscribers_keep_their_tokens w subscribers w' :
  listSubscribers w = (inr subscribers, w') →
  ∃ again w'',
    listSubscribers w' = (inr again, w'') ∧
    drawn w'' = drawn w' ∧ readings w'' = readings w' ∧
    token <$> again = token <$> subscribers ∧
    subscribedAt <$> again = subscribedAt <$> subscribers ∧
    sub_unit <$> again = sub_unit <$> subscribers ∧
    timezone <$> again = timezone <$> subscribers ∧
    lastSentOn <$> again = lastSentOn <$> subscribers ∧
    ((∀ e, normalizeEmail (normalizeEmail e) = normalizeEmail e) →
     email <$> again = email <$> subscribers).
Proof.
  unfold Subscribers.listSubscribers. intros Hread.
  destruct (readAll_cases w) as [(error & _ & E) | (subs & w1 & E & Hfile & Hall)];
    rewrite E in Hread; [discriminate|].
  injection Hread as <- <-.
  destruct w1 as [f k j]. simpl in Hfile. subst f.
  rewrite (readAll_written subs k j (wellRead_truthy subs Hall)).
  eexists _, _. split; [reflexivity|]. simpl.
  rewrite <- !list_fmap_compose. do 7 (split; [reflexivity|]).
  intros Hidem. apply Forall_fmap_ext_1.
  eapply Forall_impl; [exact Hall|]. intros s [_ [e He]]. simpl.
  by rewrite He, Hidem.
Qed.

(** A filter keeps the length of a list exactly when it keeps every
    element. *)
Lemma filter_keeps_length {A} (P : A → Prop) `{∀ x, Decision (P x)} (l : list A) :
  length (filter P l) = length l ↔ Forall P l.
Proof.
  induction l as [| x l IH]; [done|].
  pose proof (length_filter P l) as Hle.
  destruct (decide (P x)) as [Hx | Hx].
  - rewrite filter_cons_True by done. simpl. rewrite Forall_cons.
    split; [intros [= E]; split; [done | by apply IH] | intros [_ E%IH]; by f_equal].
  - rewrite filter_cons_False by done. simpl. rewrite Forall_cons.
    split; [lia | by intros [? _]].
Qed.

Lemma tokens_filtered t (l : list Subscriber) :
  token <$> filter (λ s, token s ≠ t) l = filter (λ x, x ≠ t) (token <$> l).
Proof.
  induction l as [| s l IH]; [done|]. rewrite fmap_cons.
  destruct (decide (token s ≠ t)).
  - rewrite !filter_cons_True by done. by rewrite fmap_cons, IH.
  - by rewrite !filter_cons_False.
Qed.

(** What [removeSubscriberByToken] does to a store that can be read. *)
Lemma removeSubscriberByToken_cases t w subscribers w1 :
  readAll w = (inr subscribers, w1) →
  removeSubscriberByToken t w =
    (inr (bool_decide (t ∈ token <$> subscribers)),
     if bool_decide (t ∈ token <$> subscribers)
     then {| file := written (filter (λ s, token s ≠ t) subscribers);
             drawn := drawn w1; readings := readings w1 |}
     else w1).
Proof.
  intros E. unfold Subscribers.removeSubscriberByToken. rewrite E.
  destruct (Nat.eqb_spec (length (filter (λ s, token s ≠ t) subscribers))
              (length subscribers)) as [Hlen | Hlen].
  - apply filter_keeps_length in Hlen.
    rewrite bool_decide_eq_false_2; [done|].
    intros (s & -> & Hs)%list_elem_of_fmap.
    by apply (proj1 (Forall_forall _ _) Hlen s Hs).
  - rewrite bool_decide_eq_true_2; [done|].
    destruct (decide (t ∈ token <$> subscribers)) as [|Hnot]; [done|].
    exfalso. apply Hlen, filter_keeps_length, Forall_forall.
    intros s Hs <-. apply Hnot, list_elem_of_fmap. eauto.
Qed.


(** What a successful [addSubscriber] leaves in the file. *)
Lemma addSubscriber_leaves e options w result w2 :
  addSubscriber e options w = (inr result, w2) → res_ok result = true →
  ∃ stored,
    file w2 = written stored ∧ Forall (λ s, wellRead s) stored ∧
    normalizeEmail e ∈ email <$> stored.
Proof.
  unfold Subscribers.addSubscriber.
  destruct (isEmail (normalizeEmail e)); cbn [negb];
    [|intros [= <- <-]; discriminate].
  destruct (readAll_cases w) as [(error & _ & E) | (subs & w1 & E & Hfile & Hall)];
    rewrite E; [discriminate|].
  destruct (list_find (λ entry, email entry = normalizeEmail e) subs)
    as [[i existing]|] eqn:Hfind; intros [= <- <-] _.
  - apply list_find_Some in Hfind as (Hi & He & _).
    eexists. split; [reflexivity|]. split.
    + apply Forall_insert; [done|].
      pose proof (proj1 (Forall_lookup _ _) Hall i existing Hi) as [Ht [x Hx]].
      split; [exact Ht | by exists x].
    + apply list_elem_of_fmap. eexists. split; [|apply list_elem_of_lookup_2 with i;
        apply list_lookup_insert_eq; by eapply lookup_lt_Some].
      by rewrite <- He.
  - eexists. split; [reflexivity|]. split.
    + apply Forall_app. split; [done|]. constructor; [|done].
      split; [right; eauto | by exists e].
    + rewrite fmap_app. apply elem_of_app. right. by apply list_elem_of_singleton.
Qed.


End GeneratedTokens.


End StoreFacts.

(* ===================================================================== *)
(** * Properties of the route handlers *)
(* ===================================================================== *)

Section WeatherRouteFacts.
Import JsNum Nws Pipeline Routes.
Variable Number_toString : Number -> string.
Variable Number_parseFloat : string -> Number.

Abbreviation weatherCall := (Routes.weatherCall Number_toString Number_parseFloat).

Lemma fixedRange_finite x : fixedRange x = true → Number_isFinite x = true.
Proof. by destruct x. Qed.

(** X18: which bucket the weather route asks for.  When the parameters
    [lat] and [lon] are both there, not empty, and both parse to finite
    numbers, the handler calls the cache for the bucket of those two
    numbers, with the fetcher of those two numbers and the [name]
    parameter as display name; in every other case (a parameter absent or
    empty, or one that parses to NaN or to an infinity) it calls the cache
    for the default bucket and drops the name.  Two requests whose
    coordinates parse to numbers in the range [toFixed] renders are
    served from the same bucket exactly when their latitudes, and their
    longitudes, round to the same value at three decimals and are both
    below zero or both not: the sign is part of the key, so a place just
    south and a place just north of the equator, which both round to
    0.000, are served from different buckets. *)
Theorem weather_route_buckets :
  (∀ latParam lonParam name clock,
     (∃ la lo,
        latParam = Some la ∧ lonParam = Some lo ∧ la ≠ "" ∧ lo ≠ "" ∧
        Number_isFinite (Number_parseFloat la) = true ∧
        Number_isFinite (Number_parseFloat lo) = true ∧
        weatherCall latParam lonParam name clock =
          Call (coordsBucketKey Number_toString
                  (Number_parseFloat la) (Number_parseFloat lo))
               (Some (Number_parseFloat la), Some (Number_parseFloat lo))
               name clock) ∨
     ((latParam = None ∨ latParam = Some "" ∨ lonParam = None ∨ lonParam = Some "" ∨
       (∃ la, latParam = Some la ∧ Number_isFinite (Number_parseFloat la) = false) ∨
       (∃ lo, lonParam = Some lo ∧ Number_isFinite (Number_parseFloat lo) = false)) ∧
      weatherCall latParam lonParam name clock =
        Call "default" (None, None) None clock)) ∧
  (∀ la1 lo1 name1 clock1 la2 lo2 name2 clock2,
     la1 ≠ "" → lo1 ≠ "" → la2 ≠ "" → lo2 ≠ "" →
     fixedRange (Number_parseFloat la1) = true →
     fixedRange (Number_parseFloat lo1) = true →
     fixedRange (Number_parseFloat la2) = true →
     fixedRange (Number_parseFloat lo2) = true →
     ∃ key1 key2,
       weatherCall (Some la1) (Some lo1) name1 clock1 =
         Call key1 (Some (Number_parseFloat la1), Some (Number_parseFloat lo1))
              name1 clock1 ∧
       weatherCall (Some la2) (Some lo2) name2 clock2 =
         Call key2 (Some (Number_parseFloat la2), Some (Number_parseFloat lo2))
              name2 clock2 ∧
       (key1 = key2 ↔
        roundedAt 3 (Number_parseFloat la1) = roundedAt 3 (Number_parseFloat la2) ∧
        ltZero (Number_parseFloat la1) = ltZero (Number_parseFloat la2) ∧
        roundedAt 3 (Number_parseFloat lo1) = roundedAt 3 (Number_parseFloat lo2) ∧
        ltZero (Number_parseFloat lo1) = ltZero (Number_parseFloat lo2))).
Proof.
  assert (Htruthy : ∀ x, x ≠ "" → truthy x = true).
  { intros x Hx. unfold truthy. by destruct (String.eqb_spec x ""). }
  split.
  - intros latParam lonParam name clock.
    unfold Routes.weatherCall, parseParam.
    destruct latParam as [la|]; [|right; split; [by left | done]].
    destruct (truthy la) eqn:Hla.
    2:{ right. split; [|done]. right; left. f_equal.
        unfold truthy in Hla. by destruct (String.eqb_spec la ""). }
    destruct lonParam as [lo|]; [|right; split; [by right; right; left | done]].
    destruct (truthy lo) eqn:Hlo.
    2:{ right. split; [|done]. right; right; right; left. f_equal.
        unfold truthy in Hlo. by destruct (String.eqb_spec lo ""). }
    destruct (Number_isFinite (Number_parseFloat la)) eqn:Hfa; cbn [andb].
    2:{ right. split; [|done]. do 4 right. left. eauto. }
    destruct (Number_isFinite (Number_parseFloat lo)) eqn:Hfo.
    2:{ right. split; [|done]. do 5 right. eauto. }
    left. exists la, lo. repeat split; try done.
    + intros ->. discriminate.
    + intros ->. discriminate.
  - intros la1 lo1 name1 clock1 la2 lo2 name2 clock2 Hla1 Hlo1 Hla2 Hlo2
      Ha1 Ho1 Ha2 Ho2.
    eexists _, _. unfold Routes.weatherCall, parseParam.
    rewrite !Htruthy, !fixedRange_finite by done. cbn [andb].
    split; [reflexivity|]. split; [reflexivity|].
    split; [by apply coordsBucketKey_inj|].
    intros (Hra & Hsa & Hro & Hso). by apply coordsBucketKey_same.
Qed.

End WeatherRouteFacts.

Section StoreRouteFacts.
Import JsNum Nws Subscribers Routes.
Variable String_trim : string -> string.
Variable String_toLowerCase : string -> string.
Variable randomHex : nat -> string.
Variable isoNow : nat -> string.

Abbreviation listSubscribers :=
  (Subscribers.listSubscribers String_trim String_toLowerCase randomHex isoNow).
Abbreviation readAll :=
  (Subscribers.readAll String_trim String_toLowerCase randomHex isoNow).
Abbreviation removeSubscriberByToken :=
  (Subscribers.removeSubscriberByToken String_trim String_toLowerCase randomHex isoNow).
Abbreviation unsubscribe :=
  (Routes.unsubscribe String_trim String_toLowerCase randomHex isoNow).

(** X19: an unsubscribe link works once.  A request without a token, or
    with an empty one, is answered 400 and the store is not touched; a
    store that cannot be read gives 500.  When generated tokens are not
    empty, a request answered with success was made with the token of a
    subscriber listed, and the same request made again is answered 404:
    the subscriber is gone. *)
Theorem unsubscribe_link_works_once :
  (∀ k, truthy (randomHex k) = true) →
  (∀ w, unsubscribe None w = (UnsubscribeError 400 "Missing token", w)) ∧
  (∀ w, unsubscribe (Some "") w = (UnsubscribeError 400 "Missing token", w)) ∧
  (∀ t w error,
     t ≠ "" → file w = Corrupt error →
     unsubscribe (Some t) w = (UnsubscribeError 500 "Unable to unsubscribe", w)) ∧
  (∀ t w w1,
     unsubscribe (Some t) w = (Unsubscribed, w1) →
     (∃ subscribers w0,
        listSubscribers w = (inr subscribers, w0) ∧ t ∈ token <$> subscribers) ∧
     ∃ w2, unsubscribe (Some t) w1 = (UnsubscribeError 404 "Invalid token", w2)).
Proof.
  intros Hhex. repeat apply conj; try done.
  - intros t w error Ht Hfile. unfold Routes.unsubscribe.
    assert (truthy t = true) as ->.
    { unfold truthy. by destruct (String.eqb_spec t ""). }
    cbn [negb].
    unfold Subscribers.removeSubscriberByToken, Subscribers.readAll, ensureFile.
    rewrite Hfile. cbn iota. by rewrite Hfile.
  - intros t w w1. unfold Routes.unsubscribe.
    destruct (truthy t) eqn:Ht; [cbn [negb] | discriminate].
    destruct (readAll_cases String_trim String_toLowerCase randomHex isoNow w)
      as [(error & _ & E) | (subs & w0 & E & Hfile & Hall)].
    { unfold Subscribers.removeSubscriberByToken. rewrite E. discriminate. }
    rewrite (removeSubscriberByToken_cases _ _ _ _ t w subs w0 E).
    destruct (decide (t ∈ token <$> subs)) as [Hin | Hnot].
    2:{ rewrite bool_decide_eq_false_2 by done. discriminate. }
    rewrite bool_decide_eq_true_2 by done. cbn [negb]. intros [= <-].
    split; [by exists subs, w0|].
    apply (wellRead_truthy _ _ _ Hhex) in Hall.
    assert (Hall' : Forall (λ s, truthy (token s) = true)
                      (filter (λ s, token s ≠ t) subs)).
    { apply Forall_forall. intros s [_ Hs]%list_elem_of_filter.
      by apply (proj1 (Forall_forall _ _) Hall). }
    pose proof (readAll_written String_trim String_toLowerCase randomHex isoNow
                  _ (drawn w0) (readings w0) Hall') as E'.
    rewrite (removeSubscriberByToken_cases _ _ _ _ t _ _ _ E').
    rewrite bool_decide_eq_false_2; [eauto|].
    rewrite <- list_fmap_compose. change (token ∘ _) with token.
    rewrite tokens_filtered. by intros [? _]%list_elem_of_filter.
Qed.

Section DigestFacts.
Variable getLocalHour : Z -> string -> Z.
Variable getLocalDate : Z -> string -> string.
Variable deliver : nat -> Subscriber -> Outcome ().

Abbreviation isDueNow := (Routes.isDueNow getLocalHour getLocalDate).
Abbreviation markSent := (Routes.markSent getLocalDate).
Abbreviation digest :=
  (Routes.digest String_trim String_toLowerCase randomHex isoNow
     getLocalHour getLocalDate deliver).

Lemma remove_dups_shorter (l : list string) :
  (length (remove_dups l) ≤ length l)%nat.
Proof.
  induction l as [| x l IH]; [done|]. simpl.
  destruct (decide_rel elem_of x l); simpl; lia.
Qed.

Lemma fulfilled_shorter (results : list (Outcome string)) :
  (length (fulfilled results) ≤ length results)%nat.
Proof.
  unfold fulfilled. induction results as [| r l IH]; [done|].
  cbn [omap list_omap]. destruct r; cbn [length]; lia.
Qed.

(** The subscribers a run of the digest tries to reach. *)
Abbreviation dueAt forceParam now subscribers :=
  (if bool_decide (forceParam = Some "1") then subscribers
   else filter (λ subscriber, isDueNow subscriber now = true) subscribers).

(** A subscriber marked as sent is not due at that instant. *)
Lemma markSent_cases sent now s :
  ((email s ∉ sent) ∧ markSent sent now s = s) ∨
  (email s ∈ sent ∧ isDueNow (markSent sent now s) now = false) .
Proof.
  unfold Routes.markSent. destruct (decide (email s ∈ sent)) as [Hin | Hnot].
  - right. split; [done|]. rewrite bool_decide_eq_true_2 by done.
    unfold Routes.isDueNow. cbn [timezone lastSentOn].
    rewrite bool_decide_eq_true_2 by done. apply andb_false_r.
  - left. split; [done|]. by rewrite bool_decide_eq_false_2.
Qed.

Lemma markSent_keeps sent now s :
  email (markSent sent now s) = email s ∧ token (markSent sent now s) = token s ∧
  timezone (markSent sent now s) = timezone s ∧
  sub_unit (markSent sent now s) = sub_unit s ∧
  subscribedAt (markSent sent now s) = subscribedAt s ∧
  sub_location (markSent sent now s) = sub_location s.
Proof. unfold Routes.markSent. by destruct (bool_decide _). Qed.

(** The addresses a run delivered to. *)
Lemma delivered_spec (due : list Subscriber) e :
  e ∈ remove_dups (fulfilled
        (imap (λ i subscriber,
                 await _ <- deliver i subscriber in inr (email subscriber)) due)) ↔
  ∃ i s, due !! i = Some s ∧ deliver i s = inr () ∧ email s = e.
Proof.
  rewrite elem_of_remove_dups. unfold fulfilled.
  rewrite list_elem_of_omap. split.
  - intros (result & Hin & Hres).
    apply elem_of_lookup_imap_1 in Hin as (i & s & -> & Hi).
    exists i, s. split; [done|].
    destruct (deliver i s) as [err | []]; [discriminate|].
    injection Hres as <-. done.
  - intros (i & s & Hi & Hd & <-). exists (inr (email s)). split; [|done].
    replace (inr (email s)) with
      (await _ <- deliver i s in (inr (email s) : Outcome string))
      by by rewrite Hd.
    by apply (elem_of_lookup_imap_2
                (λ i s, await _ <- deliver i s in (inr (email s) : Outcome string))).
Qed.

(** What a run of the digest answers and leaves in the store. *)
Lemma digest_cases forceParam now w subscribers w1 :
  listSubscribers w = (inr subscribers, w1) →
  let sent :=
    remove_dups (fulfilled
      (imap (λ i subscriber,
               await _ <- deliver i subscriber in inr (email subscriber))
            (dueAt forceParam now subscribers))) in
  digest forceParam now w =
    (DigestSent (length sent),
     if (0 <? length sent)%nat
     then saveSubscribers (markSent sent now <$> subscribers) w1
     else w1).
Proof.
  intros E sent. subst sent. unfold Routes.digest. rewrite E. cbv zeta.
  destruct (Nat.eqb_spec (length subscribers) 0) as [H0 | H0].
  { apply nil_length_inv in H0 as ->. by destruct (bool_decide _). }
  set (due := dueAt forceParam now subscribers).
  destruct (Nat.eqb_spec (length due) 0) as [Hd | Hd]; [|reflexivity].
  by apply nil_length_inv in Hd as ->.
Qed.


(** X21: what was delivered is not tried again the same day.  When
    generated tokens are not empty, the subscribers listed after a run
    of the digest are the subscribers listed before it, one for one, and
    one of them that is due at the instant of the run was due before it
    and has an address the run did not deliver to: a second run at that
    instant, without [force=1], tries only those the first run failed to
    reach. *)
Theorem delivered_are_not_tried_again forceParam now w subscribers w1 :
  (∀ k, truthy (randomHex k) = true) →
  listSubscribers w = (inr subscribers, w1) →
  ∃ sent w2 again w3,
    digest forceParam now w = (DigestSent (length sent), w2) ∧
    (∀ e, e ∈ sent ↔
          ∃ i s, dueAt forceParam now subscribers !! i = Some s ∧
                 deliver i s = inr () ∧ email s = e) ∧
    listSubscribers w2 = (inr again, w3) ∧
    length again = length subscribers ∧
    ∀ i s',
      again !! i = Some s' → isDueNow s' now = true →
      ∃ s, subscribers !! i = Some s ∧ token s' = token s ∧
           isDueNow s now = true ∧ email s ∉ sent.
Proof.
  intros Hhex E. rewrite (digest_cases forceParam now w subscribers w1 E).
  set (sent := remove_dups _).
  unfold Subscribers.listSubscribers in E.
  destruct (readAll_cases String_trim String_toLowerCase randomHex isoNow w)
    as [(error & _ & E') | (subs & w1' & E' & Hfile & Hall)];
    rewrite E' in E; [discriminate|].
  injection E as <- <-. apply (wellRead_truthy _ _ _ Hhex) in Hall.
  destruct w1' as [f k j]. simpl in Hfile. subst f.
  set (stored := if (0 <? length sent)%nat then markSent sent now <$> subs else subs).
  assert (Hstore :
    (if (0 <? length sent)%nat
     then saveSubscribers (markSent sent now <$> subs)
            {| file := written subs; drawn := k; readings := j |}
     else {| file := written subs; drawn := k; readings := j |}) =
    {| file := written stored; drawn := k; readings := j |}).
  { subst stored. by destruct (0 <? length sent)%nat. }
  rewrite Hstore.
  assert (Hstored : ∀ i x, stored !! i = Some x →
            ∃ s, subs !! i = Some s ∧ token x = token s ∧
                 (isDueNow x now = true → isDueNow s now = true ∧ email s ∉ sent)).
  { intros i x Hx. subst stored. destruct (0 <? length sent)%nat eqn:Hlen.
    - rewrite list_lookup_fmap in Hx.
      destruct (subs !! i) as [s|] eqn:Hs; [|discriminate].
      injection Hx as <-. exists s. split; [done|].
      split; [apply markSent_keeps|].
      destruct (markSent_cases sent now s) as [[Hnot ->] | [Hin Hdue]];
        [done | congruence].
    - exists x. split; [done|]. split; [done|]. intros Hdue. split; [done|].
      apply Nat.ltb_ge in Hlen. destruct sent; [apply not_elem_of_nil | simpl in Hlen; lia]. }
  assert (Hall' : Forall (λ s, truthy (token s) = true) stored).
  { apply Forall_lookup. intros i x Hx.
    destruct (Hstored i x Hx) as (s & Hs & -> & _).
    by apply (proj1 (Forall_lookup _ _) Hall i s). }
  exists sent. eexists _, _, _. split; [reflexivity|]. split.
  { apply delivered_spec. }
  unfold Subscribers.listSubscribers.
  rewrite (readAll_written String_trim String_toLowerCase randomHex isoNow
             stored k j Hall').
  split; [reflexivity|]. split.
  { rewrite length_fmap. subst stored.
    destruct (0 <? length sent)%nat; [apply length_fmap | done]. }
  intros i s' Hi Hdue. rewrite list_lookup_fmap in Hi.
  destruct (stored !! i) as [x|] eqn:Hx; [|discriminate].
  injection Hi as <-.
  destruct (Hstored i x Hx) as (s & Hs & Ht & Hd).
  exists s. split; [done|]. split; [done|]. by apply Hd.
Qed.

End DigestFacts.

End StoreRouteFacts.

(* ===================================================================== *)
(** * Further runs on the concrete inputs *)
(* ===================================================================== *)

Section MoreRuns.
Import JsNum Nws Pipeline Subscribers Routes Samples.

Lemma calledTrace_runs :
  run sampleISO initial calledTrace = Some (stateOf calledTrace).
Proof. vm_compute. reflexivity. Qed.

Lemma settledTrace_runs :
  run sampleISO initial settledTrace = Some (stateOf settledTrace).
Proof. vm_compute. reflexivity. Qed.

Lemma called_reachable : Pipeline.reachable sampleISO (stateOf calledTrace).
Proof.
  exact (run_reachable sampleISO initial calledTrace _
           (reachable_initial sampleISO) calledTrace_runs).
Qed.

Lemma settled_reachable : Pipeline.reachable sampleISO (stateOf settledTrace).
Proof.
  exact (run_reachable sampleISO initial settledTrace _
           (reachable_initial sampleISO) settledTrace_runs).
Qed.

Lemma sampleHex_truthy k : truthy (sampleHex k) = true.
Proof. reflexivity. Qed.

(** X1 after a successful fetch: the payload of the default bucket is
    the payload promise 0 resolved with. *)
Lemma cached_payload_fetched_run :
  ∃ p pr,
    promises (stateOf fetchedTrace) !! p = Some pr ∧ p_bucket pr = "default" ∧
    p_outcome pr = Some (inr (data fetchedEntry)).
Proof.
  apply (cached_payload_is_a_fetched_payload sampleISO (stateOf fetchedTrace)
           "default" fetchedBucket fetchedEntry).
  - exact fetched_reachable.
  - vm_compute. reflexivity.
  - reflexivity.
Defined.

(** X2 at a request whose fetch resolved a second after the call: it
    returns the payload tagged [live], stamped with the time the entry was
    stored. *)
Lemma resolved_fetch_live_run :
  ∃ b c,
    cacheBuckets (stateOf settledTrace) !! req_bucket waitingRequest = Some b ∧
    cache b = Some c ∧
    Pipeline.step sampleISO (stateOf settledTrace) (Resume 0 (reads 2001)) =
      Some {| cacheBuckets := cacheBuckets (stateOf settledTrace);
              promises := promises (stateOf settledTrace);
              requests :=
                <[0%nat := {| req_bucket := req_bucket waitingRequest;
                              req_overrideName := req_overrideName waitingRequest;
                              req_now := req_now waitingRequest;
                              req_status := Returned (inr
                                {| snap_data :=
                                     applyOverrideName samplePayload
                                       (req_overrideName waitingRequest);
                                   snap_meta :=
                                     {| source := live;
                                        meta_fetchedAt := sampleISO (fetchedAt c);
                                        ageMs := reads 2001 0%nat - fetchedAt c |} |}) |}]>
                  (requests (stateOf settledTrace)) |}.
Proof.
  apply (resolved_fetch_returns_live sampleISO (stateOf settledTrace) 0
           (reads 2001) waitingRequest 0 settledPromise samplePayload).
  - exact settled_reachable.
  - vm_compute. reflexivity.
  - reflexivity.
  - vm_compute. reflexivity.
  - reflexivity.
  - reflexivity.
Defined.

(** X3 at the first request of [failedRefetchTrace]: answered before the
    second call, it has the same answer after the failed fetch. *)
Lemma answered_request_final_run :
  ∃ req',
    requests (stateOf failedRefetchTrace) !! 0%nat = Some req' ∧
    req_bucket req' = req_bucket answeredRequest ∧
    req_overrideName req' = req_overrideName answeredRequest ∧
    req_now req' = req_now answeredRequest ∧
    ∀ result, req_status answeredRequest = Returned result → req' = answeredRequest.
Proof.
  apply (answered_request_is_final sampleISO (stateOf fetchedTrace)
           [ Call "default" (None, None) None (reads 602000);
             Reject 1 (ExnError "fetch failed");
             Finally 1 ]
           (stateOf failedRefetchTrace) 0 answeredRequest);
    vm_compute; reflexivity.
Defined.

(** X4 at a request that has just been made.  Another place is asked
    for in the meantime; then the fetch of the request resolves and runs
    its [finally] callback.  The request is as it was, and its next
    move is there to be made. *)
Lemma waiting_request_run :
  ∃ pr' b,
    promises (stateOf (calledTrace ++ meanwhileTrace)) !! 0%nat = Some pr' ∧
    p_bucket pr' = req_bucket waitingRequest ∧
    cacheBuckets (stateOf (calledTrace ++ meanwhileTrace))
      !! req_bucket waitingRequest = Some b ∧
    (∀ o, p_outcome startedPromise = Some o → p_outcome pr' = Some o) ∧
    (p_settled startedPromise = true → p_settled pr' = true) ∧
    ((∃ clock req' result,
        Resume 0 clock ∈ meanwhileTrace ∧
        requests (stateOf (calledTrace ++ meanwhileTrace)) !! 0%nat = Some req' ∧
        req_status req' = Returned result) ∨
     (requests (stateOf (calledTrace ++ meanwhileTrace)) !! 0%nat
        = Some waitingRequest ∧
      match p_outcome pr', p_settled pr' with
      | None, _ =>
          (∀ payload clock,
             is_Some (Pipeline.step sampleISO (stateOf (calledTrace ++ meanwhileTrace))
                        (Fulfil 0 payload clock))) ∧
          (∀ error,
             is_Some (Pipeline.step sampleISO (stateOf (calledTrace ++ meanwhileTrace))
                        (Reject 0 error))) ∧
          Pipeline.step sampleISO (stateOf (calledTrace ++ meanwhileTrace)) (Finally 0)
            = None ∧
          (∀ clock,
             Pipeline.step sampleISO (stateOf (calledTrace ++ meanwhileTrace))
               (Resume 0 clock) = None)
      | Some o, false =>
          is_Some (Pipeline.step sampleISO (stateOf (calledTrace ++ meanwhileTrace))
                     (Finally 0)) ∧
          (∀ payload clock,
             Pipeline.step sampleISO (stateOf (calledTrace ++ meanwhileTrace))
               (Fulfil 0 payload clock) = None) ∧
          (∀ error,
             Pipeline.step sampleISO (stateOf (calledTrace ++ meanwhileTrace))
               (Reject 0 error) = None) ∧
          (∀ clock,
             Pipeline.step sampleISO (stateOf (calledTrace ++ meanwhileTrace))
               (Resume 0 clock) = None)
      | Some o, true =>
          (∀ payload clock,
             Pipeline.step sampleISO (stateOf (calledTrace ++ meanwhileTrace))
               (Fulfil 0 payload clock) = None) ∧
          (∀ error,
             Pipeline.step sampleISO (stateOf (calledTrace ++ meanwhileTrace))
               (Reject 0 error) = None) ∧
          Pipeline.step sampleISO (stateOf (calledTrace ++ meanwhileTrace)) (Finally 0)
            = None ∧
          ∀ clock,
            Pipeline.step sampleISO (stateOf (calledTrace ++ meanwhileTrace))
              (Resume 0 clock) =
              Some {| cacheBuckets :=
                        cacheBuckets (stateOf (calledTrace ++ meanwhileTrace));
                      promises := promises (stateOf (calledTrace ++ meanwhileTrace));
                      requests :=
                        <[0%nat :=
                            {| req_bucket := req_bucket waitingRequest;
                               req_overrideName := req_overrideName waitingRequest;
                               req_now := req_now waitingRequest;
                               req_status :=
                                 Returned (afterAwait sampleISO b waitingRequest o
                                             clock) |}]>
                          (requests (stateOf (calledTrace ++ meanwhileTrace))) |}
      end)).
Proof.
  apply (waiting_request_depends_on_its_fetch_alone sampleISO
           (stateOf calledTrace) meanwhileTrace
           (stateOf (calledTrace ++ meanwhileTrace)) 0 waitingRequest 0
           startedPromise).
  - exact called_reachable.
  - vm_compute. reflexivity.
  - vm_compute. reflexivity.
  - reflexivity.
  - vm_compute. reflexivity.
Defined.

(** X6 at a service that answers everything and lists no station: the
    payload is built from the four replies, without an observation. *)
Lemma payload_from_delivered_replies_run :
  ∃ points fc hr stations observation rp rf rh rs,
    outcome (fetch_points netNoStation
               (pointsUrl sampleToString NYC_COORDS_lat NYC_COORDS_lon)) = inr rp ∧
    ok rp = true ∧ outcome (json rp) = inr points ∧
    outcome (fetch_forecast netNoStation (forecast points)) = inr rf ∧
    ok rf = true ∧ outcome (json rf) = inr fc ∧
    outcome (fetch_hourly netNoStation (forecastHourly points)) = inr rh ∧
    ok rh = true ∧ outcome (json rh) = inr hr ∧
    outcome (fetch_stations netNoStation (observationStations points)) = inr rs ∧
    ok rs = true ∧ outcome (json rs) = inr stations ∧
    match firstStationId stations with
    | Some id =>
        if truthy id
        then ∃ ro o,
               outcome (fetch_observation netNoStation (observationUrl id)) = inr ro ∧
               ok ro = true ∧ outcome (json ro) = inr o ∧ observation = Some o
        else observation = None
    | None => observation = None
    end ∧
    ∃ dailyMap,
      Nws.foldDaily sampleDateKey (forecast_periods fc) = inr dailyMap ∧
      Nws.buildPayload NYC_COORDS_lat NYC_COORDS_lon None
        samplePoints sampleForecast sampleHourly None sampleDaily =
      Nws.buildPayload NYC_COORDS_lat NYC_COORDS_lon None
        points fc hr observation dailyMap.
Proof.
  apply (payload_only_from_delivered_replies sampleToString sampleDateKey
           netNoStation NYC_COORDS_lat NYC_COORDS_lon None).
  vm_compute. reflexivity.
Defined.

(** X7 at a service whose daily forecast answers at once with a body
    that is found at instant 3 not to be JSON, and whose hourly forecast
    answers at instant 1 with status 500: the aggregation throws the
    status error of the hourly forecast. *)
Lemma hourly_status_error_first_run :
  Nws.getWeatherByCoords sampleToString sampleDateKey netGarbled
    NYC_COORDS_lat NYC_COORDS_lon None =
  inl (ExnError
         "NWS request failed: 500 https://api.weather.gov/gridpoints/OKX/33,35/forecast/hourly").
Proof.
  apply (proj1 (proj2 (proj2 (aggregation_throws_the_first_failure
                                sampleToString sampleDateKey netGarbled
                                NYC_COORDS_lat NYC_COORDS_lon None)))
           samplePoints 1%nat
           (ExnError
              "NWS request failed: 500 https://api.weather.gov/gridpoints/OKX/33,35/forecast/hourly")).
  - reflexivity.
  - apply list_elem_of_further, list_elem_of_here.
  - intros t' error'. rewrite !elem_of_cons, elem_of_nil.
    intros [E | [E | [E | []]]]; vm_compute in E.
    + injection E as -> ->. right. lia.
    + injection E as -> ->. by left.
    + discriminate E.
Defined.

Lemma twoDays_folded :
  Nws.foldDaily sampleDateKey (forecast_periods twoDayForecast) = inr twoDays.
Proof. vm_compute. reflexivity. Qed.

(** X9 at 6 May in a forecast of two days, which folds to [twoDays]. *)
Lemma sixth_of_may_entry_run :
  (∀ p, p ∈ forecast_periods twoDayForecast →
        ∃ k', sampleDateKey (startTime p) = inr k') ∧
  (Map_get twoDays "05/06/2024" = None ↔
   filter (λ p, sampleDateKey (startTime p) = inr "05/06/2024")
     (forecast_periods twoDayForecast) = []) ∧
  (∀ entry,
     Map_get twoDays "05/06/2024" = Some entry →
     (∃ p0, head (filter (λ p, sampleDateKey (startTime p) = inr "05/06/2024")
                    (forecast_periods twoDayForecast)) = Some p0 ∧
            date entry = startTime p0 ∧ day_name entry = name p0 ∧
            day_icon entry =
              icon (default p0
                      (last (filter (λ p, isDaytime p = true)
                               (filter (λ p, sampleDateKey (startTime p)
                                               = inr "05/06/2024")
                                  (forecast_periods twoDayForecast)))))) ∧
     highF entry =
       temperature <$>
         last (filter (λ p, isDaytime p = true)
                 (filter (λ p, sampleDateKey (startTime p) = inr "05/06/2024")
                    (forecast_periods twoDayForecast))) ∧
     lowF entry =
       temperature <$>
         last (filter (λ p, isDaytime p = false)
                 (filter (λ p, sampleDateKey (startTime p) = inr "05/06/2024")
                    (forecast_periods twoDayForecast)))) ∧
  (∀ lat lon overrideName points fc hr observation entry,
     entry ∈ daily (Nws.buildPayload lat lon overrideName points fc hr observation
                      twoDays) →
     ∃ k', Map_get twoDays k' = Some entry).
Proof.
  exact (daily_entry_of_first_and_last_periods sampleDateKey
           (forecast_periods twoDayForecast) twoDays "05/06/2024"
           twoDays_folded).
Defined.

(** X10 at the payload built from that forecast: Monday is listed before
    Tuesday. *)
Lemma sample_days_in_order_run :
  let listed :=
    daily (Nws.buildPayload NYC_COORDS_lat NYC_COORDS_lon None
             samplePoints twoDayForecast sampleHourly None twoDays) in
  let opening :=
    Notions.opens (λ p, sampleDateKey (startTime p)) (forecast_periods twoDayForecast) in
  length listed = (7 `min` length twoDays)%nat ∧
  (∀ i e, listed !! i = Some e →
     ∃ a p k, opening a p ∧ sampleDateKey (startTime p) = inr k ∧
              Map_keys twoDays !! i = Some k ∧ Map_get twoDays k = Some e ∧
              date e = startTime p ∧ day_name e = name p) ∧
  (∀ i j a b pa pb ki kj,
     (i < j)%nat →
     Map_keys twoDays !! i = Some ki → Map_keys twoDays !! j = Some kj →
     opening a pa → sampleDateKey (startTime pa) = inr ki →
     opening b pb → sampleDateKey (startTime pb) = inr kj →
     (a < b)%nat) ∧
  (∀ i j ei ej,
     (i < j)%nat → listed !! i = Some ei → listed !! j = Some ej →
     ∃ a b pa pb,
       (a < b)%nat ∧ opening a pa ∧ opening b pb ∧
       date ei = startTime pa ∧ day_name ei = name pa ∧
       date ej = startTime pb ∧ day_name ej = name pb) ∧
  (∀ a p, opening a p →
     ∃ i k e, sampleDateKey (startTime p) = inr k ∧
              Map_keys twoDays !! i = Some k ∧
              Map_values twoDays !! i = Some e ∧
              date e = startTime p ∧ day_name e = name p ∧
              ((i < 7)%nat → listed !! i = Some e)).
Proof.
  exact (days_listed_in_order_of_first_mention sampleDateKey
           NYC_COORDS_lat NYC_COORDS_lon None
           samplePoints twoDayForecast sampleHourly None twoDays
           twoDays_folded).
Defined.

(** X12 at -360 and at -90 degrees: the quotients round to -16 and to
    -4; the first reads N, the second no entry. *)
Lemma bearings_below_zero_run :
  degreesToCardinal (Some (ofZ (-360))) = Js "N" ∧
  degreesToCardinal (Some (ofZ (-90))) = JsUndefined.
Proof.
  split.
  - apply (proj2 degreesToCardinal_below_zero (ofZ (-360)) (-16));
      [vm_compute; reflexivity .. | lia].
  - apply (proj2 degreesToCardinal_below_zero (ofZ (-90)) (-4));
      [vm_compute; reflexivity .. | lia].
Defined.

(** X14 at the file in the first format: read a second time, the two
    subscribers have the tokens of the first reading. *)
Lemma listed_twice_run :
  ∃ again w2,
    Subscribers.listSubscribers sampleTrim sampleLower sampleHex sampleNow
      migratedStore = (inr again, w2) ∧
    drawn w2 = drawn migratedStore ∧ readings w2 = readings migratedStore ∧
    token <$> again = token <$> [ada; bob] ∧
    subscribedAt <$> again = subscribedAt <$> [ada; bob] ∧
    sub_unit <$> again = sub_unit <$> [ada; bob] ∧
    timezone <$> again = timezone <$> [ada; bob] ∧
    lastSentOn <$> again = lastSentOn <$> [ada; bob] ∧
    ((∀ e, Subscribers.normalizeEmail sampleTrim sampleLower
             (Subscribers.normalizeEmail sampleTrim sampleLower e) =
           Subscribers.normalizeEmail sampleTrim sampleLower e) →
     email <$> again = email <$> [ada; bob]).
Proof.
  apply (listed_subscribers_keep_their_tokens sampleTrim sampleLower sampleHex
           sampleNow sampleHex_truthy legacyStore [ada; bob] migratedStore).
  vm_compute. reflexivity.
Defined.




(** X18 at two requests from one block of Manhattan: both are served
    from the bucket of 40.713 north, 74.006 west. *)
Lemma weather_route_same_cell_run :
  ∃ key1 key2,
    Routes.weatherCall sampleToString sampleParseFloat
      (Some "40.7128") (Some "-74.006") (Some "Home") (reads 1000) =
      Call key1 (Some (sampleParseFloat "40.7128"), Some (sampleParseFloat "-74.006"))
           (Some "Home") (reads 1000) ∧
    Routes.weatherCall sampleToString sampleParseFloat
      (Some "40.7131") (Some "-74.006") None (reads 2000) =
      Call key2 (Some (sampleParseFloat "40.7131"), Some (sampleParseFloat "-74.006"))
           None (reads 2000) ∧
    (key1 = key2 ↔
     roundedAt 3 (sampleParseFloat "40.7128") = roundedAt 3 (sampleParseFloat "40.7131") ∧
     ltZero (sampleParseFloat "40.7128") = ltZero (sampleParseFloat "40.7131") ∧
     roundedAt 3 (sampleParseFloat "-74.006") = roundedAt 3 (sampleParseFloat "-74.006") ∧
     ltZero (sampleParseFloat "-74.006") = ltZero (sampleParseFloat "-74.006")).
Proof.
  apply (proj2 (weather_route_buckets sampleToString sampleParseFloat));
    (discriminate || (vm_compute; reflexivity)).
Defined.

(** X19 at the token of the first subscriber: the link is answered with
    success once, and 404 the second time. *)
Lemma unsubscribe_twice_run :
  (∃ subscribers w0,
     Subscribers.listSubscribers sampleTrim sampleLower sampleHex sampleNow
       migratedStore = (inr subscribers, w0) ∧
     sampleHex 0 ∈ token <$> subscribers) ∧
  ∃ w2,
    Routes.unsubscribe sampleTrim sampleLower sampleHex sampleNow
      (Some (sampleHex 0))
      {| file := written [bob]; drawn := 2; readings := 2 |} =
      (UnsubscribeError 404 "Invalid token", w2).
Proof.
  apply (proj2 (proj2 (proj2 (unsubscribe_link_works_once sampleTrim sampleLower
                                sampleHex sampleNow sampleHex_truthy)))
           (sampleHex 0) migratedStore).
  vm_compute. reflexivity.
Defined.


(** X21 after that run: of the two subscribers listed, only the second
    can still be due. *)
Lemma delivered_not_tried_again_run :
  ∃ sent w2 again w3,
    Routes.digest sampleTrim sampleLower sampleHex sampleNow
      sampleHour sampleDate deliverFirst None 0 migratedStore =
      (DigestSent (length sent), w2) ∧
    (∀ e, e ∈ sent ↔
          ∃ i s,
            (if bool_decide (@None string = Some "1") then [ada; bob]
             else filter (λ subscriber,
                            Routes.isDueNow sampleHour sampleDate subscriber 0 = true)
                         [ada; bob]) !! i = Some s ∧
            deliverFirst i s = inr () ∧ email s = e) ∧
    Subscribers.listSubscribers sampleTrim sampleLower sampleHex sampleNow w2
      = (inr again, w3) ∧
    length again = length [ada; bob] ∧
    ∀ i s',
      again !! i = Some s' →
      Routes.isDueNow sampleHour sampleDate s' 0 = true →
      ∃ s, [ada; bob] !! i = Some s ∧ token s' = token s ∧
           Routes.isDueNow sampleHour sampleDate s 0 = true ∧ email s ∉ sent.
Proof.
  apply (delivered_are_not_tried_again sampleTrim sampleLower sampleHex sampleNow
           sampleHour sampleDate deliverFirst None 0 migratedStore
           [ada; bob] migratedStore sampleHex_truthy).
  vm_compute. reflexivity.
Defined.

(** X13 at 40.7128 and 40.7131 north, which get one key: both round to
    40.713. *)
Lemma same_bucket_same_cell_run :
  roundedAt 3 (ofDecimal 407128 4) = roundedAt 3 (ofDecimal 407131 4) ∧
  ltZero (ofDecimal 407128 4) = ltZero (ofDecimal 407131 4) ∧
  roundedAt 3 NYC_COORDS_lon = roundedAt 3 NYC_COORDS_lon ∧
  ltZero NYC_COORDS_lon = ltZero NYC_COORDS_lon.
Proof.
  apply (proj1 (same_bucket_same_cell sampleToString
                  (ofDecimal 407128 4) NYC_COORDS_lon
                  (ofDecimal 407131 4) NYC_COORDS_lon
                  eq_refl eq_refl eq_refl eq_refl)).
  vm_compute. reflexivity.
Defined.

End MoreRuns.
